(** * bbctrl-firmware: planner buffer pool, command queue, position bridge and
      axis map

    A shallow embedding of [src/plan/planner.c] and [src/avr/src/axis.c].

    - C [float] is IEEE-754 binary32, taken from the Standard Library's
      [SpecFloat] at precision 24 and maximal exponent 128.
    - A pointer into the block array [mb.bf] is [option nat]: [None] is the
      null pointer, [Some i] is [&mb.bf[i]].
    - The globals live in one record [world]; every planner function is a
      computation in the state-and-failure monad [M].  A computation gives
      nothing ([None]) where the C code would dereference a null or dangling
      block pointer or write outside a position vector, and where a loop
      given fuel has not ended when the fuel runs out.
    - Calls into collaborators whose code is elsewhere (canonical machine,
      stepper, encoder) are appended to the log [calls]. *)

From Stdlib Require Import ZArith Lia Floats.SpecFloat Ascii.
From stdpp Require Import base option list.

#[local] Open Scope nat_scope.

(** ** Numbers *)

(** C [float]: binary32. *)
Definition float : Type := spec_float.
Definition prec32 : Z := 24.
Definition emax32 : Z := 128.

Definition f_zero : float := S754_zero false.
Definition f_add : float → float → float := SFadd prec32 emax32.
Definition f_sub : float → float → float := SFsub prec32 emax32.
Definition f_mul : float → float → float := SFmul prec32 emax32.
Definition f_sqrt : float → float := SFsqrt prec32 emax32.
Definition f_le : float → float → bool := SFleb.
Definition f_eq : float → float → bool := SFeqb.

(** An integer literal converted to [float]. *)
Definition f_of_Z (z : Z) : float := binary_normalize prec32 emax32 z 0 false.

(** Storing into a [uint8_t]. *)
Definition uint8 (z : Z) : Z := (z mod 256)%Z.

(** Number of axes: [motor_map[AXES]] has the six initialisers X Y Z A B C. *)
Definition AXES : nat := 6.
Definition AXIS_X : nat := 0.
Definition AXIS_Y : nat := 1.
Definition AXIS_Z : nat := 2.
Definition AXIS_A : nat := 3.
Definition AXIS_B : nat := 4.
Definition AXIS_C : nat := 5.

(** ** Planner data *)

Definition ptr : Type := option nat.

(** A canonical-machine callback (a function of two float arrays returning
    nothing) is known by its code address. *)
Definition cm_exec_t : Type := nat.

(** Modelled from the spec: planner.h is not among the sources; a cleared
    block is Empty, so the enumerations are given with their zero value
    first: [memset (bf, 0, ...)] leaves a block [MP_BUFFER_EMPTY], of no move
    type and [MOVE_OFF]. *)
Inductive bufferState : Set :=
| MP_BUFFER_EMPTY
| MP_BUFFER_LOADING
| MP_BUFFER_QUEUED
| MP_BUFFER_PENDING
| MP_BUFFER_RUNNING.

Inductive moveType : Set := MOVE_TYPE_NULL | MOVE_TYPE_DWELL | MOVE_TYPE_COMMAND.
Inductive moveState : Set := MOVE_OFF | MOVE_NEW.
Inductive stat_t : Set := STAT_OK | STAT_BUFFER_FULL_FATAL.

(** The two execution routines a block's [bf_func] can point to. *)
Inductive bf_func_t : Set := bf_func_null | ptr_exec_dwell | ptr_exec_command.

#[global] Instance bufferState_eq_dec : EqDecision bufferState.
Proof. solve_decision. Defined.
#[global] Instance stat_t_eq_dec : EqDecision stat_t.
Proof. solve_decision. Defined.

Section Firmware.

(** PLANNER_BUFFER_POOL_SIZE and MOTORS are configuration constants of
    headers that are not among the sources. *)
Variable PLANNER_BUFFER_POOL_SIZE : nat.
Variable MOTORS : nat.

(** Inverse kinematics (kinematics.c): the step count it writes for each motor. *)
Variable ik_kinematics : list float → nat → float.

(** What [cm_hard_alarm] hands back to its caller (canonical_machine.c). *)
Variable cm_hard_alarm_ret : stat_t → stat_t.

(** Scaling constants and the zero test of headers that are not among the
    sources. *)
Variable VELOCITY_MULTIPLIER ACCEL_MULTIPLIER JERK_MULTIPLIER : float.
Variable fp_ZERO : float → bool.

(** One planner block, with the fields planner.c touches.  [value_vector] is
    the source's alias for [gm.target], [flag_vector] for [unit]. *)
Record mpBuf_t : Type := {
  nx : ptr;
  pv : ptr;
  bf_func : bf_func_t;
  cm_func : option cm_exec_t;
  buffer_state : bufferState;
  move_type : moveType;
  move_state : moveState;
  value_vector : list float;
  flag_vector : list float;
  gm_move_time : float
}.

(** A block after [memset (bf, 0, sizeof (mpBuf_t))]. *)
Definition mpBuf_zero : mpBuf_t := {|
  nx := None; pv := None; bf_func := bf_func_null; cm_func := None;
  buffer_state := MP_BUFFER_EMPTY; move_type := MOVE_TYPE_NULL;
  move_state := MOVE_OFF;
  value_vector := replicate AXES f_zero; flag_vector := replicate AXES f_zero;
  gm_move_time := f_zero
|}.

Definition set_nx (p : ptr) (b : mpBuf_t) : mpBuf_t :=
  {| nx := p; pv := pv b; bf_func := bf_func b; cm_func := cm_func b;
     buffer_state := buffer_state b; move_type := move_type b;
     move_state := move_state b; value_vector := value_vector b;
     flag_vector := flag_vector b; gm_move_time := gm_move_time b |}.

Definition set_pv (p : ptr) (b : mpBuf_t) : mpBuf_t :=
  {| nx := nx b; pv := p; bf_func := bf_func b; cm_func := cm_func b;
     buffer_state := buffer_state b; move_type := move_type b;
     move_state := move_state b; value_vector := value_vector b;
     flag_vector := flag_vector b; gm_move_time := gm_move_time b |}.

Definition set_bf_func (f : bf_func_t) (b : mpBuf_t) : mpBuf_t :=
  {| nx := nx b; pv := pv b; bf_func := f; cm_func := cm_func b;
     buffer_state := buffer_state b; move_type := move_type b;
     move_state := move_state b; value_vector := value_vector b;
     flag_vector := flag_vector b; gm_move_time := gm_move_time b |}.

Definition set_cm_func (f : option cm_exec_t) (b : mpBuf_t) : mpBuf_t :=
  {| nx := nx b; pv := pv b; bf_func := bf_func b; cm_func := f;
     buffer_state := buffer_state b; move_type := move_type b;
     move_state := move_state b; value_vector := value_vector b;
     flag_vector := flag_vector b; gm_move_time := gm_move_time b |}.

Definition set_buffer_state (s : bufferState) (b : mpBuf_t) : mpBuf_t :=
  {| nx := nx b; pv := pv b; bf_func := bf_func b; cm_func := cm_func b;
     buffer_state := s; move_type := move_type b;
     move_state := move_state b; value_vector := value_vector b;
     flag_vector := flag_vector b; gm_move_time := gm_move_time b |}.

Definition set_move_type (t : moveType) (b : mpBuf_t) : mpBuf_t :=
  {| nx := nx b; pv := pv b; bf_func := bf_func b; cm_func := cm_func b;
     buffer_state := buffer_state b; move_type := t;
     move_state := move_state b; value_vector := value_vector b;
     flag_vector := flag_vector b; gm_move_time := gm_move_time b |}.

Definition set_move_state (s : moveState) (b : mpBuf_t) : mpBuf_t :=
  {| nx := nx b; pv := pv b; bf_func := bf_func b; cm_func := cm_func b;
     buffer_state := buffer_state b; move_type := move_type b;
     move_state := s; value_vector := value_vector b;
     flag_vector := flag_vector b; gm_move_time := gm_move_time b |}.

Definition set_value (axis : nat) (x : float) (b : mpBuf_t) : mpBuf_t :=
  {| nx := nx b; pv := pv b; bf_func := bf_func b; cm_func := cm_func b;
     buffer_state := buffer_state b; move_type := move_type b;
     move_state := move_state b; value_vector := <[axis := x]> (value_vector b);
     flag_vector := flag_vector b; gm_move_time := gm_move_time b |}.

Definition set_flag (axis : nat) (x : float) (b : mpBuf_t) : mpBuf_t :=
  {| nx := nx b; pv := pv b; bf_func := bf_func b; cm_func := cm_func b;
     buffer_state := buffer_state b; move_type := move_type b;
     move_state := move_state b; value_vector := value_vector b;
     flag_vector := <[axis := x]> (flag_vector b); gm_move_time := gm_move_time b |}.

Definition set_gm_move_time (x : float) (b : mpBuf_t) : mpBuf_t :=
  {| nx := nx b; pv := pv b; bf_func := bf_func b; cm_func := cm_func b;
     buffer_state := buffer_state b; move_type := move_type b;
     move_state := move_state b; value_vector := value_vector b;
     flag_vector := flag_vector b; gm_move_time := x |}.

(** [mpBufferPool_t mb]: the counter, the write, queued and run cursors, and
    the blocks. *)
Record mpBufferPool_t : Type := {
  buffers_available : Z;
  mb_w : ptr;
  mb_q : ptr;
  mb_r : ptr;
  mb_bf : list mpBuf_t
}.

(** [mpMoveRuntimeSingleton_t mr], the fields planner.c touches. *)
Record mpMoveRuntimeSingleton_t : Type := {
  mr_position : list float;
  target_steps : list float;
  position_steps : list float;
  commanded_steps : list float;
  following_error : list float
}.

(** Calls that leave this file. *)
Inductive call : Type :=
| cm_hard_alarm (status : stat_t)
| cm_cycle_end
| cm_abort_arc
| cm_set_motion_state_MOTION_STOP
| st_request_exec_move
| st_prep_command (bf : ptr)
| en_set_encoder_steps (motor : nat) (steps : float)
| call_cm_func (f : cm_exec_t) (value flag : list float).

(** The globals: [mb], [mm.position], [mr], [st_pre.mot[].corrected_steps],
    the caller's memory holding the arrays passed by address, and the log of
    outgoing calls (oldest first). *)
Record world : Type := {
  mb : mpBufferPool_t;
  mm_position : list float;
  mr : mpMoveRuntimeSingleton_t;
  corrected_steps : list Z;
  ram : nat → float;
  calls : list call
}.

Definition with_mb (p : mpBufferPool_t) (σ : world) : world :=
  {| mb := p; mm_position := mm_position σ; mr := mr σ;
     corrected_steps := corrected_steps σ; ram := ram σ; calls := calls σ |}.

Definition with_mr (x : mpMoveRuntimeSingleton_t) (σ : world) : world :=
  {| mb := mb σ; mm_position := mm_position σ; mr := x;
     corrected_steps := corrected_steps σ; ram := ram σ; calls := calls σ |}.

Definition with_mm_position (x : list float) (σ : world) : world :=
  {| mb := mb σ; mm_position := x; mr := mr σ;
     corrected_steps := corrected_steps σ; ram := ram σ; calls := calls σ |}.

Definition with_corrected_steps (x : list Z) (σ : world) : world :=
  {| mb := mb σ; mm_position := mm_position σ; mr := mr σ;
     corrected_steps := x; ram := ram σ; calls := calls σ |}.

Definition with_ram (x : nat → float) (σ : world) : world :=
  {| mb := mb σ; mm_position := mm_position σ; mr := mr σ;
     corrected_steps := corrected_steps σ; ram := x; calls := calls σ |}.

Definition with_calls (x : list call) (σ : world) : world :=
  {| mb := mb σ; mm_position := mm_position σ; mr := mr σ;
     corrected_steps := corrected_steps σ; ram := ram σ; calls := x |}.

(** ** The monad *)

Definition M (A : Type) : Type := world → option (A * world).

Definition ret {A} (a : A) : M A := λ σ, Some (a, σ).

Definition bind {A B} (m : M A) (k : A → M B) : M B :=
  λ σ, match m σ with Some (a, σ') => k a σ' | None => None end.

Notation "'let*' x := m 'in' k" := (bind m (λ x, k))
  (at level 10, x name, m at level 100, k at level 200).
Notation "m >> k" := (bind m (λ _, k))
  (at level 90, right associativity).

Definition fault {A} : M A := λ _, None.
Definition get_mb : M mpBufferPool_t := λ σ, Some (mb σ, σ).
Definition put_mb (p : mpBufferPool_t) : M () := λ σ, Some ((), with_mb p σ).
Definition emit (c : call) : M () := λ σ, Some ((), with_calls (calls σ ++ [c]) σ).

Definition set_w (p : ptr) : M () :=
  let* m := get_mb in
  put_mb {| buffers_available := buffers_available m; mb_w := p; mb_q := mb_q m;
            mb_r := mb_r m; mb_bf := mb_bf m |}.
Definition set_q (p : ptr) : M () :=
  let* m := get_mb in
  put_mb {| buffers_available := buffers_available m; mb_w := mb_w m; mb_q := p;
            mb_r := mb_r m; mb_bf := mb_bf m |}.
Definition set_r (p : ptr) : M () :=
  let* m := get_mb in
  put_mb {| buffers_available := buffers_available m; mb_w := mb_w m; mb_q := mb_q m;
            mb_r := p; mb_bf := mb_bf m |}.
Definition set_buffers_available (n : Z) : M () :=
  let* m := get_mb in
  put_mb {| buffers_available := uint8 n; mb_w := mb_w m; mb_q := mb_q m;
            mb_r := mb_r m; mb_bf := mb_bf m |}.
Definition set_bf (l : list mpBuf_t) : M () :=
  let* m := get_mb in
  put_mb {| buffers_available := buffers_available m; mb_w := mb_w m; mb_q := mb_q m;
            mb_r := mb_r m; mb_bf := l |}.

(** [*p] for a block pointer: a fault on null or outside the array. *)
Definition load (p : ptr) : M mpBuf_t :=
  let* m := get_mb in
  match p with
  | Some i => match mb_bf m !! i with Some b => ret b | None => fault end
  | None => fault
  end.

(** [*p = b]. *)
Definition store (p : ptr) (b : mpBuf_t) : M () :=
  let* m := get_mb in
  match p with
  | Some i => if decide (i < length (mb_bf m)) then set_bf (<[i := b]> (mb_bf m)) else fault
  | None => fault
  end.

(** [p->field = ...]. *)
Definition update (p : ptr) (f : mpBuf_t → mpBuf_t) : M () :=
  let* b := load p in store p (f b).

(** [for (i = lo; i < lo + n; i++) body (i)]. *)
Fixpoint for_loop (lo n : nat) (body : nat → M ()) : M () :=
  match n with
  | 0 => ret ()
  | S n' => body lo >> for_loop (S lo) n' body
  end.

(** [for (uint8_t i = lo; i < bound; i++) body (i)]: the index wraps at 256,
    so the loop does not end when [bound] is above 255; run for at most
    [fuel] rounds, it gives nothing when the fuel runs out. *)
Fixpoint for_loop_u8 (fuel i bound : nat) (body : nat → M ()) : M () :=
  match fuel with
  | 0 => if decide (i < bound) then fault else ret ()
  | S fuel' =>
      if decide (i < bound)
      then body i >> for_loop_u8 fuel' ((i + 1) mod 256) bound body
      else ret ()
  end.

Definition get_world : M world := λ σ, Some (σ, σ).
Definition put_mr (x : mpMoveRuntimeSingleton_t) : M () := λ σ, Some ((), with_mr x σ).

(** ** planner.c *)

(** [#define _bump(a) ((a < PLANNER_BUFFER_POOL_SIZE - 1) ? a + 1 : 0)] *)
Definition _bump (a : nat) : nat :=
  if decide (a < PLANNER_BUFFER_POOL_SIZE - 1) then a + 1 else 0.

(** [mb] after [memset (&mb, 0, sizeof (mb))]. *)
Definition mb_zero : mpBufferPool_t := {|
  buffers_available := 0; mb_w := None; mb_q := None; mb_r := None;
  mb_bf := replicate PLANNER_BUFFER_POOL_SIZE mpBuf_zero
|}.

(** The ring-pointer loop of [mp_init_buffers]; [pv] is its local variable. *)
Fixpoint init_ring (i n : nat) (pv : ptr) : M () :=
  match n with
  | 0 => ret ()
  | S n' =>
      update (Some i) (set_nx (Some (_bump i))) >>
      update (Some i) (set_pv pv) >>
      init_ring (S i) n' (Some i)
  end.

Definition mp_init_buffers : M () :=
  put_mb mb_zero >>
  set_w (Some 0) >>
  set_q (Some 0) >>
  set_r (Some 0) >>
  init_ring 0 PLANNER_BUFFER_POOL_SIZE (Some (PLANNER_BUFFER_POOL_SIZE - 1)) >>
  set_buffers_available (Z.of_nat PLANNER_BUFFER_POOL_SIZE).

Definition mp_get_planner_buffers_available : M Z :=
  let* m := get_mb in ret (buffers_available m).

Definition mp_get_write_buffer : M ptr :=
  let* m := get_mb in
  let* b := load (mb_w m) in
  if decide (buffer_state b = MP_BUFFER_EMPTY) then
    let w := mb_w m in
    let nx_saved := nx b in
    let pv_saved := pv b in
    store w mpBuf_zero >>
    update w (set_nx nx_saved) >>
    update w (set_pv pv_saved) >>
    update w (set_buffer_state MP_BUFFER_LOADING) >>
    (let* m := get_mb in set_buffers_available (buffers_available m - 1)) >>
    (let* b := load w in set_w (nx b)) >>
    ret w
  else ret None.

Definition mp_unget_write_buffer : M () :=
  (let* m := get_mb in let* b := load (mb_w m) in set_w (pv b)) >>
  (let* m := get_mb in update (mb_w m) (set_buffer_state MP_BUFFER_EMPTY)) >>
  (let* m := get_mb in set_buffers_available (buffers_available m + 1)).

Definition mp_commit_write_buffer (ty : moveType) : M () :=
  (let* m := get_mb in update (mb_q m) (set_move_type ty)) >>
  (let* m := get_mb in update (mb_q m) (set_move_state MOVE_NEW)) >>
  (let* m := get_mb in update (mb_q m) (set_buffer_state MP_BUFFER_QUEUED)) >>
  (let* m := get_mb in let* b := load (mb_q m) in set_q (nx b)) >>
  emit st_request_exec_move.

Definition mp_get_run_buffer : M ptr :=
  (let* m := get_mb in
   let* b := load (mb_r m) in
   if decide (buffer_state b = MP_BUFFER_QUEUED ∨ buffer_state b = MP_BUFFER_PENDING)
   then update (mb_r m) (set_buffer_state MP_BUFFER_RUNNING)
   else ret ()) >>
  let* m := get_mb in
  let* b := load (mb_r m) in
  if decide (buffer_state b = MP_BUFFER_RUNNING) then ret (mb_r m) else ret None.

Definition mp_clear_buffer (bf : ptr) : M () :=
  let* b := load bf in
  let nx_saved := nx b in
  let pv_saved := pv b in
  store bf mpBuf_zero >>
  update bf (set_nx nx_saved) >>
  update bf (set_pv pv_saved).

Definition mp_free_run_buffer : M bool :=
  (let* m := get_mb in mp_clear_buffer (mb_r m)) >>
  (let* m := get_mb in let* b := load (mb_r m) in set_r (nx b)) >>
  (let* m := get_mb in
   let* b := load (mb_r m) in
   if decide (buffer_state b = MP_BUFFER_QUEUED)
   then update (mb_r m) (set_buffer_state MP_BUFFER_PENDING)
   else ret ()) >>
  (let* m := get_mb in set_buffers_available (buffers_available m + 1)) >>
  let* m := get_mb in ret (bool_decide (mb_w m = mb_r m)).

Definition mp_get_first_buffer : M ptr := mp_get_run_buffer.

(** [cm_hard_alarm (status)]: the call is logged, its result is the
    collaborator's. *)
Definition do_cm_hard_alarm (status : stat_t) : M stat_t :=
  emit (cm_hard_alarm status) >> ret (cm_hard_alarm_ret status).

(** [value] and [flag] are the addresses of the caller's arrays. *)
Definition mp_queue_command (cm_exec : cm_exec_t) (value flag : nat) : M () :=
  let* bf := mp_get_write_buffer in
  match bf with
  | None => let* _ := do_cm_hard_alarm STAT_BUFFER_FULL_FATAL in ret ()
  | Some _ =>
      update bf (set_move_type MOVE_TYPE_COMMAND) >>
      update bf (set_bf_func ptr_exec_command) >>
      update bf (set_cm_func (Some cm_exec)) >>
      for_loop AXIS_X (AXES - AXIS_X) (λ axis,
        (let* σ := get_world in update bf (set_value axis (ram σ (value + axis)))) >>
        (let* σ := get_world in update bf (set_flag axis (ram σ (flag + axis))))) >>
      mp_commit_write_buffer MOVE_TYPE_COMMAND
  end.

Definition _exec_command (bf : ptr) : M stat_t :=
  emit (st_prep_command bf) >> ret STAT_OK.

Definition mp_runtime_command (bf : ptr) : M stat_t :=
  (let* b := load bf in
   match cm_func b with
   | Some f => emit (call_cm_func f (value_vector b) (flag_vector b))
   | None => fault
   end) >>
  (let* emptied := mp_free_run_buffer in
   if emptied then emit cm_cycle_end else ret ()) >>
  ret STAT_OK.

Definition mp_dwell (seconds : float) : M stat_t :=
  let* bf := mp_get_write_buffer in
  match bf with
  | None => do_cm_hard_alarm STAT_BUFFER_FULL_FATAL
  | Some _ =>
      update bf (set_bf_func ptr_exec_dwell) >>
      update bf (set_gm_move_time seconds) >>
      update bf (set_move_state MOVE_NEW) >>
      mp_commit_write_buffer MOVE_TYPE_DWELL >>
      ret STAT_OK
  end.

Definition mp_flush_planner : M () :=
  emit cm_abort_arc >>
  mp_init_buffers >>
  emit cm_set_motion_state_MOTION_STOP.

(** [uint8_t axis]: the argument of a call is converted to [uint8_t], that
    is, taken modulo 256; [mm.position[axis]] is written unchecked, which
    outside the vector is a write out of bounds and gives nothing here. *)
Definition mp_set_planner_position (axis : nat) (position : float) : M () :=
  λ σ,
    let a := axis mod 256 in
    if decide (a < length (mm_position σ))
    then Some ((), with_mm_position (<[a := position]> (mm_position σ)) σ)
    else None.

(** As [mp_set_planner_position], on [mr.position]. *)
Definition mp_set_runtime_position (axis : nat) (position : float) : M () :=
  let* σ := get_world in
  let a := axis mod 256 in
  if decide (a < length (mr_position (mr σ)))
  then put_mr {| mr_position := <[a := position]> (mr_position (mr σ));
                 target_steps := target_steps (mr σ);
                 position_steps := position_steps (mr σ);
                 commanded_steps := commanded_steps (mr σ);
                 following_error := following_error (mr σ) |}
  else fault.

(** The body of the motor loop of [mp_set_steps_to_runtime_position]. *)
Definition set_steps_body (step_position : nat → float) (motor : nat) : M () :=
  (let* σ := get_world in
   put_mr {| mr_position := mr_position (mr σ);
             target_steps := <[motor := step_position motor]> (target_steps (mr σ));
             position_steps := position_steps (mr σ);
             commanded_steps := commanded_steps (mr σ);
             following_error := following_error (mr σ) |}) >>
  (let* σ := get_world in
   put_mr {| mr_position := mr_position (mr σ);
             target_steps := target_steps (mr σ);
             position_steps := <[motor := step_position motor]> (position_steps (mr σ));
             commanded_steps := commanded_steps (mr σ);
             following_error := following_error (mr σ) |}) >>
  (let* σ := get_world in
   put_mr {| mr_position := mr_position (mr σ);
             target_steps := target_steps (mr σ);
             position_steps := position_steps (mr σ);
             commanded_steps := <[motor := step_position motor]> (commanded_steps (mr σ));
             following_error := following_error (mr σ) |}) >>
  emit (en_set_encoder_steps motor (step_position motor)) >>
  (let* σ := get_world in
   put_mr {| mr_position := mr_position (mr σ);
             target_steps := target_steps (mr σ);
             position_steps := position_steps (mr σ);
             commanded_steps := commanded_steps (mr σ);
             following_error := <[motor := f_of_Z 0]> (following_error (mr σ)) |}) >>
  (λ σ, Some ((), with_corrected_steps (<[motor := 0%Z]> (corrected_steps σ)) σ)).

(** The motor loop counts in a [uint8_t]; [fuel] bounds its rounds. *)
Definition mp_set_steps_to_runtime_position (fuel : nat) : M () :=
  let* σ := get_world in
  let step_position := ik_kinematics (mr_position (mr σ)) in
  for_loop_u8 fuel 0 MOTORS (set_steps_body step_position).

(** Modelled from the spec: encoder.c is not among the sources;
    [en_set_encoder_steps] writes a motor's step count to its encoder
    register, which therefore holds the steps of the last such call. *)
Definition encoder_register (log : list call) (motor : nat) : option float :=
  foldl (λ acc c,
           match c with
           | en_set_encoder_steps m steps => if decide (m = motor) then Some steps else acc
           | _ => acc
           end) None log.

(** ** axis.c *)

(** [int motor_map[AXES] = {-1, -1, -1, -1, -1, -1}]. *)
Definition motor_map_initial : list Z := replicate AXES (-1)%Z.

Record axis_t : Type := {
  velocity_max : float;
  accel_max : float;
  jerk_max : float
}.

(** [motor_map[axis]]; nothing for an index outside the array. *)
Definition axis_get_motor (motor_map : list Z) (axis : nat) : option Z :=
  motor_map !! axis.

(** [axes[motor]] for an [int] index. *)
Definition axes_at (axes : list axis_t) (motor : Z) : option axis_t :=
  if decide (0 ≤ motor)%Z then axes !! Z.to_nat motor else None.

(** The motor loop of [axis_map_motors] for one axis, from [motor] on, with
    its [break] at the first match.  [motor_get_axis] reads the motor
    configuration (motor.c). *)
Fixpoint map_first_motor (motor_get_axis : nat → Z) (axis motor n : nat)
    (motor_map : list Z) : list Z :=
  match n with
  | 0 => motor_map
  | S n' =>
      if decide (motor_get_axis motor = Z.of_nat axis)
      then <[axis := Z.of_nat motor]> motor_map
      else map_first_motor motor_get_axis axis (S motor) n' motor_map
  end.

Definition axis_map_motors (motor_get_axis : nat → Z) (motor_map : list Z) : list Z :=
  foldl (λ mm axis, map_first_motor motor_get_axis axis 0 MOTORS mm)
        motor_map (seq 0 AXES).

Definition axis_get_velocity_max (motor_map : list Z) (axes : list axis_t)
    (axis : nat) : option float :=
  motor ← axis_get_motor motor_map axis;
  if decide (motor = -1)%Z then Some (f_of_Z 0)
  else a ← axes_at axes motor; Some (f_mul (velocity_max a) VELOCITY_MULTIPLIER).

Definition axis_get_accel_max (motor_map : list Z) (axes : list axis_t)
    (axis : nat) : option float :=
  motor ← axis_get_motor motor_map axis;
  if decide (motor = -1)%Z then Some (f_of_Z 0)
  else a ← axes_at axes motor; Some (f_mul (accel_max a) ACCEL_MULTIPLIER).

Definition axis_get_jerk_max (motor_map : list Z) (axes : list axis_t)
    (axis : nat) : option float :=
  motor ← axis_get_motor motor_map axis;
  if decide (motor = -1)%Z then Some (f_of_Z 0)
  else a ← axes_at axes motor; Some (f_mul (jerk_max a) JERK_MULTIPLIER).

(** [motor != -1 && motor_is_enabled (motor) && !fp_ZERO (...)], evaluated
    left to right. *)
Definition axis_is_enabled (motor_is_enabled : Z → bool) (motor_map : list Z)
    (axes : list axis_t) (axis : nat) : option bool :=
  motor ← axis_get_motor motor_map axis;
  if decide (motor = -1)%Z then Some false
  else if motor_is_enabled motor
       then v ← axis_get_velocity_max motor_map axes axis; Some (negb (fp_ZERO v))
       else Some false.

(** Modelled from the spec: [square] is a macro of util.h, which is not among
    the sources; the distance is the square root of the sum of squared
    per-axis differences, so [square (x)] is [x * x]. *)
Definition square (x : float) : float := f_mul x x.

(** An array argument [const float a[]] is the map from index to element. *)
Definition axis_get_vector_length (a b : nat → float) : float :=
  f_sqrt
    (f_add
       (f_add
          (f_add
             (f_add
                (f_add (square (f_sub (a AXIS_X) (b AXIS_X)))
                       (square (f_sub (a AXIS_Y) (b AXIS_Y))))
                (square (f_sub (a AXIS_Z) (b AXIS_Z))))
             (square (f_sub (a AXIS_A) (b AXIS_A))))
          (square (f_sub (a AXIS_B) (b AXIS_B))))
       (square (f_sub (a AXIS_C) (b AXIS_C)))).

(** ** Closed forms used in the statements *)

(** The block that [mp_clear_buffer] leaves: zeroed, links kept. *)
Definition cleared_of (b : mpBuf_t) : mpBuf_t :=
  set_pv (pv b) (set_nx (nx b) mpBuf_zero).

(** The block that [mp_get_write_buffer] hands out: zeroed, links kept,
    Loading. *)
Definition loading_of (b : mpBuf_t) : mpBuf_t :=
  set_buffer_state MP_BUFFER_LOADING (cleared_of b).

(** The block that [mp_commit_write_buffer] leaves at the queued cursor. *)
Definition queued_of (ty : moveType) (b : mpBuf_t) : mpBuf_t :=
  set_buffer_state MP_BUFFER_QUEUED (set_move_state MOVE_NEW (set_move_type ty b)).

Definition pool (avail : Z) (w q r : ptr) (bf : list mpBuf_t) : mpBufferPool_t :=
  {| buffers_available := avail; mb_w := w; mb_q := q; mb_r := r; mb_bf := bf |}.

(** The block a cursor points to. *)
Definition block_at (σ : world) (p : ptr) : option mpBuf_t :=
  i ← p; mb_bf (mb σ) !! i.

(** State of the block a cursor points to. *)
Definition state_at (σ : world) (p : ptr) : option bufferState :=
  buffer_state <$> block_at σ p.

(** A block that is Loading, Queued, Pending or Running. *)
Definition in_use (b : mpBuf_t) : Prop :=
  buffer_state b = MP_BUFFER_LOADING ∨ buffer_state b = MP_BUFFER_QUEUED ∨
  buffer_state b = MP_BUFFER_PENDING ∨ buffer_state b = MP_BUFFER_RUNNING.

#[global] Instance in_use_dec b : Decision (in_use b).
Proof. unfold in_use. apply _. Defined.

Definition count_in_use (σ : world) : nat :=
  length (filter in_use (mb_bf (mb σ))).

(** ** Reachable pool states

    [reachable o σ]: the pool [σ] is reached from [mp_init_buffers] by calls
    of the five queue operations, with [o] write buffers handed out and
    neither committed nor returned yet.  [mp_unget_write_buffer] and
    [mp_commit_write_buffer] are called only with such a buffer outstanding,
    [mp_free_run_buffer] only on a Running block. *)
Inductive reachable : nat → world → Prop :=
| reach_init σ0 σ :
    mp_init_buffers σ0 = Some ((), σ) → reachable 0 σ
| reach_get_write o σ i σ' :
    reachable o σ →
    mp_get_write_buffer σ = Some (Some i, σ') → reachable (S o) σ'
| reach_get_write_none o σ σ' :
    reachable o σ →
    mp_get_write_buffer σ = Some (None, σ') → reachable o σ'
| reach_unget o σ σ' :
    reachable (S o) σ →
    mp_unget_write_buffer σ = Some ((), σ') → reachable o σ'
| reach_commit o ty σ σ' :
    reachable (S o) σ →
    mp_commit_write_buffer ty σ = Some ((), σ') → reachable o σ'
| reach_get_run o σ p σ' :
    reachable o σ →
    mp_get_run_buffer σ = Some (p, σ') → reachable o σ'
| reach_free_run o σ e σ' :
    reachable o σ →
    state_at σ (mb_r (mb σ)) = Some MP_BUFFER_RUNNING →
    mp_free_run_buffer σ = Some (e, σ') → reachable o σ'.

(** ** The ring layout

    Seen from the run cursor [ri], the first [na] blocks are committed
    (Queued, Pending or Running), the next [nl] are Loading, the rest are
    Empty. *)
Definition ring_idx (ri k : nat) : nat :=
  if decide (ri + k < PLANNER_BUFFER_POOL_SIZE) then ri + k
  else ri + k - PLANNER_BUFFER_POOL_SIZE.

Definition ring_off (ri i : nat) : nat :=
  if decide (ri ≤ i) then i - ri else i + PLANNER_BUFFER_POOL_SIZE - ri.

Definition ring_pred (i : nat) : nat :=
  if decide (i = 0) then PLANNER_BUFFER_POOL_SIZE - 1 else i - 1.

Definition committed (s : bufferState) : Prop :=
  s = MP_BUFFER_QUEUED ∨ s = MP_BUFFER_PENDING ∨ s = MP_BUFFER_RUNNING.

Definition state_ok (na nl k : nat) (s : bufferState) : Prop :=
  if decide (k < na) then committed s
  else if decide (k < na + nl) then s = MP_BUFFER_LOADING
  else s = MP_BUFFER_EMPTY.

Definition links_ok (bf : list mpBuf_t) : Prop :=
  ∀ i b, bf !! i = Some b → nx b = Some (_bump i) ∧ pv b = Some (ring_pred i).

Definition states_ok (bf : list mpBuf_t) (ri na nl : nat) : Prop :=
  ∀ i b, bf !! i = Some b → state_ok na nl (ring_off ri i) (buffer_state b).

Record ring_inv (σ : world) (ri na nl : nat) : Prop := {
  inv_size : 0 < PLANNER_BUFFER_POOL_SIZE ≤ 255;
  inv_len : length (mb_bf (mb σ)) = PLANNER_BUFFER_POOL_SIZE;
  inv_ri : ri < PLANNER_BUFFER_POOL_SIZE;
  inv_sum : na + nl ≤ PLANNER_BUFFER_POOL_SIZE;
  inv_r : mb_r (mb σ) = Some ri;
  inv_q : mb_q (mb σ) = Some (ring_idx ri na);
  inv_w : mb_w (mb σ) = Some (ring_idx ri (na + nl));
  inv_links : links_ok (mb_bf (mb σ));
  inv_states : states_ok (mb_bf (mb σ)) ri na nl;
  inv_avail : buffers_available (mb σ) = Z.of_nat (PLANNER_BUFFER_POOL_SIZE - (na + nl));
  inv_count : count_in_use σ = na + nl
}.

(** A machine with nothing in it yet, on which [mp_init_buffers] is run. *)
Definition world_blank : world := {|
  mb := pool 0 None None None [];
  mm_position := replicate AXES f_zero;
  mr := {| mr_position := replicate AXES f_zero; target_steps := [];
           position_steps := []; commanded_steps := []; following_error := [] |};
  corrected_steps := [];
  ram := λ _, f_zero;
  calls := []
|}.

(** ** Running a list of queue operations

    An executable reading of [reachable]: the operations are run in order
    from [mp_init_buffers], [None] when one of them is called outside its
    precondition. *)
Inductive pool_op : Set :=
| op_get_write
| op_unget_write
| op_commit (ty : moveType)
| op_get_run
| op_free_run.

Definition run_op (op : pool_op) (c : nat * world) : option (nat * world) :=
  let '(o, σ) := c in
  match op with
  | op_get_write =>
      match mp_get_write_buffer σ with
      | Some (Some _, σ') => Some (S o, σ')
      | Some (None, σ') => Some (o, σ')
      | None => None
      end
  | op_unget_write =>
      match o with
      | S o' => match mp_unget_write_buffer σ with
                | Some (_, σ') => Some (o', σ')
                | None => None
                end
      | 0 => None
      end
  | op_commit ty =>
      match o with
      | S o' => match mp_commit_write_buffer ty σ with
                | Some (_, σ') => Some (o', σ')
                | None => None
                end
      | 0 => None
      end
  | op_get_run =>
      match mp_get_run_buffer σ with
      | Some (_, σ') => Some (o, σ')
      | None => None
      end
  | op_free_run =>
      if decide (state_at σ (mb_r (mb σ)) = Some MP_BUFFER_RUNNING)
      then match mp_free_run_buffer σ with
           | Some (_, σ') => Some (o, σ')
           | None => None
           end
      else None
  end.

Definition run_ops (ops : list pool_op) (σ0 : world) : option (nat * world) :=
  match mp_init_buffers σ0 with
  | Some (_, σ) => foldl (λ c op, c ≫= run_op op) (Some (0, σ)) ops
  | None => None
  end.

(** A producer and a consumer at work: get, commit, get, run, get, unget,
    free, get. *)
Definition demo_ops : list pool_op :=
  [op_get_write; op_commit MOVE_TYPE_DWELL; op_get_write; op_get_run;
   op_get_write; op_unget_write; op_free_run; op_get_write].

(** Shorter runs: one dwell queued; one dwell running; two dwells queued, the
    first running; every block handed out. *)
Definition ops_one_queued : list pool_op :=
  [op_get_write; op_commit MOVE_TYPE_DWELL].
Definition ops_one_running : list pool_op :=
  [op_get_write; op_commit MOVE_TYPE_DWELL; op_get_run].
Definition ops_two_running : list pool_op :=
  [op_get_write; op_commit MOVE_TYPE_DWELL; op_get_write;
   op_commit MOVE_TYPE_DWELL; op_get_run].
Definition ops_all_loading : list pool_op :=
  [op_get_write; op_get_write; op_get_write; op_get_write].

(** [n] calls of [mp_get_write_buffer], the handles in the order returned. *)
Fixpoint get_writes (n : nat) : M (list ptr) :=
  match n with
  | 0 => ret []
  | S n' =>
      let* p := mp_get_write_buffer in
      let* ps := get_writes n' in
      ret (p :: ps)
  end.

(** [n] calls of [mp_unget_write_buffer]. *)
Fixpoint unget_writes (n : nat) : M () :=
  match n with
  | 0 => ret ()
  | S n' => mp_unget_write_buffer >> unget_writes n'
  end.

(** The six elements of a caller's array at address [p], read from memory
    [mem]. *)
Definition array_at (mem : nat → float) (p : nat) : list float :=
  (λ axis, mem (p + axis)) <$> seq 0 AXES.

(** Elements [lo .. lo + n - 1] of an array set to [g] of their index, as
    a counting loop does. *)
Definition fill {A} (lo n : nat) (g : nat → A) (l : list A) : list A :=
  foldl (λ acc m, <[m := g m]> acc) l (seq lo n).

(** ** Vectors for the distance

    [f_finite x]: [x] is a number, neither an infinity nor a NaN. *)
Definition f_finite (x : float) : bool :=
  match x with
  | S754_zero _ | S754_finite _ _ _ => true
  | S754_infinity _ | S754_nan => false
  end.

(** The spec's wording of the distance: the square root of the sum, over the
    six axes X to C in that order, of the squared differences. *)
Definition euclidean6 (a b : nat → float) : float :=
  f_sqrt (foldl (λ acc axis, f_add acc (square (f_sub (a axis) (b axis))))
                (square (f_sub (a AXIS_X) (b AXIS_X)))
                (seq AXIS_Y (AXES - 1))).

(** The vector with [x] on the X axis and zero elsewhere. *)
Definition along_x (x : float) : nat → float :=
  λ axis, match axis with 0 => x | _ => f_zero end.

(** [1 + 2^-23], the float after 1; [2^-24]. *)
Definition f_one_ulp : float := S754_finite false 8388609 (-23).
Definition f_half_ulp : float := S754_finite false 8388608 (-47).
Definition f_one : float := S754_finite false 8388608 (-23).

(** [3 * 2^62], whose square is a float and whose double's square is not. *)
Definition f_big : float := S754_finite false 12582912 40.

(** The sign passed to the rounding functions only labels the result. *)
Definition with_sign (s : bool) (x : float) : float :=
  match x with
  | S754_zero _ => S754_zero s
  | S754_infinity _ => S754_infinity s
  | S754_nan => S754_nan
  | S754_finite _ m e => S754_finite s m e
  end.

(** ** Data for the concrete runs *)

(** Caller memory with the values 1 to 6 at address 0 and the flags
    1 0 1 0 1 0 at address 8. *)
Definition demo_ram : nat → float :=
  λ addr,
    default f_zero
      ([f_of_Z 1; f_of_Z 2; f_of_Z 3; f_of_Z 4; f_of_Z 5; f_of_Z 6; f_zero; f_zero;
        f_of_Z 1; f_of_Z 0; f_of_Z 1; f_of_Z 0; f_of_Z 1; f_of_Z 0] !! addr).

(** A machine of four motors whose step registers hold leftovers. *)
Definition world_dirty : world := {|
  mb := pool 0 None None None [];
  mm_position := replicate AXES f_zero;
  mr := {| mr_position := [f_of_Z 10; f_of_Z 20; f_of_Z 30; f_of_Z 40; f_zero; f_zero];
           target_steps := replicate 4 (f_of_Z 7);
           position_steps := replicate 4 (f_of_Z 8);
           commanded_steps := replicate 4 (f_of_Z 9);
           following_error := [f_of_Z 1; f_of_Z (-2); f_of_Z 3; f_of_Z (-4)] |};
  corrected_steps := [5; -6; 7; -8]%Z;
  ram := λ _, f_zero;
  calls := [en_set_encoder_steps 0 (f_of_Z 99)]
|}.

(** Kinematics of a machine whose motor [m] drives axis [m], one step per
    unit. *)
Definition demo_ik (position : list float) (motor : nat) : float :=
  default f_zero (position !! motor).

(** Motor 0 on X and then, after a change of configuration, on Y; the other
    motors on no axis. *)
Definition cfg_motor0_on_x (motor : nat) : Z :=
  match motor with 0 => 0%Z | _ => (-1)%Z end.
Definition cfg_motor0_on_y (motor : nat) : Z :=
  match motor with 0 => 1%Z | _ => (-1)%Z end.

(** The limits of two motors. *)
Definition demo_axes : list axis_t :=
  [ {| velocity_max := f_of_Z 10; accel_max := f_of_Z 20; jerk_max := f_of_Z 30 |};
    {| velocity_max := f_of_Z 40; accel_max := f_of_Z 50; jerk_max := f_of_Z 60 |} ].

(** ** The rest of planner.c *)

#[global] Instance moveState_eq_dec : EqDecision moveState.
Proof. solve_decision. Defined.

(** [mr] after [memset (&mr, 0, sizeof (mr))]. *)
Definition mr_zero : mpMoveRuntimeSingleton_t := {|
  mr_position := replicate AXES f_zero;
  target_steps := replicate MOTORS f_zero;
  position_steps := replicate MOTORS f_zero;
  commanded_steps := replicate MOTORS f_zero;
  following_error := replicate MOTORS f_zero
|}.

(** The pool that [mp_init_buffers] leaves: every block zero but for its two
    links, the three cursors on block 0, every block available. *)
Definition mb_fresh : mpBufferPool_t :=
  pool (uint8 (Z.of_nat PLANNER_BUFFER_POOL_SIZE)) (Some 0) (Some 0) (Some 0)
       ((λ j, set_pv (if decide (j = 0) then Some (PLANNER_BUFFER_POOL_SIZE - 1)
                      else Some (j - 1))
                     (set_nx (Some (_bump j)) mpBuf_zero))
          <$> seq 0 PLANNER_BUFFER_POOL_SIZE).



(** Of [mm] only [mm.position] is kept in the world. *)
Definition planner_init : M () :=
  put_mr mr_zero >>
  (λ σ, Some ((), with_mm_position (replicate AXES f_zero) σ)) >>
  mp_init_buffers.

(** [memcpy (bf, bp, sizeof (mpBuf_t))] between the links saved and
    restored. *)
Definition mp_copy_buffer (bf bp : ptr) : M () :=
  let* b := load bf in
  let nx_saved := nx b in
  let pv_saved := pv b in
  let* src := load bp in
  store bf src >>
  update bf (set_nx nx_saved) >>
  update bf (set_pv pv_saved).

(** [mp_get_next_buffer] is a macro of planner.h, which is not among the
    sources: it is a parameter here.  [next_by_link], the block the forward
    link points to, is what the concrete runs take for it. *)
Variable mp_get_next_buffer : ptr → M ptr.

Definition next_by_link (bp : ptr) : M ptr :=
  let* b := load bp in ret (nx b).

(** [follows_link next]: [next] returns the forward link of a block of the
    pool and changes nothing. *)
Definition follows_link (next : ptr → M ptr) : Prop :=
  ∀ σ i b, mb_bf (mb σ) !! i = Some b → next (Some i) σ = Some (nx b, σ).

(** The loop of [mp_get_last_buffer], run for at most [S fuel] blocks; it
    gives nothing when the fuel runs out. *)
Fixpoint last_buffer_loop (fuel : nat) (bf bp : ptr) : M ptr :=
  match bp with
  | None => ret None
  | Some _ =>
      let* b := load bp in
      if decide (nx b = bf) then ret bp
      else
        let* n := load (nx b) in
        if decide (move_state n = MOVE_OFF) then ret bp
        else
          match fuel with
          | 0 => fault
          | S fuel' =>
              let* bp' := mp_get_next_buffer bp in
              last_buffer_loop fuel' bf bp'
          end
  end.

Definition mp_get_last_buffer (fuel : nat) : M ptr :=
  let* bf := mp_get_run_buffer in
  last_buffer_loop fuel bf bf.

(** ** What a reachable pool keeps beyond the counts

    At offset [k] from the run cursor: a committed block behind the first is
    Queued, and a block is [MOVE_NEW] exactly when it is committed. *)
Definition slot_ok (na k : nat) (b : mpBuf_t) : Prop :=
  (0 < k < na → buffer_state b = MP_BUFFER_QUEUED) ∧
  (move_state b = MOVE_NEW ↔ k < na).

Definition slots_ok (bf : list mpBuf_t) (ri na : nat) : Prop :=
  ∀ i b, bf !! i = Some b → slot_ok na (ring_off ri i) b.

(** ** The queue as two lists of handles

    [fifo c l σ]: as [reachable], with the handles of the committed blocks
    [c], oldest first, and of the blocks handed out and not committed [l],
    oldest first, kept from what the operations return. *)
Inductive fifo : list nat → list nat → world → Prop :=
| fifo_init σ0 σ :
    mp_init_buffers σ0 = Some ((), σ) → fifo [] [] σ
| fifo_get_write c l σ i σ' :
    fifo c l σ →
    mp_get_write_buffer σ = Some (Some i, σ') → fifo c (l ++ [i]) σ'
| fifo_get_write_none c l σ σ' :
    fifo c l σ →
    mp_get_write_buffer σ = Some (None, σ') → fifo c l σ'
| fifo_unget c l i σ σ' :
    fifo c (l ++ [i]) σ →
    mp_unget_write_buffer σ = Some ((), σ') → fifo c l σ'
| fifo_commit c l i ty σ σ' :
    fifo c (i :: l) σ →
    mp_commit_write_buffer ty σ = Some ((), σ') → fifo (c ++ [i]) l σ'
| fifo_get_run c l σ p σ' :
    fifo c l σ →
    mp_get_run_buffer σ = Some (p, σ') → fifo c l σ'
| fifo_free_run c l σ e σ' :
    fifo c l σ →
    state_at σ (mb_r (mb σ)) = Some MP_BUFFER_RUNNING →
    mp_free_run_buffer σ = Some (e, σ') → fifo (tail c) l σ'.

(** An executable reading of [fifo]: the operations are run in order and the
    two lists of handles are kept from what the calls return. *)
Definition run_handle_op (op : pool_op) (st : list nat * list nat * world)
    : option (list nat * list nat * world) :=
  let '(c, l, σ) := st in
  match op with
  | op_get_write =>
      match mp_get_write_buffer σ with
      | Some (Some i, σ') => Some (c, l ++ [i], σ')
      | Some (None, σ') => Some (c, l, σ')
      | None => None
      end
  | op_unget_write =>
      match l with
      | [] => None
      | _ :: _ => match mp_unget_write_buffer σ with
                  | Some (_, σ') => Some (c, removelast l, σ')
                  | None => None
                  end
      end
  | op_commit ty =>
      match l with
      | i :: l' => match mp_commit_write_buffer ty σ with
                   | Some (_, σ') => Some (c ++ [i], l', σ')
                   | None => None
                   end
      | [] => None
      end
  | op_get_run =>
      match mp_get_run_buffer σ with
      | Some (_, σ') => Some (c, l, σ')
      | None => None
      end
  | op_free_run =>
      if decide (state_at σ (mb_r (mb σ)) = Some MP_BUFFER_RUNNING)
      then match mp_free_run_buffer σ with
           | Some (_, σ') => Some (tail c, l, σ')
           | None => None
           end
      else None
  end.

Definition run_handles (ops : list pool_op) (σ0 : world)
    : option (list nat * list nat * world) :=
  match mp_init_buffers σ0 with
  | Some (_, σ) => foldl (λ st op, st ≫= run_handle_op op) (Some ([], [], σ)) ops
  | None => None
  end.

(** ** The planner as its callers use it

    [api_reachable σ]: [σ] is reached from [planner_init] by the functions
    the canonical machine and the executor call, each write buffer committed
    by the function that took it. *)
Inductive api_reachable : world → Prop :=
| api_init σ0 σ :
    planner_init σ0 = Some ((), σ) → api_reachable σ
| api_flush σ σ' :
    api_reachable σ → mp_flush_planner σ = Some ((), σ') → api_reachable σ'
| api_dwell σ seconds st σ' :
    api_reachable σ → mp_dwell seconds σ = Some (st, σ') → api_reachable σ'
| api_queue_command σ cm_exec value flag σ' :
    api_reachable σ →
    mp_queue_command cm_exec value flag σ = Some ((), σ') → api_reachable σ'
| api_get_run σ p σ' :
    api_reachable σ → mp_get_run_buffer σ = Some (p, σ') → api_reachable σ'
| api_free_run σ e σ' :
    api_reachable σ →
    state_at σ (mb_r (mb σ)) = Some MP_BUFFER_RUNNING →
    mp_free_run_buffer σ = Some (e, σ') → api_reachable σ'
| api_runtime_command σ st σ' :
    api_reachable σ →
    state_at σ (mb_r (mb σ)) = Some MP_BUFFER_RUNNING →
    mp_runtime_command (mb_r (mb σ)) σ = Some (st, σ') → api_reachable σ'
| api_set_planner_position σ axis position σ' :
    api_reachable σ →
    mp_set_planner_position axis position σ = Some ((), σ') → api_reachable σ'
| api_set_runtime_position σ axis position σ' :
    api_reachable σ →
    mp_set_runtime_position axis position σ = Some ((), σ') → api_reachable σ'
| api_set_steps σ fuel σ' :
    api_reachable σ →
    mp_set_steps_to_runtime_position fuel σ = Some ((), σ') → api_reachable σ'.

(** ** The rest of axis.c

    A [char] is one of the 256 character codes. *)

#[global] Instance char_eq_dec : EqDecision ascii := ascii_dec.

(** ["XYZABCUVW"], the terminating zero left to [strchr]. *)
Definition axis_chars : list ascii :=
  ["X"; "Y"; "Z"; "A"; "B"; "C"; "U"; "V"; "W"]%char.

(** [toupper] of the C locale. *)
Definition toupper (c : ascii) : ascii :=
  if decide (97 ≤ nat_of_ascii c ≤ 122) then ascii_of_nat (nat_of_ascii c - 32) else c.

(** [strchr (s, c)] as the offset of the first [c] in [s], counted from [i];
    the terminating zero is part of the string, so that a zero [c] is found
    at the end. *)
Fixpoint strchr (s : list ascii) (c : ascii) (i : nat) : option nat :=
  match s with
  | [] => if decide (c = zero) then Some i else None
  | x :: s' => if decide (x = c) then Some i else strchr s' c (S i)
  end.

Definition axis_get_char (axis : Z) : ascii :=
  if decide (axis < 0 ∨ Z.of_nat AXES ≤ axis)%Z then "?"%char
  else nth (Z.to_nat axis) axis_chars zero.

Definition axis_get_id (axis : ascii) : Z :=
  match strchr axis_chars (toupper axis) 0 with
  | Some i => Z.of_nat i
  | None => (-1)%Z
  end.

(** [AXIS_VAR_GET] and [AXIS_VAR_SET] at the three fields: [axes[axis].NAME]
    read and written, nothing for an index outside the array. *)
Definition get_velocity_max (axes : list axis_t) (axis : Z) : option float :=
  velocity_max <$> axes_at axes axis.
Definition get_accel_max (axes : list axis_t) (axis : Z) : option float :=
  accel_max <$> axes_at axes axis.
Definition get_jerk_max (axes : list axis_t) (axis : Z) : option float :=
  jerk_max <$> axes_at axes axis.

Definition set_velocity_max (axis : Z) (value : float) (axes : list axis_t)
    : option (list axis_t) :=
  a ← axes_at axes axis;
  Some (<[Z.to_nat axis := {| velocity_max := value; accel_max := accel_max a;
                              jerk_max := jerk_max a |}]> axes).
Definition set_accel_max (axis : Z) (value : float) (axes : list axis_t)
    : option (list axis_t) :=
  a ← axes_at axes axis;
  Some (<[Z.to_nat axis := {| velocity_max := velocity_max a; accel_max := value;
                              jerk_max := jerk_max a |}]> axes).
Definition set_jerk_max (axis : Z) (value : float) (axes : list axis_t)
    : option (list axis_t) :=
  a ← axes_at axes axis;
  Some (<[Z.to_nat axis := {| velocity_max := velocity_max a; accel_max := accel_max a;
                              jerk_max := value |}]> axes).

(** [f_nonneg x]: [x] is [+0], a positive number or [+infinity]. *)
Definition f_nonneg (x : float) : bool :=
  match x with
  | S754_zero false | S754_infinity false | S754_finite false _ _ => true
  | _ => false
  end.

(** * Proofs *)

#[local] Set Default Proof Using "Type".
#[local] Arguments Z.sub : simpl never.
#[local] Arguments Z.add : simpl never.
#[local] Arguments Z.of_nat : simpl never.
#[local] Arguments uint8 : simpl never.
#[local] Arguments Nat.modulo : simpl never.

(** ** Running the monad one call at a time *)

Lemma bind_Some {A B} (m : M A) (k : A → M B) σ a σ' :
  m σ = Some (a, σ') → bind m k σ = k a σ'.
Proof. unfold bind. by intros ->. Qed.

Lemma load_Some σ i b :
  mb_bf (mb σ) !! i = Some b → load (Some i) σ = Some (b, σ).
Proof. unfold load, bind, get_mb, ret. by intros ->. Qed.

Lemma store_Some σ i b :
  i < length (mb_bf (mb σ)) →
  store (Some i) b σ =
  Some ((), with_mb (pool (buffers_available (mb σ)) (mb_w (mb σ)) (mb_q (mb σ))
                          (mb_r (mb σ)) (<[i := b]> (mb_bf (mb σ)))) σ).
Proof.
  intros Hi. unfold store, bind, get_mb, set_bf, put_mb. simpl.
  by rewrite decide_True.
Qed.

Lemma update_Some σ i b f :
  mb_bf (mb σ) !! i = Some b →
  update (Some i) f σ =
  Some ((), with_mb (pool (buffers_available (mb σ)) (mb_w (mb σ)) (mb_q (mb σ))
                          (mb_r (mb σ)) (<[i := f b]> (mb_bf (mb σ)))) σ).
Proof.
  intros Hb. unfold update. erewrite bind_Some by (by apply load_Some).
  apply store_Some. by eapply lookup_lt_Some.
Qed.

Lemma bind_get_mb {B} (k : mpBufferPool_t → M B) σ : bind get_mb k σ = k (mb σ) σ.
Proof. reflexivity. Qed.

(** One step of a block update inside a sequence. *)
Ltac upd :=
  erewrite bind_Some;
  [| apply update_Some; simpl;
     first [ eassumption
           | apply list_lookup_insert_eq; rewrite ?length_insert; eassumption ] ];
  simpl; rewrite ?list_insert_insert_eq.

Ltac ld :=
  erewrite bind_Some;
  [| apply load_Some; simpl;
     first [ eassumption
           | apply list_lookup_insert_eq; rewrite ?length_insert; eassumption ] ];
  simpl.

Lemma mp_clear_buffer_eq σ i b :
  mb_bf (mb σ) !! i = Some b →
  mp_clear_buffer (Some i) σ =
  Some ((), with_mb (pool (buffers_available (mb σ)) (mb_w (mb σ)) (mb_q (mb σ))
                          (mb_r (mb σ)) (<[i := cleared_of b]> (mb_bf (mb σ)))) σ).
Proof.
  intros Hb. assert (Hi : i < length (mb_bf (mb σ))) by (by eapply lookup_lt_Some).
  unfold mp_clear_buffer. ld.
  erewrite bind_Some by (by apply store_Some). simpl.
  upd.
  erewrite update_Some
    by (simpl; apply list_lookup_insert_eq; rewrite ?length_insert; eassumption).
  simpl. by rewrite !list_insert_insert_eq.
Qed.

Lemma mp_get_write_buffer_empty σ i b :
  mb_w (mb σ) = Some i →
  mb_bf (mb σ) !! i = Some b →
  buffer_state b = MP_BUFFER_EMPTY →
  mp_get_write_buffer σ =
  Some (Some i,
        with_mb (pool (uint8 (buffers_available (mb σ) - 1)) (nx b) (mb_q (mb σ))
                      (mb_r (mb σ)) (<[i := loading_of b]> (mb_bf (mb σ)))) σ).
Proof.
  intros Hw Hb He. unfold mp_get_write_buffer.
  assert (Hi : i < length (mb_bf (mb σ))) by (by eapply lookup_lt_Some).
  rewrite bind_get_mb, Hw. ld.
  rewrite decide_True by done.
  erewrite bind_Some by (by apply store_Some). simpl.
  upd. upd. upd.
  rewrite bind_Some with (a := ()) (σ' := with_mb (pool (uint8 (buffers_available (mb σ) - 1)) (Some i) (mb_q (mb σ))
                      (mb_r (mb σ)) (<[i := loading_of b]> (mb_bf (mb σ)))) σ).
  2:{ unfold bind, get_mb, set_buffers_available, put_mb. simpl. by rewrite Hw. }
  erewrite bind_Some.
  2:{ erewrite bind_Some.
      2:{ apply load_Some. simpl. by apply list_lookup_insert_eq. }
      reflexivity. }
  reflexivity.
Qed.

Lemma mp_get_write_buffer_busy σ i b :
  mb_w (mb σ) = Some i →
  mb_bf (mb σ) !! i = Some b →
  buffer_state b ≠ MP_BUFFER_EMPTY →
  mp_get_write_buffer σ = Some (None, σ).
Proof.
  intros Hw Hb He. unfold mp_get_write_buffer.
  rewrite bind_get_mb, Hw. ld. by rewrite decide_False.
Qed.

Ltac open_world σ :=
  destruct σ as [[? ? ? ? ?] ? ? ? ? ?]; simpl in *; subst.

Ltac lookup_tac :=
  simpl;
  first [ eassumption
        | apply list_lookup_insert_eq; rewrite ?length_insert; eassumption ].

(** One call of a sequence, its result given by [tac]. *)
Ltac run1 tac := erewrite bind_Some; [| tac]; simpl.
Ltac run_load := run1 ltac:(rewrite ?bind_get_mb; apply load_Some; lookup_tac).
Ltac run_update := run1 ltac:(rewrite ?bind_get_mb; apply update_Some; lookup_tac).

Lemma mp_unget_write_buffer_eq σ i b j bj :
  mb_w (mb σ) = Some i →
  mb_bf (mb σ) !! i = Some b →
  pv b = Some j →
  mb_bf (mb σ) !! j = Some bj →
  mp_unget_write_buffer σ =
  Some ((), with_mb (pool (uint8 (buffers_available (mb σ) + 1)) (Some j) (mb_q (mb σ))
                          (mb_r (mb σ))
                          (<[j := set_buffer_state MP_BUFFER_EMPTY bj]> (mb_bf (mb σ)))) σ).
Proof.
  intros Hw Hb Hpv Hbj. unfold mp_unget_write_buffer. open_world σ.
  run1 ltac:(rewrite bind_get_mb; simpl; run_load; rewrite Hpv; reflexivity).
  run_update. reflexivity.
Qed.

Lemma mp_commit_write_buffer_eq ty σ i b :
  mb_q (mb σ) = Some i →
  mb_bf (mb σ) !! i = Some b →
  mp_commit_write_buffer ty σ =
  Some ((), with_calls (calls σ ++ [st_request_exec_move])
              (with_mb (pool (buffers_available (mb σ)) (mb_w (mb σ)) (nx b)
                             (mb_r (mb σ)) (<[i := queued_of ty b]> (mb_bf (mb σ)))) σ)).
Proof.
  intros Hq Hb. unfold mp_commit_write_buffer.
  assert (Hi : i < length (mb_bf (mb σ))) by (by eapply lookup_lt_Some).
  open_world σ.
  run_update. run_update. run_update. rewrite !list_insert_insert_eq.
  run1 ltac:(rewrite bind_get_mb; simpl; run_load; reflexivity).
  reflexivity.
Qed.

Lemma mp_get_run_buffer_fresh σ i b :
  mb_r (mb σ) = Some i →
  mb_bf (mb σ) !! i = Some b →
  buffer_state b = MP_BUFFER_QUEUED ∨ buffer_state b = MP_BUFFER_PENDING →
  mp_get_run_buffer σ =
  Some (Some i,
        with_mb (pool (buffers_available (mb σ)) (mb_w (mb σ)) (mb_q (mb σ))
                      (mb_r (mb σ))
                      (<[i := set_buffer_state MP_BUFFER_RUNNING b]> (mb_bf (mb σ)))) σ).
Proof.
  intros Hr Hb Hs. unfold mp_get_run_buffer.
  assert (Hi : i < length (mb_bf (mb σ))) by (by eapply lookup_lt_Some).
  open_world σ.
  run1 ltac:(rewrite bind_get_mb; simpl; run_load; rewrite decide_True by done;
             apply update_Some; lookup_tac).
  rewrite bind_get_mb. simpl. run_load. reflexivity.
Qed.

Lemma mp_get_run_buffer_running σ i b :
  mb_r (mb σ) = Some i →
  mb_bf (mb σ) !! i = Some b →
  buffer_state b = MP_BUFFER_RUNNING →
  mp_get_run_buffer σ = Some (Some i, σ).
Proof.
  intros Hr Hb Hs. unfold mp_get_run_buffer. open_world σ.
  run1 ltac:(rewrite bind_get_mb; simpl; run_load;
             rewrite decide_False by (intros [?|?]; congruence); reflexivity).
  rewrite bind_get_mb. simpl. run_load. by rewrite decide_True.
Qed.

Lemma mp_get_run_buffer_none σ i b :
  mb_r (mb σ) = Some i →
  mb_bf (mb σ) !! i = Some b →
  buffer_state b = MP_BUFFER_EMPTY ∨ buffer_state b = MP_BUFFER_LOADING →
  mp_get_run_buffer σ = Some (None, σ).
Proof.
  intros Hr Hb Hs. unfold mp_get_run_buffer. open_world σ.
  run1 ltac:(rewrite bind_get_mb; simpl; run_load;
             rewrite decide_False by (intros [?|?]; destruct Hs; congruence);
             reflexivity).
  rewrite bind_get_mb. simpl. run_load.
  rewrite decide_False; [done|]. destruct Hs; congruence.
Qed.

Lemma mp_free_run_buffer_eq σ i b j bj :
  mb_r (mb σ) = Some i →
  mb_bf (mb σ) !! i = Some b →
  nx b = Some j →
  <[i := cleared_of b]> (mb_bf (mb σ)) !! j = Some bj →
  mp_free_run_buffer σ =
  Some (bool_decide (mb_w (mb σ) = Some j),
        with_mb (pool (uint8 (buffers_available (mb σ) + 1)) (mb_w (mb σ)) (mb_q (mb σ))
                      (Some j)
                      (if decide (buffer_state bj = MP_BUFFER_QUEUED)
                       then <[j := set_buffer_state MP_BUFFER_PENDING bj]>
                              (<[i := cleared_of b]> (mb_bf (mb σ)))
                       else <[i := cleared_of b]> (mb_bf (mb σ)))) σ).
Proof.
  intros Hr Hb Hnx Hbj. unfold mp_free_run_buffer.
  assert (Hi : i < length (mb_bf (mb σ))) by (by eapply lookup_lt_Some).
  open_world σ.
  run1 ltac:(rewrite bind_get_mb; simpl; by apply mp_clear_buffer_eq).
  run1 ltac:(rewrite bind_get_mb; simpl; run_load; rewrite Hnx; reflexivity).
  destruct (decide (buffer_state bj = MP_BUFFER_QUEUED)) as [Hq|Hq].
  - run1 ltac:(rewrite bind_get_mb; simpl; run_load; rewrite decide_True by done;
               apply update_Some; lookup_tac).
    reflexivity.
  - run1 ltac:(rewrite bind_get_mb; simpl; run_load; rewrite decide_False by done;
               reflexivity).
    reflexivity.
Qed.

(** ** Counting blocks in use *)

Lemma in_use_iff b : in_use b ↔ buffer_state b ≠ MP_BUFFER_EMPTY.
Proof.
  unfold in_use. destruct (buffer_state b); split; intros H; try done;
    try (destruct H as [?|[?|[?|?]]]; done); auto.
Qed.

Lemma count_insert (l : list mpBuf_t) i b b' :
  l !! i = Some b →
  length (filter in_use (<[i := b']> l)) + (if decide (in_use b) then 1 else 0) =
  length (filter in_use l) + (if decide (in_use b') then 1 else 0).
Proof.
  revert i. induction l as [|x l IH]; intros [|i] Hl; simplify_eq/=.
  - rewrite !filter_cons. repeat case_decide; simpl; lia.
  - specialize (IH _ Hl). rewrite !filter_cons.
    destruct (decide (in_use x)); simpl; lia.
Qed.

Lemma count_none (l : list mpBuf_t) :
  (∀ i b, l !! i = Some b → buffer_state b = MP_BUFFER_EMPTY) →
  length (filter in_use l) = 0.
Proof.
  induction l as [|x l IH]; intros H; [done|].
  rewrite filter_cons. rewrite decide_False.
  - apply IH. intros i b Hb. apply (H (S i)). done.
  - rewrite in_use_iff. rewrite (H 0 x); [|done]. intros Hx. by apply Hx.
Qed.

(** ** Ring arithmetic *)

Ltac ring_arith :=
  unfold ring_idx, ring_off, ring_pred, _bump, state_ok, committed in *;
  repeat case_decide; try lia; try congruence; try assumption;
  repeat match goal with H : _ ∨ _ |- _ => destruct H end;
  try congruence; auto.

Lemma links_ok_insert bf i b b' :
  links_ok bf → bf !! i = Some b → nx b' = nx b → pv b' = pv b →
  links_ok (<[i := b']> bf).
Proof.
  intros Hl Hb Hnx Hpv j bj Hj.
  destruct (decide (i = j)) as [->|Hne].
  - rewrite list_lookup_insert_eq in Hj by (by eapply lookup_lt_Some).
    simplify_eq. rewrite Hnx, Hpv. by apply Hl.
  - rewrite list_lookup_insert_ne in Hj by done. by apply Hl.
Qed.

Lemma states_ok_insert bf ri na nl ri' na' nl' i b' :
  states_ok bf ri na nl →
  i < length bf →
  (∀ j s, j < length bf → j ≠ i →
          state_ok na nl (ring_off ri j) s → state_ok na' nl' (ring_off ri' j) s) →
  state_ok na' nl' (ring_off ri' i) (buffer_state b') →
  states_ok (<[i := b']> bf) ri' na' nl'.
Proof.
  intros Hs Hi Hmove Hnew j bj Hj.
  destruct (decide (i = j)) as [->|Hne].
  - rewrite list_lookup_insert_eq in Hj by done. by simplify_eq.
  - rewrite list_lookup_insert_ne in Hj by done.
    apply Hmove; [by eapply lookup_lt_Some | done | by apply Hs].
Qed.

(** Facts of ring arithmetic, with [n] standing for the pool size. *)
Section RingArith.
#[local] Abbreviation n := PLANNER_BUFFER_POOL_SIZE.

Lemma ring_idx_lt ri k : ri < n → k ≤ n → ring_idx ri k < n.
Proof. intros. ring_arith. Qed.

Lemma ring_off_lt ri j : ri < n → j < n → ring_off ri j < n.
Proof. intros. ring_arith. Qed.

Lemma ring_off_idx ri k : ri < n → k < n → ring_off ri (ring_idx ri k) = k.
Proof. intros. ring_arith. Qed.

Lemma ring_idx_off ri j : ri < n → j < n → ring_idx ri (ring_off ri j) = j.
Proof. intros. ring_arith. Qed.

Lemma ring_idx_0 ri : ri < n → ring_idx ri 0 = ri.
Proof. intros. ring_arith. Qed.

Lemma ring_idx_full ri : ri < n → ring_idx ri n = ri.
Proof. intros. ring_arith. Qed.

Lemma bump_idx ri k : ri < n → k < n → _bump (ring_idx ri k) = ring_idx ri (S k).
Proof. intros. ring_arith. Qed.

Lemma pred_idx ri k : ri < n → k < n → ring_pred (ring_idx ri (S k)) = ring_idx ri k.
Proof. intros. ring_arith. Qed.

Lemma bump_lt i : 0 < n → _bump i < n.
Proof. intros. ring_arith. Qed.

Lemma ring_off_bump ri j :
  ri < n → j < n → j ≠ ri → S (ring_off (_bump ri) j) = ring_off ri j.
Proof. intros. ring_arith. Qed.

Lemma ring_off_bump_self ri : ri < n → ring_off (_bump ri) ri = n - 1.
Proof. intros. ring_arith. Qed.

Lemma ring_idx_bump ri k : ri < n → k < n → ring_idx (_bump ri) k = ring_idx ri (S k).
Proof. intros. ring_arith. Qed.

Lemma ring_off_self ri : ring_off ri ri = 0.
Proof. ring_arith. Qed.

Lemma ring_idx_eq_start ri k : ri < n → k ≤ n → ring_idx ri k = ri → k = 0 ∨ k = n.
Proof. intros. ring_arith. Qed.
End RingArith.

Lemma state_ok_get na nl k s :
  k ≠ na + nl → state_ok na nl k s → state_ok na (S nl) k s.
Proof. intros. ring_arith. Qed.

Lemma state_ok_unget na nl k s :
  k ≠ na + nl → state_ok na (S nl) k s → state_ok na nl k s.
Proof. intros. ring_arith. Qed.

Lemma state_ok_commit na nl k s :
  k ≠ na → state_ok na (S nl) k s → state_ok (S na) nl k s.
Proof. intros. ring_arith. Qed.

Lemma state_ok_free na nl k s :
  state_ok (S na) nl (S k) s → state_ok na nl k s.
Proof. intros. ring_arith. Qed.

Lemma state_ok_committed na nl k s s' :
  committed s → committed s' → state_ok na nl k s → state_ok na nl k s'.
Proof. intros. ring_arith. Qed.

Lemma state_ok_empty na nl k : na + nl ≤ k → state_ok na nl k MP_BUFFER_EMPTY.
Proof. intros. ring_arith. Qed.

Lemma state_ok_loading na nl k : na ≤ k < na + nl → state_ok na nl k MP_BUFFER_LOADING.
Proof. intros. ring_arith. Qed.

Lemma state_ok_queued na nl k : k < na → state_ok na nl k MP_BUFFER_QUEUED.
Proof. intros. ring_arith. Qed.

Lemma state_ok_inv_empty na nl k : state_ok na nl k MP_BUFFER_EMPTY → na + nl ≤ k.
Proof. intros. ring_arith. Qed.

Lemma state_ok_inv_loading na nl k : state_ok na nl k MP_BUFFER_LOADING → na ≤ k < na + nl.
Proof. intros. ring_arith. Qed.

Lemma state_ok_inv_committed na nl k s : committed s → state_ok na nl k s → k < na.
Proof. intros. ring_arith. Qed.

Lemma state_ok_cases na nl k s :
  state_ok na nl k s →
  (k < na ∧ committed s) ∨ (na ≤ k < na + nl ∧ s = MP_BUFFER_LOADING)
  ∨ (na + nl ≤ k ∧ s = MP_BUFFER_EMPTY).
Proof. intros. unfold state_ok in *. repeat case_decide; [left|right;left|right;right]; split; (lia || done). Qed.

(** ** Each queue operation keeps the ring layout *)

Lemma ring_inv_block σ ri na nl i :
  ring_inv σ ri na nl → i < PLANNER_BUFFER_POOL_SIZE →
  ∃ b, mb_bf (mb σ) !! i = Some b ∧ nx b = Some (_bump i) ∧ pv b = Some (ring_pred i)
       ∧ state_ok na nl (ring_off ri i) (buffer_state b).
Proof.
  intros [] Hi.
  destruct (lookup_lt_is_Some_2 (mb_bf (mb σ)) i) as [b Hb]; [lia|].
  exists b. split; [done|]. destruct (inv_links0 _ _ Hb). split_and!; try done.
  by apply inv_states0.
Qed.

Lemma uint8_small z : (0 ≤ z < 256)%Z → uint8 z = z.
Proof. intros. unfold uint8. by apply Z.mod_small. Qed.

(** A block other than the one at ring position [k] sits at another offset. *)
Lemma other_offset ri k j :
  ri < PLANNER_BUFFER_POOL_SIZE → j < PLANNER_BUFFER_POOL_SIZE →
  j ≠ ring_idx ri k → ring_off ri j ≠ k.
Proof. intros Hri Hj Hne <-. by rewrite ring_idx_off in Hne. Qed.

Lemma get_write_ok σ ri na nl :
  ring_inv σ ri na nl → na + nl < PLANNER_BUFFER_POOL_SIZE →
  ∃ b σ',
    mb_bf (mb σ) !! ring_idx ri (na + nl) = Some b ∧
    buffer_state b = MP_BUFFER_EMPTY ∧
    mp_get_write_buffer σ = Some (Some (ring_idx ri (na + nl)), σ') ∧
    σ' = with_mb (pool (buffers_available (mb σ) - 1) (Some (ring_idx ri (na + S nl)))
                       (mb_q (mb σ)) (mb_r (mb σ))
                       (<[ring_idx ri (na + nl) := loading_of b]> (mb_bf (mb σ)))) σ ∧
    ring_inv σ' ri na (S nl).
Proof.
  intros Hinv Hlt. pose proof Hinv as [].
  set (i := ring_idx ri (na + nl)).
  assert (Hi : i < PLANNER_BUFFER_POOL_SIZE) by (apply ring_idx_lt; lia).
  destruct (ring_inv_block _ _ _ _ i Hinv Hi) as (b & Hb & Hnx & Hpv & Hst).
  assert (He : buffer_state b = MP_BUFFER_EMPTY).
  { subst i. rewrite ring_off_idx in Hst by lia.
    destruct (state_ok_cases _ _ _ _ Hst) as [[]|[[]|[]]]; (lia || done). }
  assert (Hav : uint8 (buffers_available (mb σ) - 1) = (buffers_available (mb σ) - 1)%Z)
    by (apply uint8_small; lia).
  assert (Hnx' : nx b = Some (ring_idx ri (na + S nl))).
  { rewrite Hnx. f_equal. subst i. rewrite bump_idx by lia. f_equal. lia. }
  exists b. eexists. split; [done|]. split; [done|]. split.
  { rewrite (mp_get_write_buffer_empty σ i b inv_w0 Hb He), Hav, Hnx'. reflexivity. }
  split; [reflexivity|].
  constructor; simpl; try done.
  - by rewrite length_insert.
  - lia.
  - eapply links_ok_insert; eauto.
  - eapply states_ok_insert; eauto.
    + lia.
    + intros j s Hj Hne. rewrite inv_len0 in Hj.
      apply state_ok_get. by apply other_offset.
    + simpl. subst i. rewrite ring_off_idx by lia. apply state_ok_loading. lia.
  - lia.
  - unfold count_in_use in *. simpl.
    pose proof (count_insert _ _ _ (loading_of b) Hb) as Hc.
    rewrite decide_False in Hc by (rewrite in_use_iff; rewrite He; intros Hx; by apply Hx).
    rewrite decide_True in Hc by (rewrite in_use_iff; simpl; congruence). lia.
Qed.

Lemma get_write_full σ ri na nl :
  ring_inv σ ri na nl → na + nl = PLANNER_BUFFER_POOL_SIZE →
  mp_get_write_buffer σ = Some (None, σ).
Proof.
  intros Hinv Hfull. pose proof Hinv as [].
  destruct (ring_inv_block _ _ _ _ ri Hinv) as (b & Hb & _ & _ & Hst); [done|].
  rewrite ring_off_self in Hst.
  eapply (mp_get_write_buffer_busy σ ri b); [|done|].
  - rewrite inv_w0, Hfull. f_equal. by apply ring_idx_full.
  - intros He. rewrite He in Hst. apply state_ok_inv_empty in Hst. lia.
Qed.

Lemma unget_ok σ ri na nl :
  ring_inv σ ri na (S nl) →
  ∃ σ', mp_unget_write_buffer σ = Some ((), σ') ∧ ring_inv σ' ri na nl ∧
        calls σ' = calls σ ∧
        (∀ i, i ≠ ring_idx ri (na + nl) → mb_bf (mb σ') !! i = mb_bf (mb σ) !! i).
Proof.
  intros Hinv. pose proof Hinv as [].
  set (i := ring_idx ri (na + S nl)). set (j := ring_idx ri (na + nl)).
  assert (Hi : i < PLANNER_BUFFER_POOL_SIZE) by (apply ring_idx_lt; lia).
  assert (Hj : j < PLANNER_BUFFER_POOL_SIZE) by (apply ring_idx_lt; lia).
  destruct (ring_inv_block _ _ _ _ i Hinv Hi) as (b & Hb & _ & Hpv & _).
  destruct (ring_inv_block _ _ _ _ j Hinv Hj) as (bj & Hbj & Hnxj & Hpvj & Hstj).
  assert (Hpv' : pv b = Some j).
  { rewrite Hpv. f_equal. subst i j. replace (na + S nl) with (S (na + nl)) by lia.
    apply pred_idx; lia. }
  assert (Hl : buffer_state bj = MP_BUFFER_LOADING).
  { subst j. rewrite ring_off_idx in Hstj by lia.
    destruct (state_ok_cases _ _ _ _ Hstj) as [[]|[[]|[]]]; (lia || done). }
  eexists. split; [by eapply mp_unget_write_buffer_eq|]. split;
    [|split; [done|]; intros k Hk; simpl; by apply list_lookup_insert_ne].
  constructor; simpl; try done.
  - by rewrite length_insert.
  - lia.
  - eapply links_ok_insert; eauto.
  - eapply states_ok_insert; eauto.
    + lia.
    + intros k s Hk Hne. rewrite inv_len0 in Hk.
      apply state_ok_unget. by apply other_offset.
    + simpl. subst j. rewrite ring_off_idx by lia. apply state_ok_empty. lia.
  - rewrite inv_avail0. rewrite uint8_small by lia. lia.
  - unfold count_in_use in *. simpl.
    pose proof (count_insert _ _ _ (set_buffer_state MP_BUFFER_EMPTY bj) Hbj) as Hc.
    rewrite decide_True in Hc by (rewrite in_use_iff; rewrite Hl; congruence).
    rewrite decide_False in Hc by (rewrite in_use_iff; simpl; intros Hx; by apply Hx). lia.
Qed.

Lemma commit_ok ty σ ri na nl :
  ring_inv σ ri na (S nl) →
  ∃ σ', mp_commit_write_buffer ty σ = Some ((), σ') ∧ ring_inv σ' ri (S na) nl.
Proof.
  intros Hinv. pose proof Hinv as [].
  set (i := ring_idx ri na).
  assert (Hi : i < PLANNER_BUFFER_POOL_SIZE) by (apply ring_idx_lt; lia).
  destruct (ring_inv_block _ _ _ _ i Hinv Hi) as (b & Hb & Hnx & Hpv & Hst).
  assert (Hl : buffer_state b = MP_BUFFER_LOADING).
  { subst i. rewrite ring_off_idx in Hst by lia.
    destruct (state_ok_cases _ _ _ _ Hst) as [[]|[[]|[]]]; (lia || done). }
  eexists. split; [by eapply mp_commit_write_buffer_eq|].
  constructor; simpl; try done.
  - by rewrite length_insert.
  - lia.
  - rewrite Hnx. f_equal. subst i. apply bump_idx; lia.
  - rewrite inv_w0. f_equal. f_equal. lia.
  - eapply links_ok_insert; eauto.
  - eapply states_ok_insert; eauto.
    + lia.
    + intros k s Hk Hne. rewrite inv_len0 in Hk.
      apply state_ok_commit. by apply other_offset.
    + simpl. subst i. rewrite ring_off_idx by lia. apply state_ok_queued. lia.
  - rewrite inv_avail0. f_equal. lia.
  - unfold count_in_use in *. simpl.
    pose proof (count_insert _ _ _ (queued_of ty b) Hb) as Hc.
    rewrite decide_True in Hc by (rewrite in_use_iff; rewrite Hl; congruence).
    rewrite decide_True in Hc by (rewrite in_use_iff; simpl; congruence).
    subst i. lia.
Qed.

(** Moving a committed block to another committed state changes neither the
    layout nor the count. *)
Lemma promote_ok bf ri na nl j bj s' :
  links_ok bf → states_ok bf ri na nl → bf !! j = Some bj →
  committed (buffer_state bj) → committed s' →
  links_ok (<[j := set_buffer_state s' bj]> bf) ∧
  states_ok (<[j := set_buffer_state s' bj]> bf) ri na nl ∧
  length (filter in_use (<[j := set_buffer_state s' bj]> bf)) = length (filter in_use bf).
Proof.
  intros Hl Hs Hbj Hc Hc'. split_and!.
  - by eapply links_ok_insert.
  - eapply states_ok_insert; eauto.
    + by eapply lookup_lt_Some.
    + simpl. eapply state_ok_committed; [exact Hc | exact Hc' | by apply Hs].
  - pose proof (count_insert _ _ _ (set_buffer_state s' bj) Hbj) as Hn.
    rewrite decide_True in Hn
      by (rewrite in_use_iff; destruct Hc as [->|[->| ->]]; congruence).
    rewrite decide_True in Hn
      by (rewrite in_use_iff; simpl; destruct Hc' as [->|[->| ->]]; congruence).
    lia.
Qed.

Lemma get_run_ok σ ri na nl :
  ring_inv σ ri na nl →
  ∃ σ', mp_get_run_buffer σ = Some (if decide (0 < na) then Some ri else None, σ') ∧
        ring_inv σ' ri na nl ∧
        (0 < na → state_at σ' (Some ri) = Some MP_BUFFER_RUNNING) ∧
        (na = 0 → σ' = σ).
Proof.
  intros Hinv. pose proof Hinv as [].
  destruct (ring_inv_block _ _ _ _ ri Hinv) as (b & Hb & Hnx & Hpv & Hst); [done|].
  rewrite ring_off_self in Hst.
  destruct (state_ok_cases _ _ _ _ Hst) as [[Hna Hc]|[[Hna Hs]|[Hna Hs]]].
  - rewrite decide_True by done.
    destruct (decide (buffer_state b = MP_BUFFER_RUNNING)) as [Hr|Hr].
    + exists σ. split_and!; [by eapply mp_get_run_buffer_running|done| |done].
      intros _. unfold state_at, block_at. simpl. by rewrite Hb, <- Hr.
    + assert (Hqp : buffer_state b = MP_BUFFER_QUEUED ∨ buffer_state b = MP_BUFFER_PENDING)
        by (destruct Hc as [?|[?|?]]; [by left|by right|done]).
      eexists. split; [by eapply mp_get_run_buffer_fresh|].
      destruct (promote_ok _ ri na nl ri b MP_BUFFER_RUNNING inv_links0 inv_states0 Hb Hc)
        as (Hl' & Hs' & Hn'); [right; by right|].
      split_and!.
      * constructor; simpl; try done. by rewrite length_insert.
        unfold count_in_use in *. simpl. lia.
      * intros _. unfold state_at, block_at. simpl.
        rewrite list_lookup_insert_eq by (by eapply lookup_lt_Some). done.
      * lia.
  - rewrite decide_False by lia.
    exists σ. split_and!; [eapply mp_get_run_buffer_none; eauto|done|lia|done].
  - rewrite decide_False by lia.
    exists σ. split_and!; [eapply mp_get_run_buffer_none; eauto|done|lia|done].
Qed.

Lemma write_meets_run ri m :
  ri < PLANNER_BUFFER_POOL_SIZE → S m ≤ PLANNER_BUFFER_POOL_SIZE →
  ring_idx ri (S m) = _bump ri ↔ m = 0.
Proof. intros. split; intros; ring_arith. Qed.

Lemma free_run_ok σ ri na nl :
  ring_inv σ ri na nl →
  state_at σ (mb_r (mb σ)) = Some MP_BUFFER_RUNNING →
  ∃ na' σ', na = S na' ∧
    mp_free_run_buffer σ = Some (bool_decide (na' + nl = 0), σ') ∧
    ring_inv σ' (_bump ri) na' nl ∧
    calls σ' = calls σ ∧
    (∀ bq, mb_bf (mb σ) !! _bump ri = Some bq → buffer_state bq = MP_BUFFER_QUEUED →
           0 < na' ∧ state_at σ' (Some (_bump ri)) = Some MP_BUFFER_PENDING).
Proof.
  intros Hinv Hrun. pose proof Hinv as [].
  destruct (ring_inv_block _ _ _ _ ri Hinv) as (b & Hb & Hnx & Hpv & Hst); [done|].
  rewrite ring_off_self in Hst.
  unfold state_at, block_at in Hrun. rewrite inv_r0 in Hrun. simpl in Hrun.
  rewrite Hb in Hrun. simpl in Hrun. injection Hrun as Hrun.
  assert (Hna : 0 < na).
  { eapply state_ok_inv_committed; [|exact Hst]. right; by right. }
  destruct na as [|na']; [lia|]. exists na'.
  set (bf1 := <[ri := cleared_of b]> (mb_bf (mb σ))).
  set (j := _bump ri).
  assert (Hj : j < PLANNER_BUFFER_POOL_SIZE) by (apply bump_lt; lia).
  assert (Hlen1 : length bf1 = PLANNER_BUFFER_POOL_SIZE) by (subst bf1; by rewrite length_insert).
  destruct (lookup_lt_is_Some_2 bf1 j) as [bj Hbj]; [lia|].
  assert (Hl1 : links_ok bf1) by (by eapply links_ok_insert).
  assert (Hs1 : states_ok bf1 j na' nl).
  { eapply states_ok_insert; eauto.
    - lia.
    - intros k s Hk Hne Hs. rewrite inv_len0 in Hk. apply state_ok_free.
      subst j. by rewrite ring_off_bump.
    - simpl. subst j. rewrite ring_off_bump_self by done. apply state_ok_empty. lia. }
  assert (Hn1 : S (length (filter in_use bf1)) = length (filter in_use (mb_bf (mb σ)))).
  { pose proof (count_insert _ _ _ (cleared_of b) Hb) as Hn. fold bf1 in Hn.
    rewrite decide_True in Hn by (rewrite in_use_iff; rewrite Hrun; congruence).
    rewrite decide_False in Hn by (rewrite in_use_iff; simpl; intros Hx; by apply Hx). lia. }
  assert (Hret : bool_decide (mb_w (mb σ) = Some j) = bool_decide (na' + nl = 0)).
  { rewrite inv_w0. apply bool_decide_ext. subst j.
    replace (S na' + nl) with (S (na' + nl)) by lia.
    rewrite <- (write_meets_run ri (na' + nl)) by lia. split; congruence. }
  eexists. split; [done|]. split.
  { rewrite <- Hret. by eapply mp_free_run_buffer_eq. }
  assert (Hoffj : ring_off j j = 0) by apply ring_off_self.
  split; [|split; [done|]].
  2:{ intros bq Hbq Hq. fold j in Hbq.
      assert (Hne : ri ≠ j) by (intros Heq; rewrite <- Heq in Hbq; congruence).
      assert (bj = bq) as ->.
      { subst bf1. rewrite list_lookup_insert_ne in Hbj by done. congruence. }
      split.
      - pose proof (Hs1 j bq Hbj) as Hsj. rewrite Hoffj in Hsj.
        eapply state_ok_inv_committed; [|exact Hsj]. by left.
      - rewrite decide_True by done. unfold state_at, block_at. simpl.
        rewrite list_lookup_insert_eq by (rewrite length_insert; lia). done. }
  destruct (decide (buffer_state bj = MP_BUFFER_QUEUED)) as [Hq|Hq].
  - assert (Hcj : committed (buffer_state bj)) by (by left).
    destruct (promote_ok _ j na' nl j bj MP_BUFFER_PENDING Hl1 Hs1 Hbj Hcj)
      as (Hl' & Hs' & Hn'); [right; by left|].
    constructor; simpl; try done.
    + by rewrite length_insert.
    + lia.
    + rewrite inv_q0. f_equal. subst j. symmetry. apply ring_idx_bump; lia.
    + rewrite inv_w0. f_equal. subst j. symmetry. apply (ring_idx_bump ri (na' + nl)); lia.
    + rewrite inv_avail0, uint8_small by lia. lia.
    + unfold count_in_use in *. simpl. fold bf1. lia.
  - constructor; simpl; try done.
    + lia.
    + rewrite inv_q0. f_equal. subst j. symmetry. apply ring_idx_bump; lia.
    + rewrite inv_w0. f_equal. subst j. symmetry. apply (ring_idx_bump ri (na' + nl)); lia.
    + rewrite inv_avail0, uint8_small by lia. lia.
    + unfold count_in_use in *. simpl. fold bf1. lia.
Qed.

(** ** Initialisation *)

Lemma with_mb_same σ :
  with_mb (pool (buffers_available (mb σ)) (mb_w (mb σ)) (mb_q (mb σ)) (mb_r (mb σ))
                (mb_bf (mb σ))) σ = σ.
Proof. by destruct σ as [[] ? ? ? ? ?]. Qed.

Lemma init_ring_spec n : ∀ i p σ,
  i + n ≤ length (mb_bf (mb σ)) →
  ∃ bf',
    init_ring i n p σ =
      Some ((), with_mb (pool (buffers_available (mb σ)) (mb_w (mb σ)) (mb_q (mb σ))
                              (mb_r (mb σ)) bf') σ) ∧
    length bf' = length (mb_bf (mb σ)) ∧
    (∀ j, j < i ∨ i + n ≤ j → bf' !! j = mb_bf (mb σ) !! j) ∧
    (∀ j b, i ≤ j < i + n → mb_bf (mb σ) !! j = Some b →
       bf' !! j = Some (set_pv (if decide (j = i) then p else Some (j - 1))
                               (set_nx (Some (_bump j)) b))).
Proof.
  induction n as [|n IH]; intros i p σ Hlen.
  - exists (mb_bf (mb σ)). split_and!; try done.
    + simpl. by rewrite with_mb_same.
    + intros; lia.
  - destruct (lookup_lt_is_Some_2 (mb_bf (mb σ)) i) as [bi Hbi]; [lia|].
    assert (Hi : i < length (mb_bf (mb σ))) by lia.
    open_world σ.
    run_update. run_update. rewrite list_insert_insert_eq.
    edestruct (IH (S i) (Some i)) as (bf' & -> & Hl' & Hout & Hin);
      [|exists bf'; split; [reflexivity|]].
    { simpl. rewrite length_insert. lia. }
    simpl in *. rewrite length_insert in Hl'. split_and!; [done| |].
    + intros j Hj. rewrite Hout by lia. apply list_lookup_insert_ne. lia.
    + intros j b Hj Hb. destruct (decide (j = i)) as [->|Hne].
      * rewrite Hout by lia. rewrite list_lookup_insert_eq by done. congruence.
      * rewrite (Hin j b) by (by (lia || rewrite list_lookup_insert_ne by done)).
        do 2 f_equal. case_decide; [f_equal; lia | done].
Qed.

Lemma init_ok σ0 :
  0 < PLANNER_BUFFER_POOL_SIZE ≤ 255 →
  ∃ σ, mp_init_buffers σ0 = Some ((), σ) ∧ ring_inv σ 0 0 0 ∧
       calls σ = calls σ0.
Proof.
  intros Hn. unfold mp_init_buffers.
  destruct σ0 as [m0 ? ? ? ? ?]. simpl.
  run1 ltac:(reflexivity). run1 ltac:(reflexivity). run1 ltac:(reflexivity).
  run1 ltac:(reflexivity).
  match goal with |- ∃ _, bind (init_ring _ _ ?p) _ ?σ1 = _ ∧ _ =>
    destruct (init_ring_spec PLANNER_BUFFER_POOL_SIZE 0 p σ1) as (bf' & Heq & Hl & _ & Hin)
  end.
  { simpl. by rewrite length_replicate. }
  run1 ltac:(exact Heq). clear Heq.
  eexists; split; [reflexivity|].
  simpl in *. rewrite length_replicate in Hl.
  assert (Hblk : ∀ j b, bf' !! j = Some b →
            b = set_pv (Some (ring_pred j)) (set_nx (Some (_bump j)) mpBuf_zero)).
  { intros j b Hb. assert (j < PLANNER_BUFFER_POOL_SIZE) by (rewrite <- Hl; by eapply lookup_lt_Some).
    rewrite (Hin j mpBuf_zero) in Hb; [|lia|by apply lookup_replicate_2].
    simplify_eq. do 2 f_equal. unfold ring_pred. repeat case_decide; (done || lia). }
  split; [|done]. constructor; simpl; try done; try lia.
  - f_equal. ring_arith.
  - f_equal. ring_arith.
  - intros j b Hb. by rewrite (Hblk j b Hb).
  - intros j b Hb. rewrite (Hblk j b Hb). simpl. apply state_ok_empty. lia.
  - rewrite uint8_small by lia. lia.
  - unfold count_in_use. simpl. apply count_none.
    intros j b Hb. by rewrite (Hblk j b Hb).
Qed.

(** ** Reachable states have the ring layout *)

Lemma reachable_inv o σ :
  0 < PLANNER_BUFFER_POOL_SIZE ≤ 255 →
  reachable o σ → ∃ ri na, ring_inv σ ri na o.
Proof.
  intros Hn Hr. induction Hr as
    [σ0 σ Hi | o σ i σ' _ IH Hop | o σ σ' _ IH Hop | o σ σ' _ IH Hop
    | o ty σ σ' _ IH Hop | o σ p σ' _ IH Hop | o σ e σ' _ IH Hst Hop].
  - destruct (init_ok σ0 Hn) as (σ1 & H1 & Hinv & _).
    exists 0, 0. congruence.
  - destruct IH as (ri & na & Hinv). exists ri, na.
    destruct (decide (na + o < PLANNER_BUFFER_POOL_SIZE)) as [Hlt|Hge].
    + destruct (get_write_ok _ _ _ _ Hinv Hlt) as (b & σ1 & _ & _ & H1 & _ & Hinv').
      congruence.
    + pose proof (inv_sum _ _ _ _ Hinv).
      rewrite (get_write_full _ _ _ _ Hinv) in Hop by lia. congruence.
  - destruct IH as (ri & na & Hinv). exists ri, na.
    destruct (decide (na + o < PLANNER_BUFFER_POOL_SIZE)) as [Hlt|Hge].
    + destruct (get_write_ok _ _ _ _ Hinv Hlt) as (b & σ1 & _ & _ & H1 & _ & Hinv').
      congruence.
    + pose proof (inv_sum _ _ _ _ Hinv).
      rewrite (get_write_full _ _ _ _ Hinv) in Hop by lia. congruence.
  - destruct IH as (ri & na & Hinv). exists ri, na.
    destruct (unget_ok _ _ _ _ Hinv) as (σ1 & H1 & Hinv' & _). congruence.
  - destruct IH as (ri & na & Hinv). exists ri, (S na).
    destruct (commit_ok ty _ _ _ _ Hinv) as (σ1 & H1 & Hinv'). congruence.
  - destruct IH as (ri & na & Hinv). exists ri, na.
    destruct (get_run_ok _ _ _ _ Hinv) as (σ1 & H1 & Hinv' & _). congruence.
  - destruct IH as (ri & na & Hinv).
    destruct (free_run_ok _ _ _ _ Hinv Hst) as (na' & σ1 & -> & H1 & Hinv' & _).
    exists (_bump ri), na'. congruence.
Qed.

Lemma run_op_reachable op o1 σ1 o2 σ2 :
  reachable o1 σ1 → run_op op (o1, σ1) = Some (o2, σ2) → reachable o2 σ2.
Proof.
  intros Hr Hop. destruct op; simpl in Hop.
  - destruct (mp_get_write_buffer σ1) as [[[i|] σ']|] eqn:Hg; simplify_eq.
    + by eapply reach_get_write.
    + by eapply reach_get_write_none.
  - destruct o1; [done|].
    destruct (mp_unget_write_buffer σ1) as [[[] σ']|] eqn:Hg; simplify_eq.
    by eapply reach_unget.
  - destruct o1; [done|].
    destruct (mp_commit_write_buffer ty σ1) as [[[] σ']|] eqn:Hg; simplify_eq.
    by eapply reach_commit.
  - destruct (mp_get_run_buffer σ1) as [[p σ']|] eqn:Hg; simplify_eq.
    by eapply reach_get_run.
  - case_decide; [|done].
    destruct (mp_free_run_buffer σ1) as [[e σ']|] eqn:Hg; simplify_eq.
    by eapply reach_free_run.
Qed.

Lemma run_ops_reachable ops σ0 o σ :
  run_ops ops σ0 = Some (o, σ) → reachable o σ.
Proof.
  unfold run_ops. destruct (mp_init_buffers σ0) as [[[] σi]|] eqn:Hi; [|done].
  assert (Hc : ∀ o1 σ1, Some (0, σi) = Some (o1, σ1) → reachable o1 σ1).
  { intros o1 σ1 [= <- <-]. by eapply reach_init. }
  revert Hc. generalize (Some (0, σi)). clear Hi.
  induction ops as [|op ops IH]; intros c Hc Hrun.
  - by apply Hc.
  - apply (IH (c ≫= run_op op)); [|exact Hrun].
    intros o2 σ2 Hop. destruct c as [[o1 σ1]|]; [|done].
    eapply run_op_reachable; [by apply Hc | exact Hop].
Qed.

(** In a reachable pool every queue operation returns when it is called
    within its precondition: no pointer of the ring is null or dangling. *)
Lemma reachable_total o σ :
  0 < PLANNER_BUFFER_POOL_SIZE ≤ 255 →
  reachable o σ →
  (∃ p σ', mp_get_write_buffer σ = Some (p, σ')) ∧
  (0 < o → ∃ σ', mp_unget_write_buffer σ = Some ((), σ')) ∧
  (0 < o → ∀ ty, ∃ σ', mp_commit_write_buffer ty σ = Some ((), σ')) ∧
  (∃ p σ', mp_get_run_buffer σ = Some (p, σ')) ∧
  (state_at σ (mb_r (mb σ)) = Some MP_BUFFER_RUNNING →
   ∃ e σ', mp_free_run_buffer σ = Some (e, σ')).
Proof.
  intros Hn Hr. destruct (reachable_inv o σ Hn Hr) as (ri & na & Hinv).
  pose proof (inv_sum _ _ _ _ Hinv). split_and!.
  - destruct (decide (na + o < PLANNER_BUFFER_POOL_SIZE)) as [Hlt|Hge].
    + destruct (get_write_ok _ _ _ _ Hinv Hlt) as (b & σ1 & _ & _ & H1 & _). eauto.
    + eexists _, _. apply (get_write_full σ ri na o Hinv). lia.
  - intros Ho. destruct o as [|o]; [lia|].
    destruct (unget_ok _ _ _ _ Hinv) as (σ1 & H1 & _). eauto.
  - intros Ho ty. destruct o as [|o]; [lia|].
    destruct (commit_ok ty _ _ _ _ Hinv) as (σ1 & H1 & _). eauto.
  - destruct (get_run_ok _ _ _ _ Hinv) as (σ1 & H1 & _). eauto.
  - intros Hrun.
    destruct (free_run_ok _ _ _ _ Hinv Hrun) as (na' & σ1 & _ & H1 & _). eauto.
Qed.

(** ** The accounting invariant *)

(** C1: in every pool state reachable from [mp_init_buffers] by the five queue
    operations used within their preconditions, [buffers_available] plus the
    number of Loading, Queued, Pending and Running blocks is the capacity. *)
Theorem pool_accounting o σ :
  0 < PLANNER_BUFFER_POOL_SIZE ≤ 255 →
  reachable o σ →
  (buffers_available (mb σ) + Z.of_nat (count_in_use σ))%Z
  = Z.of_nat PLANNER_BUFFER_POOL_SIZE.
Proof.
  intros Hn Hr. destruct (reachable_inv o σ Hn Hr) as (ri & na & []).
  rewrite inv_avail0, inv_count0. lia.
Qed.

(** ** Filling and emptying the write side *)

Lemma get_writes_ok ri na k : ∀ σ nl,
  ring_inv σ ri na nl → na + nl + k ≤ PLANNER_BUFFER_POOL_SIZE →
  ∃ σ', get_writes k σ =
          Some ((λ j, Some (ring_idx ri (na + nl + j))) <$> seq 0 k, σ') ∧
        ring_inv σ' ri na (nl + k) ∧
        (∀ i, i < PLANNER_BUFFER_POOL_SIZE → ring_off ri i < na + nl →
              mb_bf (mb σ') !! i = mb_bf (mb σ) !! i).
Proof.
  induction k as [|k IH]; intros σ nl Hinv Hle.
  - exists σ. split; [done|]. split; [by rewrite Nat.add_0_r|done].
  - destruct (get_write_ok σ ri na nl Hinv) as (b & σ1 & Hb & He & Hg & Hσ1 & Hinv1); [lia|].
    destruct (IH σ1 (S nl) Hinv1) as (σ2 & Hgs & Hinv2 & Hfr); [lia|].
    exists σ2. split_and!.
    + simpl. erewrite bind_Some by exact Hg. erewrite bind_Some by exact Hgs.
      unfold ret. do 2 f_equal. rewrite Nat.add_0_r. f_equal.
      rewrite <- fmap_S_seq, <- list_fmap_compose. apply list_fmap_ext.
      intros _ j _. simpl. do 2 f_equal. lia.
    + by replace (nl + S k) with (S nl + k) by lia.
    + intros i Hi Hoff. rewrite Hfr by (done || lia). subst σ1. simpl.
      apply list_lookup_insert_ne. intros <-.
      pose proof (inv_ri _ _ _ _ Hinv). rewrite ring_off_idx in Hoff; lia.
Qed.

Lemma get_writes_all_some ri na k : ∀ σ nl ps σ',
  ring_inv σ ri na nl → get_writes k σ = Some (ps, σ') →
  Forall is_Some ps → na + nl + k ≤ PLANNER_BUFFER_POOL_SIZE.
Proof.
  induction k as [|k IH]; intros σ nl ps σ' Hinv Hg Hall.
  - pose proof (inv_sum _ _ _ _ Hinv). lia.
  - pose proof (inv_sum _ _ _ _ Hinv).
    destruct (decide (na + nl < PLANNER_BUFFER_POOL_SIZE)) as [Hlt|Hge].
    + destruct (get_write_ok σ ri na nl Hinv Hlt) as (b & σ1 & _ & _ & Hg1 & _ & Hinv1).
      simpl in Hg. erewrite bind_Some in Hg by exact Hg1.
      destruct (get_writes k σ1) as [[ps1 σ2]|] eqn:Hgs;
        [|unfold bind in Hg; by rewrite Hgs in Hg].
      erewrite bind_Some in Hg by exact Hgs. unfold ret in Hg. simplify_eq.
      apply Forall_cons in Hall as [_ Hall].
      specialize (IH σ1 (S nl) ps1 σ' Hinv1 Hgs Hall). lia.
    + simpl in Hg. erewrite bind_Some in Hg by (apply (get_write_full σ ri na nl Hinv); lia).
      destruct (get_writes k σ) as [[ps1 σ2]|] eqn:Hgs;
        [|unfold bind in Hg; by rewrite Hgs in Hg].
      erewrite bind_Some in Hg by exact Hgs. unfold ret in Hg. simplify_eq.
      apply Forall_cons in Hall as [[x Hx] _]. done.
Qed.

Lemma unget_writes_ok ri na k : ∀ σ nl,
  ring_inv σ ri na (nl + k) →
  ∃ σ', unget_writes k σ = Some ((), σ') ∧ ring_inv σ' ri na nl ∧
        (∀ i, i < PLANNER_BUFFER_POOL_SIZE → ring_off ri i < na + nl →
              mb_bf (mb σ') !! i = mb_bf (mb σ) !! i).
Proof.
  induction k as [|k IH]; intros σ nl Hinv.
  - exists σ. rewrite Nat.add_0_r in Hinv. done.
  - replace (nl + S k) with (S (nl + k)) in Hinv by lia.
    pose proof (inv_ri _ _ _ _ Hinv). pose proof (inv_sum _ _ _ _ Hinv).
    destruct (unget_ok σ ri na (nl + k) Hinv) as (σ1 & Hu & Hinv1 & _ & Hfr1).
    destruct (IH σ1 nl Hinv1) as (σ2 & Hus & Hinv2 & Hfr2).
    exists σ2. split_and!; [|done|].
    + simpl. erewrite bind_Some by exact Hu. exact Hus.
    + intros i Hi Hoff. rewrite Hfr2 by done. apply Hfr1.
      intros ->. rewrite ring_off_idx in Hoff; lia.
Qed.

(** C2: [mp_get_write_buffer] hands out the block at the write cursor exactly
    when that block is Empty: the block is zeroed but for its two links, set
    Loading, the counter goes down by one and the write cursor moves to the
    successor; otherwise nothing is returned and nothing changes.  From a
    fresh pool of [n] blocks, [n] calls return the [n] distinct blocks and the
    next call returns nothing. *)
Theorem get_write_buffer_spec :
  (∀ σ i b,
     mb_w (mb σ) = Some i → mb_bf (mb σ) !! i = Some b →
     if decide (buffer_state b = MP_BUFFER_EMPTY)
     then
       mp_get_write_buffer σ =
         Some (Some i,
               with_mb
                 (pool (uint8 (buffers_available (mb σ) - 1)) (nx b)
                       (mb_q (mb σ)) (mb_r (mb σ))
                       (<[i := {| nx := nx b; pv := pv b;
                                  bf_func := bf_func_null; cm_func := None;
                                  buffer_state := MP_BUFFER_LOADING;
                                  move_type := MOVE_TYPE_NULL; move_state := MOVE_OFF;
                                  value_vector := replicate AXES f_zero;
                                  flag_vector := replicate AXES f_zero;
                                  gm_move_time := f_zero |}]> (mb_bf (mb σ)))) σ)
       ∧ ((0 < buffers_available (mb σ) ≤ 255)%Z →
          uint8 (buffers_available (mb σ) - 1) = (buffers_available (mb σ) - 1)%Z)
     else mp_get_write_buffer σ = Some (None, σ))
  ∧
  (0 < PLANNER_BUFFER_POOL_SIZE ≤ 255 →
   ∀ σ0, ∃ σ1 σ2,
     mp_init_buffers σ0 = Some ((), σ1) ∧
     get_writes PLANNER_BUFFER_POOL_SIZE σ1
       = Some (Some <$> seq 0 PLANNER_BUFFER_POOL_SIZE, σ2) ∧
     NoDup (Some <$> seq 0 PLANNER_BUFFER_POOL_SIZE : list ptr) ∧
     Forall is_Some (Some <$> seq 0 PLANNER_BUFFER_POOL_SIZE : list ptr) ∧
     buffers_available (mb σ2) = 0%Z ∧
     mp_get_write_buffer σ2 = Some (None, σ2)).
Proof.
  split.
  - intros σ i b Hw Hb. case_decide as He.
    + split; [by apply mp_get_write_buffer_empty|].
      intros. apply uint8_small. lia.
    + by eapply mp_get_write_buffer_busy.
  - intros Hn σ0.
    destruct (init_ok σ0 Hn) as (σ1 & Hi & Hinv & _).
    destruct (get_writes_ok 0 0 PLANNER_BUFFER_POOL_SIZE σ1 0 Hinv) as (σ2 & Hg & Hinv2 & _);
      [lia|].
    exists σ1, σ2. split_and!; [done| | | | |].
    + rewrite Hg. do 2 f_equal. apply list_fmap_ext. intros k j Hj. simpl.
      apply lookup_seq in Hj as [-> Hj]. f_equal. unfold ring_idx.
      rewrite decide_True by lia. lia.
    + apply (NoDup_fmap_2 _). apply NoDup_seq.
    + apply Forall_fmap, Forall_true. intros j. by eexists.
    + rewrite (inv_avail _ _ _ _ Hinv2). lia.
    + apply (get_write_full σ2 0 0 (0 + PLANNER_BUFFER_POOL_SIZE) Hinv2). lia.
Qed.

(** ** The run side *)

(** C3: [mp_free_run_buffer] clears the block at the run cursor to Empty
    (zeroed but for its two links), moves the run cursor to the successor,
    turns that successor from Queued to Pending exactly when it was Queued,
    adds one to the counter and returns whether the write cursor is the new
    run cursor.  In a reachable pool that result is true exactly when no
    block is left in use, and it is false, with the new run block Pending,
    when the successor was Queued. *)
Theorem free_run_buffer_spec :
  (∀ σ i b j bj,
     mb_r (mb σ) = Some i → mb_bf (mb σ) !! i = Some b → nx b = Some j →
     let cleared := {| nx := nx b; pv := pv b; bf_func := bf_func_null; cm_func := None;
                       buffer_state := MP_BUFFER_EMPTY; move_type := MOVE_TYPE_NULL;
                       move_state := MOVE_OFF; value_vector := replicate AXES f_zero;
                       flag_vector := replicate AXES f_zero; gm_move_time := f_zero |} in
     <[i := cleared]> (mb_bf (mb σ)) !! j = Some bj →
     mp_free_run_buffer σ =
       Some (bool_decide (mb_w (mb σ) = Some j),
             with_mb
               (pool (uint8 (buffers_available (mb σ) + 1)) (mb_w (mb σ)) (mb_q (mb σ))
                     (Some j)
                     (if decide (buffer_state bj = MP_BUFFER_QUEUED)
                      then <[j := set_buffer_state MP_BUFFER_PENDING bj]>
                             (<[i := cleared]> (mb_bf (mb σ)))
                      else <[i := cleared]> (mb_bf (mb σ)))) σ))
  ∧
  (0 < PLANNER_BUFFER_POOL_SIZE ≤ 255 →
   ∀ o σ, reachable o σ →
     state_at σ (mb_r (mb σ)) = Some MP_BUFFER_RUNNING →
     ∃ e σ',
       mp_free_run_buffer σ = Some (e, σ') ∧
       buffers_available (mb σ') = (buffers_available (mb σ) + 1)%Z ∧
       state_at σ' (mb_r (mb σ)) = Some MP_BUFFER_EMPTY ∧
       (e = true ↔ mb_w (mb σ') = mb_r (mb σ')) ∧
       (e = true ↔ count_in_use σ' = 0) ∧
       (∀ b, block_at σ (mb_r (mb σ)) = Some b →
             state_at σ (nx b) = Some MP_BUFFER_QUEUED →
             e = false ∧ state_at σ' (mb_r (mb σ')) = Some MP_BUFFER_PENDING)).
Proof.
  split.
  - intros σ i b j bj Hr Hb Hnx cleared Hbj. by eapply mp_free_run_buffer_eq.
  - intros Hn o σ Hreach Hrun.
    destruct (reachable_inv o σ Hn Hreach) as (ri & na & Hinv).
    destruct (free_run_ok σ ri na o Hinv Hrun) as (na' & σ' & -> & Hf & Hinv' & _ & Hq).
    pose proof Hinv as []. pose proof Hinv' as [].
    assert (Hj : _bump ri < PLANNER_BUFFER_POOL_SIZE) by (apply bump_lt; lia).
    exists (bool_decide (na' + o = 0)), σ'. split_and!; [done| | | | |].
    + rewrite inv_avail0, inv_avail1. lia.
    + rewrite inv_r0.
      destruct (ring_inv_block _ _ _ _ ri Hinv') as (b' & Hb' & _ & _ & Hst'); [done|].
      rewrite ring_off_bump_self in Hst' by done.
      unfold state_at, block_at. simpl. rewrite Hb'. simpl. f_equal.
      destruct (state_ok_cases _ _ _ _ Hst') as [[]|[[]|[]]]; (lia || done).
    + rewrite bool_decide_eq_true, inv_w1, inv_r1. split.
      * intros ->. f_equal. by apply ring_idx_0.
      * intros [= Heq]. apply ring_idx_eq_start in Heq; lia.
    + rewrite bool_decide_eq_true, inv_count1. done.
    + intros b Hb Hs. rewrite inv_r0 in Hb. simpl in Hb.
      destruct (inv_links0 _ _ Hb) as [Hnx _]. rewrite Hnx in Hs.
      unfold state_at, block_at in Hs. simpl in Hs.
      destruct (mb_bf (mb σ) !! _bump ri) as [bq|] eqn:Hbq; [|done].
      simpl in Hs. injection Hs as Hs.
      destruct (Hq bq eq_refl Hs) as [Hpos Hp].
      rewrite inv_r1. split; [|done]. apply bool_decide_eq_false. lia.
Qed.

(** C4: [mp_get_run_buffer] turns a Queued or Pending block at the run cursor
    to Running and returns it, returns a Running block again without any
    change, and otherwise returns nothing and changes nothing; so a second
    call returns the same block, Running both times. *)
Theorem get_run_buffer_spec σ i b :
  mb_r (mb σ) = Some i → mb_bf (mb σ) !! i = Some b →
  (buffer_state b = MP_BUFFER_QUEUED ∨ buffer_state b = MP_BUFFER_PENDING →
   mp_get_run_buffer σ =
     Some (Some i,
           with_mb (pool (buffers_available (mb σ)) (mb_w (mb σ)) (mb_q (mb σ))
                         (mb_r (mb σ))
                         (<[i := set_buffer_state MP_BUFFER_RUNNING b]> (mb_bf (mb σ)))) σ))
  ∧ (buffer_state b = MP_BUFFER_RUNNING → mp_get_run_buffer σ = Some (Some i, σ))
  ∧ (buffer_state b ≠ MP_BUFFER_QUEUED → buffer_state b ≠ MP_BUFFER_PENDING →
     buffer_state b ≠ MP_BUFFER_RUNNING → mp_get_run_buffer σ = Some (None, σ))
  ∧ (∀ p σ1, mp_get_run_buffer σ = Some (p, σ1) → p ≠ None →
       p = Some i ∧
       state_at σ1 p = Some MP_BUFFER_RUNNING ∧
       mp_get_run_buffer σ1 = Some (p, σ1)).
Proof.
  intros Hr Hb.
  assert (Hi : i < length (mb_bf (mb σ))) by (by eapply lookup_lt_Some).
  split_and!.
  - intros Hs. by apply mp_get_run_buffer_fresh.
  - intros Hs. by eapply mp_get_run_buffer_running.
  - intros H1 H2 H3. eapply mp_get_run_buffer_none; eauto.
    destruct (buffer_state b); auto; congruence.
  - intros p σ1 Hg Hp.
    destruct (buffer_state b) eqn:Hs.
    + rewrite (mp_get_run_buffer_none σ i b) in Hg by auto. congruence.
    + rewrite (mp_get_run_buffer_none σ i b) in Hg by auto. congruence.
    + rewrite (mp_get_run_buffer_fresh σ i b) in Hg by auto. simplify_eq.
      split_and!; [done| |].
      * unfold state_at, block_at. simpl. by rewrite list_lookup_insert_eq.
      * eapply mp_get_run_buffer_running; simpl; [done| |];
          [by apply list_lookup_insert_eq|done].
    + rewrite (mp_get_run_buffer_fresh σ i b) in Hg by auto. simplify_eq.
      split_and!; [done| |].
      * unfold state_at, block_at. simpl. by rewrite list_lookup_insert_eq.
      * eapply mp_get_run_buffer_running; simpl; [done| |];
          [by apply list_lookup_insert_eq|done].
    + rewrite (mp_get_run_buffer_running σ i b) in Hg by auto. simplify_eq.
      split_and!; [done| |].
      * unfold state_at, block_at. simpl. by rewrite Hb, <- Hs.
      * by eapply mp_get_run_buffer_running.
Qed.

(** ** Giving a write buffer back *)

Lemma uint8_dec_inc z : (0 ≤ z ≤ 255)%Z → uint8 (uint8 (z - 1) + 1) = z.
Proof.
  intros Hz. unfold uint8. rewrite Zplus_mod_idemp_l.
  replace (z - 1 + 1)%Z with z by lia. apply Z.mod_small. lia.
Qed.

(** C5: [mp_unget_write_buffer] moves the write cursor to its predecessor,
    marks that block Empty and adds one to the counter.  Right after a
    successful get it restores the write cursor, the state of the block and
    the counter; in a reachable pool [k] successful gets are undone by [k]
    ungets. *)
Theorem unget_write_buffer_spec :
  (∀ σ i b j bj,
     mb_w (mb σ) = Some i → mb_bf (mb σ) !! i = Some b →
     pv b = Some j → mb_bf (mb σ) !! j = Some bj →
     mp_unget_write_buffer σ =
       Some ((), with_mb
                   (pool (uint8 (buffers_available (mb σ) + 1)) (Some j) (mb_q (mb σ))
                         (mb_r (mb σ))
                         (<[j := set_buffer_state MP_BUFFER_EMPTY bj]> (mb_bf (mb σ)))) σ))
  ∧
  (∀ σ i b j,
     mb_w (mb σ) = Some i → mb_bf (mb σ) !! i = Some b →
     buffer_state b = MP_BUFFER_EMPTY →
     nx b = Some j → j < length (mb_bf (mb σ)) →
     (∀ bj, mb_bf (mb σ) !! j = Some bj → pv bj = Some i) →
     (0 ≤ buffers_available (mb σ) ≤ 255)%Z →
     ∃ σ1 σ2,
       mp_get_write_buffer σ = Some (Some i, σ1) ∧
       mp_unget_write_buffer σ1 = Some ((), σ2) ∧
       mb_w (mb σ2) = mb_w (mb σ) ∧
       state_at σ2 (Some i) = state_at σ (Some i) ∧
       buffers_available (mb σ2) = buffers_available (mb σ))
  ∧
  (0 < PLANNER_BUFFER_POOL_SIZE ≤ 255 →
   ∀ o σ k ps σ1,
     reachable o σ →
     get_writes k σ = Some (ps, σ1) → Forall is_Some ps →
     ∃ σ2,
       unget_writes k σ1 = Some ((), σ2) ∧
       mb_w (mb σ2) = mb_w (mb σ) ∧
       buffers_available (mb σ2) = buffers_available (mb σ) ∧
       ∀ p, state_at σ2 p = state_at σ p).
Proof.
  split_and!.
  - intros. by eapply mp_unget_write_buffer_eq.
  - intros σ i b j Hw Hb He Hnx Hj Hpv Hav.
    assert (Hi : i < length (mb_bf (mb σ))) by (by eapply lookup_lt_Some).
    eexists _, _. split; [by apply mp_get_write_buffer_empty|].
    destruct (lookup_lt_is_Some_2 (<[i := loading_of b]> (mb_bf (mb σ))) j) as [bj Hbj];
      [by rewrite length_insert|].
    assert (Hpvj : pv bj = Some i).
    { destruct (decide (i = j)) as [->|Hne].
      - rewrite list_lookup_insert_eq in Hbj by done. simplify_eq. simpl. by apply Hpv.
      - rewrite list_lookup_insert_ne in Hbj by done. by apply Hpv. }
    split.
    { eapply (mp_unget_write_buffer_eq _ j bj i (loading_of b)); simpl; try done.
      by apply list_lookup_insert_eq. }
    simpl. split_and!; [done| |by apply uint8_dec_inc].
    unfold state_at, block_at. simpl. rewrite list_insert_insert_eq.
    rewrite list_lookup_insert_eq by done. rewrite Hb. simpl. by rewrite He.
  - intros Hn o σ k ps σ1 Hreach Hg Hall.
    destruct (reachable_inv o σ Hn Hreach) as (ri & na & Hinv).
    pose proof (get_writes_all_some ri na k σ o ps σ1 Hinv Hg Hall) as Hle.
    destruct (get_writes_ok ri na k σ o Hinv Hle) as (σ1' & Hg' & Hinv1 & Hfr1).
    assert (σ1' = σ1) as -> by congruence.
    destruct (unget_writes_ok ri na k σ1 o Hinv1) as (σ2 & Hu & Hinv2 & Hfr2).
    exists σ2. split; [done|].
    pose proof Hinv as []. pose proof Hinv2 as [].
    split_and!; [congruence|congruence|].
    intros [i|]; [|done]. unfold state_at, block_at. simpl.
    destruct (decide (i < PLANNER_BUFFER_POOL_SIZE)) as [Hi|Hi].
    + destruct (decide (ring_off ri i < na + o)) as [Hoff|Hoff].
      * by rewrite Hfr2, Hfr1.
      * destruct (ring_inv_block _ _ _ _ i Hinv Hi) as (b & -> & _ & _ & Hs).
        destruct (ring_inv_block _ _ _ _ i Hinv2 Hi) as (b2 & -> & _ & _ & Hs2).
        simpl. f_equal.
        destruct (state_ok_cases _ _ _ _ Hs) as [[]|[[]|[? ->]]]; try lia.
        destruct (state_ok_cases _ _ _ _ Hs2) as [[]|[[]|[? ->]]]; try lia. done.
    + rewrite !lookup_ge_None_2 by lia. done.
Qed.

(** ** Queueing commands and dwells *)

Lemma mp_get_write_buffer_none_inv σ σ' :
  mp_get_write_buffer σ = Some (None, σ') →
  σ' = σ ∧ ∃ i b, mb_w (mb σ) = Some i ∧ mb_bf (mb σ) !! i = Some b ∧
                  buffer_state b ≠ MP_BUFFER_EMPTY.
Proof.
  intros Hg.
  destruct (mb_w (mb σ)) as [i|] eqn:Hw.
  - destruct (mb_bf (mb σ) !! i) as [b|] eqn:Hb.
    + destruct (decide (buffer_state b = MP_BUFFER_EMPTY)) as [He|He].
      * rewrite (mp_get_write_buffer_empty σ i b Hw Hb He) in Hg. congruence.
      * rewrite (mp_get_write_buffer_busy σ i b Hw Hb He) in Hg.
        split; [congruence|]. by exists i, b.
    + unfold mp_get_write_buffer, bind, get_mb, load in Hg. simpl in Hg.
      rewrite Hw in Hg. unfold bind, get_mb in Hg. by rewrite Hb in Hg.
  - unfold mp_get_write_buffer, bind, get_mb, load in Hg. simpl in Hg.
    by rewrite Hw in Hg.
Qed.

(** C7: when [mp_get_write_buffer] returns nothing, [mp_queue_command] and
    [mp_dwell] call [cm_hard_alarm (STAT_BUFFER_FULL_FATAL)] once and return;
    nothing is committed, the pool is as it was, and [mp_dwell] returns what
    the alarm returned. *)
Theorem buffer_full_is_fatal σ σ' :
  mp_get_write_buffer σ = Some (None, σ') →
  σ' = σ ∧
  (∀ cm_exec value flag,
     mp_queue_command cm_exec value flag σ =
       Some ((), with_calls (calls σ ++ [cm_hard_alarm STAT_BUFFER_FULL_FATAL]) σ)) ∧
  (∀ seconds,
     mp_dwell seconds σ =
       Some (cm_hard_alarm_ret STAT_BUFFER_FULL_FATAL,
             with_calls (calls σ ++ [cm_hard_alarm STAT_BUFFER_FULL_FATAL]) σ)) ∧
  mb (with_calls (calls σ ++ [cm_hard_alarm STAT_BUFFER_FULL_FATAL]) σ) = mb σ.
Proof.
  intros Hg. destruct (mp_get_write_buffer_none_inv σ σ' Hg) as [-> _].
  split_and!; [done| | |done].
  - intros. unfold mp_queue_command. erewrite bind_Some by exact Hg. reflexivity.
  - intros. unfold mp_dwell. erewrite bind_Some by exact Hg. reflexivity.
Qed.

Lemma bind_get_world {B} (k : world → M B) σ : bind get_world k σ = k σ σ.
Proof. reflexivity. Qed.

Lemma mp_queue_command_eq σ i b cm_exec value flag :
  mb_w (mb σ) = Some i → mb_q (mb σ) = Some i →
  mb_bf (mb σ) !! i = Some b → buffer_state b = MP_BUFFER_EMPTY →
  mp_queue_command cm_exec value flag σ =
    Some ((), with_calls (calls σ ++ [st_request_exec_move])
                (with_mb
                   (pool (uint8 (buffers_available (mb σ) - 1)) (nx b) (nx b) (mb_r (mb σ))
                         (<[i := {| nx := nx b; pv := pv b;
                                    bf_func := ptr_exec_command;
                                    cm_func := Some cm_exec;
                                    buffer_state := MP_BUFFER_QUEUED;
                                    move_type := MOVE_TYPE_COMMAND;
                                    move_state := MOVE_NEW;
                                    value_vector := array_at (ram σ) value;
                                    flag_vector := array_at (ram σ) flag;
                                    gm_move_time := f_zero |}]> (mb_bf (mb σ)))) σ)).
Proof.
  intros Hw Hq Hb He. unfold mp_queue_command.
  assert (Hi : i < length (mb_bf (mb σ))) by (by eapply lookup_lt_Some).
  erewrite bind_Some by (by apply mp_get_write_buffer_empty).
  open_world σ. unfold AXES, AXIS_X. simpl.
  do 3 (run_update; rewrite ?list_insert_insert_eq).
  run1 ltac:(
    do 6 (run1 ltac:(run1 ltac:(rewrite bind_get_world; apply update_Some; lookup_tac);
                     rewrite bind_get_world; apply update_Some; lookup_tac);
          rewrite ?list_insert_insert_eq);
    reflexivity).
  erewrite mp_commit_write_buffer_eq; simpl; [|reflexivity|by apply list_lookup_insert_eq].
  rewrite list_insert_insert_eq. reflexivity.
Qed.

Lemma mp_runtime_command_eq σ i b f j :
  mb_r (mb σ) = Some i → mb_bf (mb σ) !! i = Some b →
  cm_func b = Some f → nx b = Some j → j < length (mb_bf (mb σ)) →
  ∃ σ', mp_runtime_command (Some i) σ = Some (STAT_OK, σ') ∧
        calls σ' = calls σ ++ call_cm_func f (value_vector b) (flag_vector b)
                     :: (if bool_decide (mb_w (mb σ) = Some j) then [cm_cycle_end] else []) ∧
        mb_r (mb σ') = Some j.
Proof.
  intros Hr Hb Hf Hnx Hj. unfold mp_runtime_command.
  destruct (lookup_lt_is_Some_2 (<[i := cleared_of b]> (mb_bf (mb σ))) j) as [bj Hbj];
    [by rewrite length_insert|].
  erewrite bind_Some.
  2:{ erewrite bind_Some by (by apply load_Some). rewrite Hf. reflexivity. }
  destruct (bool_decide (mb_w (mb σ) = Some j)) eqn:Hempty.
  - erewrite bind_Some.
    2:{ erewrite bind_Some by (by eapply (mp_free_run_buffer_eq _ i b j bj)).
        simpl. rewrite Hempty. reflexivity. }
    eexists. split; [reflexivity|]. simpl. by rewrite <- app_assoc.
  - erewrite bind_Some.
    2:{ erewrite bind_Some by (by eapply (mp_free_run_buffer_eq _ i b j bj)).
        simpl. rewrite Hempty. reflexivity. }
    eexists. split; [reflexivity|]. done.
Qed.

Lemma reachable_idle_write σ :
  0 < PLANNER_BUFFER_POOL_SIZE ≤ 255 →
  reachable 0 σ → (0 < buffers_available (mb σ))%Z →
  ∃ i b, mb_w (mb σ) = Some i ∧ mb_q (mb σ) = Some i ∧
         mb_bf (mb σ) !! i = Some b ∧ buffer_state b = MP_BUFFER_EMPTY.
Proof.
  intros Hn Hr Hav. destruct (reachable_inv 0 σ Hn Hr) as (ri & na & Hinv).
  pose proof Hinv as [].
  destruct (get_write_ok σ ri na 0 Hinv) as (b & _ & Hb & He & _); [lia|].
  rewrite Nat.add_0_r in *. by exists (ring_idx ri na), b.
Qed.

(** C6: [mp_queue_command] stores the six values and the six flags themselves
    in the committed block, together with the callback.  Take any later world
    [σ2] in which the block has come to the run cursor with what was stored,
    in whatever committed state the consumer has brought it to; its memory
    [ram σ2] is arbitrary, so the caller may have overwritten its arrays.
    There the consumer's [mp_get_run_buffer] returns the block and makes it
    Running, and [mp_runtime_command] on it calls the callback with the values
    and flags read when the command was queued.  The command is queued with
    no write buffer outstanding, so that the block handed out is the one
    committed; every reachable pool with no write buffer outstanding and a
    buffer available is such a state. *)
Theorem queue_command_copies :
  (∀ σ i b cm_exec value flag,
     mb_w (mb σ) = Some i → mb_q (mb σ) = Some i →
     mb_bf (mb σ) !! i = Some b → buffer_state b = MP_BUFFER_EMPTY →
     ∃ σ1 bq,
       mp_queue_command cm_exec value flag σ = Some ((), σ1) ∧
       mb_bf (mb σ1) !! i = Some bq ∧
       buffer_state bq = MP_BUFFER_QUEUED ∧
       move_type bq = MOVE_TYPE_COMMAND ∧
       bf_func bq = ptr_exec_command ∧
       cm_func bq = Some cm_exec ∧
       value_vector bq = array_at (ram σ) value ∧
       flag_vector bq = array_at (ram σ) flag ∧
       ∀ σ2 s j,
         committed s →
         mb_bf (mb σ2) !! i = Some (set_buffer_state s bq) →
         mb_r (mb σ2) = Some i →
         nx bq = Some j → j < length (mb_bf (mb σ2)) →
         ∃ σ2' σ3 rest,
           mp_get_run_buffer σ2 = Some (Some i, σ2') ∧
           state_at σ2' (Some i) = Some MP_BUFFER_RUNNING ∧
           calls σ2' = calls σ2 ∧
           mp_runtime_command (Some i) σ2' = Some (STAT_OK, σ3) ∧
           calls σ3 = calls σ2
                      ++ call_cm_func cm_exec (array_at (ram σ) value)
                                      (array_at (ram σ) flag)
                      :: rest)
  ∧
  (0 < PLANNER_BUFFER_POOL_SIZE ≤ 255 →
   ∀ σ, reachable 0 σ → (0 < buffers_available (mb σ))%Z →
     ∃ i b, mb_w (mb σ) = Some i ∧ mb_q (mb σ) = Some i ∧
            mb_bf (mb σ) !! i = Some b ∧ buffer_state b = MP_BUFFER_EMPTY).
Proof.
  split; [|intros Hn σ; by apply reachable_idle_write].
  intros σ i b cm_exec value flag Hw Hq Hb He.
  assert (Hi : i < length (mb_bf (mb σ))) by (by eapply lookup_lt_Some).
  eexists _, _. split; [by apply mp_queue_command_eq|]. simpl.
  split; [by apply list_lookup_insert_eq|]. split_and!; try reflexivity.
  intros σ2 s j Hs Hb2 Hr2 Hnx Hj.
  assert (Hi2 : i < length (mb_bf (mb σ2))) by (by eapply lookup_lt_Some).
  destruct (decide (s = MP_BUFFER_RUNNING)) as [->|Hnr].
  - pose proof (mp_get_run_buffer_running σ2 i _ Hr2 Hb2 eq_refl) as Hg.
    destruct (mp_runtime_command_eq σ2 i _ cm_exec j Hr2 Hb2 eq_refl Hnx Hj)
      as (σ3 & Hrun & Hcalls & _).
    exists σ2, σ3. eexists. split; [exact Hg|].
    split; [unfold state_at, block_at; simpl; by rewrite Hb2|].
    split; [done|]. split; [exact Hrun|exact Hcalls].
  - assert (Hqp : s = MP_BUFFER_QUEUED ∨ s = MP_BUFFER_PENDING)
      by (destruct Hs as [?|[?|?]]; [by left|by right|done]).
    pose proof (mp_get_run_buffer_fresh σ2 i _ Hr2 Hb2 Hqp) as Hg.
    match type of Hg with _ = Some (_, ?w) => set (σ2' := w) in * end.
    assert (Hb2' : mb_bf (mb σ2') !! i
                   = Some (set_buffer_state MP_BUFFER_RUNNING (set_buffer_state s
                       {| nx := nx b; pv := pv b; bf_func := ptr_exec_command;
                          cm_func := Some cm_exec; buffer_state := MP_BUFFER_QUEUED;
                          move_type := MOVE_TYPE_COMMAND; move_state := MOVE_NEW;
                          value_vector := array_at (ram σ) value;
                          flag_vector := array_at (ram σ) flag;
                          gm_move_time := f_zero |})))
      by (subst σ2'; simpl; by apply list_lookup_insert_eq).
    destruct (mp_runtime_command_eq σ2' i _ cm_exec j Hr2 Hb2' eq_refl Hnx)
      as (σ3 & Hrun & Hcalls & _); [subst σ2'; simpl; by rewrite length_insert|].
    exists σ2', σ3. eexists. split; [exact Hg|].
    split; [unfold state_at, block_at; simpl; by rewrite list_lookup_insert_eq|].
    split; [done|]. split; [exact Hrun|exact Hcalls].
Qed.

(** ** Steps from the runtime position *)

Lemma fill_length {A} n : ∀ lo (g : nat → A) l, length (fill lo n g l) = length l.
Proof.
  induction n as [|n IH]; intros lo g l; [done|].
  unfold fill. simpl. fold (fill (S lo) n g (<[lo := g lo]> l)).
  by rewrite IH, length_insert.
Qed.

Lemma fill_lookup_before {A} n : ∀ lo (g : nat → A) l m,
  m < lo → fill lo n g l !! m = l !! m.
Proof.
  induction n as [|n IH]; intros lo g l m Hm; [done|].
  unfold fill. simpl. fold (fill (S lo) n g (<[lo := g lo]> l)).
  rewrite IH by lia. apply list_lookup_insert_ne. lia.
Qed.

Lemma fill_lookup {A} n : ∀ lo (g : nat → A) l m,
  lo ≤ m < lo + n → m < length l → fill lo n g l !! m = Some (g m).
Proof.
  induction n as [|n IH]; intros lo g l m Hm Hl; [lia|].
  unfold fill. simpl. fold (fill (S lo) n g (<[lo := g lo]> l)).
  destruct (decide (m = lo)) as [->|Hne].
  - rewrite fill_lookup_before by lia. by apply list_lookup_insert_eq.
  - apply IH; [lia|by rewrite length_insert].
Qed.

Lemma set_steps_loop n : ∀ lo step σ,
  for_loop lo n (set_steps_body step) σ =
  Some ((),
        {| mb := mb σ; mm_position := mm_position σ;
           mr := {| mr_position := mr_position (mr σ);
                    target_steps := fill lo n step (target_steps (mr σ));
                    position_steps := fill lo n step (position_steps (mr σ));
                    commanded_steps := fill lo n step (commanded_steps (mr σ));
                    following_error :=
                      fill lo n (λ _, f_of_Z 0) (following_error (mr σ)) |};
           corrected_steps := fill lo n (λ _, 0%Z) (corrected_steps σ);
           ram := ram σ;
           calls := calls σ ++ ((λ m, en_set_encoder_steps m (step m)) <$> seq lo n) |}).
Proof.
  induction n as [|n IH]; intros lo step σ.
  - simpl. unfold ret, fill. simpl. rewrite app_nil_r. by destruct σ as [? ? [] ? ? ?].
  - simpl. erewrite bind_Some by reflexivity. rewrite IH. simpl.
    by rewrite <- app_assoc.
Qed.

Lemma encoder_register_last log n : ∀ lo (step : nat → float) motor,
  lo ≤ motor < lo + n →
  encoder_register (log ++ ((λ m, en_set_encoder_steps m (step m)) <$> seq lo n)) motor
  = Some (step motor).
Proof.
  induction n as [|n IH]; intros lo step motor Hm; [lia|].
  rewrite seq_S, fmap_app, app_assoc. unfold encoder_register. rewrite foldl_app. simpl.
  case_decide as Heq.
  - by rewrite Heq.
  - apply IH. lia.
Qed.

Lemma for_loop_u8_eq n : ∀ fuel lo bound body,
  bound ≤ 255 → lo + n = bound → n ≤ fuel →
  for_loop_u8 fuel lo bound body = for_loop lo n body.
Proof.
  induction n as [|n IH]; intros fuel lo bound body Hb Hlo Hfuel.
  - destruct fuel; cbn [for_loop_u8 for_loop]; by rewrite decide_False by lia.
  - destruct fuel as [|fuel]; [lia|]. cbn [for_loop_u8 for_loop].
    rewrite decide_True by lia. rewrite Nat.mod_small by lia. rewrite Nat.add_1_r.
    by rewrite (IH fuel (S lo) bound body) by lia.
Qed.

(** With more than 255 motors the [uint8_t] index never reaches [MOTORS]: the
    loop has not ended after any number of rounds. *)
Lemma for_loop_u8_wraps bound body :
  255 < bound → (∀ m σ, ∃ σ', body m σ = Some ((), σ')) →
  ∀ fuel i σ, i < 256 → for_loop_u8 fuel i bound body σ = None.
Proof.
  intros Hb Hbody. induction fuel as [|fuel IH]; intros i σ Hi; cbn [for_loop_u8];
    rewrite decide_True by lia; [done|].
  destruct (Hbody i σ) as [σ' H']. erewrite bind_Some by exact H'.
  apply IH. apply Nat.mod_upper_bound. lia.
Qed.

Lemma mp_set_steps_to_runtime_position_wraps fuel σ :
  255 < MOTORS → mp_set_steps_to_runtime_position fuel σ = None.
Proof.
  intros Hm. unfold mp_set_steps_to_runtime_position. rewrite bind_get_world.
  apply for_loop_u8_wraps; [done| |lia].
  intros m σ0. eexists. apply (set_steps_loop 1 m).
Qed.

Lemma for_loop_u8_set_steps_mb step bound : ∀ fuel i σ σ',
  for_loop_u8 fuel i bound (set_steps_body step) σ = Some ((), σ') → mb σ' = mb σ.
Proof.
  induction fuel as [|fuel IH]; intros i σ σ' H; cbn [for_loop_u8] in H;
    case_decide; try done; try (by injection H as <-).
  erewrite bind_Some in H by apply (set_steps_loop 1 i).
  apply IH in H. by rewrite H.
Qed.

(** C8: with at most 255 motors, the most a [uint8_t] index can count, the
    motor loop of [mp_set_steps_to_runtime_position] ends after [MOTORS]
    rounds, and afterwards for every motor the target, position and commanded
    steps are the motor's component of the inverse kinematics of the runtime
    position, the encoder register was written with the same step count, and
    the following error and the pending step correction are zero. *)
Theorem set_steps_to_runtime_position_spec σ fuel :
  MOTORS ≤ 255 → MOTORS ≤ fuel →
  length (target_steps (mr σ)) = MOTORS →
  length (position_steps (mr σ)) = MOTORS →
  length (commanded_steps (mr σ)) = MOTORS →
  length (following_error (mr σ)) = MOTORS →
  length (corrected_steps σ) = MOTORS →
  ∃ σ',
    mp_set_steps_to_runtime_position fuel σ = Some ((), σ') ∧
    mr_position (mr σ') = mr_position (mr σ) ∧
    ∀ motor, motor < MOTORS →
      target_steps (mr σ') !! motor = Some (ik_kinematics (mr_position (mr σ)) motor) ∧
      position_steps (mr σ') !! motor = Some (ik_kinematics (mr_position (mr σ)) motor) ∧
      commanded_steps (mr σ') !! motor = Some (ik_kinematics (mr_position (mr σ)) motor) ∧
      encoder_register (calls σ') motor = Some (ik_kinematics (mr_position (mr σ)) motor) ∧
      following_error (mr σ') !! motor = Some f_zero ∧
      corrected_steps σ' !! motor = Some 0%Z.
Proof.
  intros Hm Hfuel Ht Hp Hc Hf Hcs. eexists. split.
  { unfold mp_set_steps_to_runtime_position. rewrite bind_get_world.
    rewrite (for_loop_u8_eq MOTORS) by lia. apply set_steps_loop. }
  simpl. split; [done|]. intros motor Hlt.
  rewrite !fill_lookup by lia. rewrite encoder_register_last by lia. done.
Qed.

(** ** The axis map *)

Lemma map_first_motor_length cfg axis n : ∀ motor mm,
  length (map_first_motor cfg axis motor n mm) = length mm.
Proof.
  induction n as [|n IH]; intros motor mm; simpl; [done|].
  case_decide; [by rewrite length_insert|apply IH].
Qed.

Lemma map_first_motor_other cfg axis n : ∀ motor mm a,
  a ≠ axis → map_first_motor cfg axis motor n mm !! a = mm !! a.
Proof.
  induction n as [|n IH]; intros motor mm a Ha; simpl; [done|].
  case_decide; [by apply list_lookup_insert_ne|by apply IH].
Qed.

Lemma map_first_motor_none cfg axis n : ∀ motor mm,
  (∀ m, motor ≤ m < motor + n → cfg m ≠ Z.of_nat axis) →
  map_first_motor cfg axis motor n mm = mm.
Proof.
  induction n as [|n IH]; intros motor mm Hno; simpl; [done|].
  rewrite decide_False by (apply Hno; lia). apply IH. intros m Hm. apply Hno. lia.
Qed.

Lemma map_first_motor_first cfg axis n : ∀ motor mm m,
  motor ≤ m < motor + n → cfg m = Z.of_nat axis →
  (∀ m', motor ≤ m' < m → cfg m' ≠ Z.of_nat axis) →
  axis < length mm →
  map_first_motor cfg axis motor n mm !! axis = Some (Z.of_nat m).
Proof.
  induction n as [|n IH]; intros motor mm m Hm Hcfg Hfirst Hlen; simpl; [lia|].
  destruct (decide (m = motor)) as [->|Hne].
  - rewrite decide_True by done. by apply list_lookup_insert_eq.
  - rewrite decide_False by (apply Hfirst; lia).
    apply IH; [lia|done| |done]. intros m' Hm'. apply Hfirst. lia.
Qed.

Lemma map_axes_length cfg (l : list nat) : ∀ mm,
  length (foldl (λ mm axis, map_first_motor cfg axis 0 MOTORS mm) mm l) = length mm.
Proof.
  induction l as [|a l IH]; intros mm; simpl; [done|].
  by rewrite IH, map_first_motor_length.
Qed.

Lemma map_axes_other cfg (l : list nat) axis : ∀ mm,
  (∀ a, a ∈ l → a = axis → ∀ m, m < MOTORS → cfg m ≠ Z.of_nat axis) →
  foldl (λ mm axis, map_first_motor cfg axis 0 MOTORS mm) mm l !! axis = mm !! axis.
Proof.
  induction l as [|a l IH]; intros mm Hno; simpl; [done|].
  rewrite IH by (intros a' Ha'; apply Hno; by right).
  destruct (decide (a = axis)) as [->|Hne].
  - rewrite map_first_motor_none; [done|].
    intros m Hm. apply (Hno axis); [by left|done|lia].
  - by apply map_first_motor_other.
Qed.

Lemma axis_map_motors_unconfigured cfg mm axis :
  (∀ motor, motor < MOTORS → cfg motor ≠ Z.of_nat axis) →
  axis_map_motors cfg mm !! axis = mm !! axis.
Proof. intros Hno. apply map_axes_other. intros; by apply Hno. Qed.

Lemma axis_map_motors_configured cfg mm axis m :
  axis < AXES → axis < length mm →
  m < MOTORS → cfg m = Z.of_nat axis →
  (∀ m', m' < m → cfg m' ≠ Z.of_nat axis) →
  axis_map_motors cfg mm !! axis = Some (Z.of_nat m).
Proof.
  intros Hax Hlen Hm Hcfg Hfirst. unfold axis_map_motors.
  replace AXES with (axis + S (AXES - S axis)) by lia.
  rewrite seq_app, foldl_app. simpl.
  rewrite map_axes_other.
  - apply (map_first_motor_first cfg axis MOTORS 0 _ m); [lia|done| |].
    + intros m' Hm'. apply Hfirst. lia.
    + by rewrite map_axes_length.
  - intros a Ha ->. apply elem_of_seq in Ha. lia.
Qed.

(** C10: [axis_map_motors] leaves the entry of an axis that no motor is
    configured for as it was, and with it [axis_get_motor], the three limit
    getters and [axis_is_enabled] for that axis.  It is [-1] after a first
    run from the static initialiser, but an axis mapped to motor [m] under a
    former configuration stays mapped to [m] when the map is run again. *)
Theorem axis_map_motors_never_unmaps motor_get_axis motor_map axis :
  (∀ motor, motor < MOTORS → motor_get_axis motor ≠ Z.of_nat axis) →
  axis_get_motor (axis_map_motors motor_get_axis motor_map) axis
    = axis_get_motor motor_map axis ∧
  (∀ axes,
     axis_get_velocity_max (axis_map_motors motor_get_axis motor_map) axes axis
       = axis_get_velocity_max motor_map axes axis ∧
     axis_get_accel_max (axis_map_motors motor_get_axis motor_map) axes axis
       = axis_get_accel_max motor_map axes axis ∧
     axis_get_jerk_max (axis_map_motors motor_get_axis motor_map) axes axis
       = axis_get_jerk_max motor_map axes axis ∧
     ∀ motor_is_enabled,
       axis_is_enabled motor_is_enabled (axis_map_motors motor_get_axis motor_map) axes axis
         = axis_is_enabled motor_is_enabled motor_map axes axis) ∧
  (axis < AXES →
   axis_get_motor (axis_map_motors motor_get_axis motor_map_initial) axis = Some (-1)%Z) ∧
  (∀ former m,
     axis < AXES → m < MOTORS → former m = Z.of_nat axis →
     (∀ m', m' < m → former m' ≠ Z.of_nat axis) →
     axis_get_motor
       (axis_map_motors motor_get_axis (axis_map_motors former motor_map_initial)) axis
       = Some (Z.of_nat m)).
Proof.
  intros Hno.
  pose proof (axis_map_motors_unconfigured motor_get_axis motor_map axis Hno) as Hsame.
  split_and!.
  - exact Hsame.
  - intros axes. unfold axis_is_enabled, axis_get_velocity_max, axis_get_accel_max,
      axis_get_jerk_max, axis_get_motor. rewrite Hsame. done.
  - intros Hax. unfold axis_get_motor.
    rewrite axis_map_motors_unconfigured by done.
    by apply lookup_replicate_2.
  - intros former m Hax Hm Hcfg Hfirst. unfold axis_get_motor.
    rewrite axis_map_motors_unconfigured by done.
    by apply axis_map_motors_configured.
Qed.

(** ** The vector length *)

Lemma binary_round_aux_sign s m e l :
  binary_round_aux prec32 emax32 s m e l
  = with_sign s (binary_round_aux prec32 emax32 false m e l).
Proof.
  unfold binary_round_aux.
  destruct (shr_fexp prec32 emax32 m e l) as [mrs' e'].
  destruct (shr_fexp prec32 emax32 _ e' loc_Exact) as [mrs'' e''].
  destruct (shr_m mrs''); try reflexivity.
  destruct (Z.leb e'' (emax32 - prec32)); reflexivity.
Qed.

Lemma binary_round_sign s m e :
  binary_round prec32 emax32 s m e = with_sign s (binary_round prec32 emax32 false m e).
Proof.
  unfold binary_round. destruct (shl_align _ _ _) as [mz ez].
  apply binary_round_aux_sign.
Qed.

Lemma square_with_sign s x : square (with_sign s x) = square x.
Proof.
  unfold square, f_mul.
  destruct x as [sx|sx| |sx m e]; simpl; try reflexivity;
    destruct s, sx; reflexivity.
Qed.

Lemma square_normalize_opp z e :
  square (binary_normalize prec32 emax32 (- z) e false)
  = square (binary_normalize prec32 emax32 z e false).
Proof.
  destruct z as [|p|p]; simpl; [reflexivity| |].
  - by rewrite binary_round_sign, square_with_sign.
  - symmetry. by rewrite binary_round_sign, square_with_sign.
Qed.

Lemma square_sub_comm x y : square (f_sub x y) = square (f_sub y x).
Proof.
  destruct x as [sx|sx| |sx mx ex], y as [sy|sy| |sy my ey];
    try (destruct sx, sy; reflexivity); try (destruct sx; reflexivity);
    try (destruct sy; reflexivity); try reflexivity.
  unfold f_sub, SFsub. rewrite (Z.min_comm ey ex).
  rewrite <- square_normalize_opp. f_equal. f_equal. lia.
Qed.

Lemma f_sub_diag x : f_finite x = true → f_sub x x = f_zero.
Proof.
  destruct x as [s|s| |s m e]; intros Hx; try done.
  - by destruct s.
  - unfold f_sub, SFsub. by rewrite Z.sub_diag.
Qed.

Lemma f_eq_refl x : x ≠ S754_nan → f_eq x x = true.
Proof.
  unfold f_eq, SFeqb. destruct x as [s|s| |s m e]; intros Hx; try done.
  - by destruct s.
  - simpl. rewrite Z.compare_refl, Pos.compare_cont_refl. by destruct s.
Qed.

(** C9 as the code has it: the length is the binary32 evaluation of the
    square root of the sum of the six squared differences; it is [+0] from a
    vector of finite components to itself; and it is the same float in both
    directions, so that the two compare equal unless they are NaN. *)
Theorem vector_length_spec :
  (∀ a b, axis_get_vector_length a b = euclidean6 a b) ∧
  (∀ a, (∀ axis, axis < AXES → f_finite (a axis) = true) →
        axis_get_vector_length a a = f_zero) ∧
  (∀ a b, axis_get_vector_length a b = axis_get_vector_length b a) ∧
  (∀ a b, axis_get_vector_length a b ≠ S754_nan →
          f_eq (axis_get_vector_length a b) (axis_get_vector_length b a) = true).
Proof.
  assert (Hsym : ∀ a b, axis_get_vector_length a b = axis_get_vector_length b a).
  { intros a b. unfold axis_get_vector_length.
    by rewrite (square_sub_comm (a AXIS_X)), (square_sub_comm (a AXIS_Y)),
      (square_sub_comm (a AXIS_Z)), (square_sub_comm (a AXIS_A)),
      (square_sub_comm (a AXIS_B)), (square_sub_comm (a AXIS_C)). }
  split_and!.
  - intros a b.
    unfold euclidean6, axis_get_vector_length, AXES, AXIS_X, AXIS_Y, AXIS_Z, AXIS_A,
      AXIS_B, AXIS_C.
    cbn [seq foldl Nat.sub]. reflexivity.
  - intros a Ha. unfold axis_get_vector_length.
    rewrite !f_sub_diag by (apply Ha; unfold AXES, AXIS_X, AXIS_Y, AXIS_Z, AXIS_A,
                             AXIS_B, AXIS_C; lia).
    vm_compute. reflexivity.
  - exact Hsym.
  - intros a b Hnan. rewrite <- (Hsym a b). by apply f_eq_refl.
Qed.

(** * Further properties *)

(** ** Axis letters *)

Lemma strchr_Some s c : ∀ i j,
  strchr s c i = Some j →
  i ≤ j ≤ i + length s ∧
  (j < i + length s → s !! (j - i) = Some c) ∧
  (j = i + length s → c = zero ∧ c ∉ s).
Proof.
  induction s as [|x s IH]; intros i j Hj; simpl in *.
  - case_decide; simplify_eq. split; [lia|]. split; [lia|].
    intros _. split; [done|]. apply not_elem_of_nil.
  - case_decide as Hx.
    + simplify_eq. split; [lia|]. split; [|lia]. intros _.
      by replace (j - j) with 0 by lia.
    + destruct (IH _ _ Hj) as (Hr & Hin & Hend). split; [lia|]. split.
      * intros Hlt. replace (j - i) with (S (j - S i)) by lia. simpl. apply Hin. lia.
      * intros Heq. destruct Hend as [Hz Hn]; [lia|]. split; [done|].
        intros [->|Hc]%elem_of_cons; [done|by apply Hn].
Qed.

Lemma strchr_None s c : ∀ i, strchr s c i = None ↔ c ≠ zero ∧ c ∉ s.
Proof.
  induction s as [|x s IH]; intros i; simpl.
  - case_decide; split; try done.
    + intros [Hz _]. done.
    + intros _. split; [done|apply not_elem_of_nil].
  - case_decide as Hx.
    + subst. split; [done|]. intros [_ Hn]. exfalso. apply Hn. by left.
    + rewrite IH. split; intros [Hz Hn]; (split; [done|]).
      * intros [->|Hc]%elem_of_cons; [done|by apply Hn].
      * intros Hc. apply Hn. by right.
Qed.

Lemma toupper_idemp c : toupper (toupper c) = toupper c.
Proof. destruct c as [[] [] [] [] [] [] [] []]; reflexivity. Qed.

Lemma toupper_zero c : toupper c = zero ↔ c = zero.
Proof.
  split; [|by intros ->].
  destruct c as [[] [] [] [] [] [] [] []]; vm_compute; intros H;
    first [reflexivity | discriminate].
Qed.

(** X1: [axis_get_id] undoes [axis_get_char] on the six axes; any other
    number, negative ones included, gives ['?'], which is no axis letter. *)
Theorem axis_get_id_of_char (axis : Z) :
  ((0 ≤ axis < Z.of_nat AXES)%Z → axis_get_id (axis_get_char axis) = axis) ∧
  (¬ (0 ≤ axis < Z.of_nat AXES)%Z →
   axis_get_char axis = "?"%char ∧ axis_get_id (axis_get_char axis) = (-1)%Z).
Proof.
  split.
  - intros Hax. unfold AXES in Hax.
    assert (axis = 0 ∨ axis = 1 ∨ axis = 2 ∨ axis = 3 ∨ axis = 4 ∨ axis = 5)%Z
      as [->|[->|[->|[->|[->| ->]]]]] by lia; reflexivity.
  - intros Hax. unfold axis_get_char. rewrite decide_True by lia. by split.
Qed.

(** X2: on a character of the 7-bit set, where [toupper] is defined whether
    [char] is signed or not, [axis_get_id] takes a letter in either case; it
    gives [-1] for what is no axis letter, except that the zero character is
    found at the terminator of the string of letters and gives 9.  The
    letters U, V, W and the zero character give a number that is not below
    [AXES]. *)
Theorem axis_get_id_cases (c : ascii) :
  nat_of_ascii c < 128 →
  axis_get_id c = axis_get_id (toupper c) ∧
  (-1 ≤ axis_get_id c ≤ 9)%Z ∧
  (axis_get_id c = 9%Z ↔ c = zero) ∧
  (axis_get_id c = (-1)%Z ↔ c ≠ zero ∧ toupper c ∉ axis_chars) ∧
  ((0 ≤ axis_get_id c < Z.of_nat AXES)%Z →
   axis_get_char (axis_get_id c) = toupper c) ∧
  ((Z.of_nat AXES ≤ axis_get_id c)%Z ↔
   c = zero ∨ toupper c = "U"%char ∨ toupper c = "V"%char ∨ toupper c = "W"%char).
Proof.
  intros _.
  split; [unfold axis_get_id; by rewrite toupper_idemp|].
  unfold axis_get_id.
  destruct (strchr axis_chars (toupper c) 0) as [j|] eqn:Hj.
  - destruct (strchr_Some _ _ _ _ Hj) as (Hr & Hin & Hend). simpl in Hr, Hin, Hend.
    rewrite Nat.sub_0_r in Hin.
    split; [lia|]. split.
    { split.
      - intros H9. apply toupper_zero. apply Hend. lia.
      - intros ->. by injection Hj as <-. }
    split.
    { split; [lia|]. intros [Hz Hn]. exfalso.
      destruct (decide (j = 9)) as [->|Hne].
      - apply Hz, toupper_zero, Hend. done.
      - apply Hn. apply list_elem_of_lookup. exists j. apply Hin. lia. }
    split.
    { intros Hax. unfold AXES in Hax. specialize (Hin ltac:(lia)).
      unfold axis_get_char. rewrite decide_False by (unfold AXES; lia).
      rewrite Nat2Z.id.
      destruct j as [|[|[|[|[|[|]]]]]]; try lia; simpl in *; congruence. }
    split.
    + intros Hax. unfold AXES in Hax.
      destruct (decide (j = 9)) as [->|Hne].
      * left. apply toupper_zero, Hend. done.
      * right. specialize (Hin ltac:(lia)).
        destruct j as [|[|[|[|[|[|[|[|[|]]]]]]]]]; try lia; simpl in *; simplify_eq; auto.
    + intros [->|[Hc|[Hc|Hc]]]; [by injection Hj as <-| | |];
        rewrite Hc in Hj; injection Hj as <-; unfold AXES; lia.
  - apply strchr_None in Hj as [Hz Hn].
    split; [lia|]. split.
    { split; [lia|]. intros ->. done. }
    split.
    { split; [|done]. intros _. split; [|done]. intros ->. done. }
    split; [lia|]. split; [unfold AXES; lia|].
    intros [->|[Hc|[Hc|Hc]]]; [done| | |]; exfalso; apply Hn; rewrite Hc;
      repeat (first [by apply list_elem_of_here | apply list_elem_of_further]).
Qed.

(** ** The axis map, run from any map *)

(** Either no motor below [n] is configured for the axis, or there is a first
    one. *)
Lemma first_motor_dec (cfg : nat → Z) (axis n : nat) :
  (∀ m, m < n → cfg m ≠ Z.of_nat axis) ∨
  (∃ k, k < n ∧ cfg k = Z.of_nat axis ∧ ∀ k', k' < k → cfg k' ≠ Z.of_nat axis).
Proof.
  induction n as [|n [Hno|(k & Hk & Hc & Hf)]].
  - left. intros m Hm. lia.
  - destruct (decide (cfg n = Z.of_nat axis)) as [Heq|Hne].
    + right. exists n. split; [lia|]. split; [done|]. intros k' Hk'. apply Hno. lia.
    + left. intros m Hm. destruct (decide (m = n)) as [->|]; [done|]. apply Hno. lia.
  - right. exists k. split; [lia|]. done.
Qed.

Lemma axis_map_motors_length cfg mm : length (axis_map_motors cfg mm) = length mm.
Proof. apply map_axes_length. Qed.

Lemma axis_map_motors_outside cfg mm i :
  AXES ≤ i → axis_map_motors cfg mm !! i = mm !! i.
Proof.
  intros Hi. apply map_axes_other. intros a Ha ->. apply elem_of_seq in Ha. lia.
Qed.

(** X3: after [axis_map_motors], whatever the map held, an axis some motor is
    configured for maps to the lowest-numbered such motor, and an axis no
    motor is configured for keeps its entry; run from the initial map, every
    entry is [-1] or a motor that is configured for the axis. *)
Theorem axis_map_motors_first_match motor_get_axis motor_map axis :
  axis < AXES → length motor_map = AXES →
  ((∃ k, k < MOTORS ∧ motor_get_axis k = Z.of_nat axis ∧
         (∀ k', k' < k → motor_get_axis k' ≠ Z.of_nat axis) ∧
         axis_get_motor (axis_map_motors motor_get_axis motor_map) axis
           = Some (Z.of_nat k))
   ∨
   ((∀ m, m < MOTORS → motor_get_axis m ≠ Z.of_nat axis) ∧
    axis_get_motor (axis_map_motors motor_get_axis motor_map) axis
      = axis_get_motor motor_map axis))
  ∧
  (∀ m, axis_get_motor (axis_map_motors motor_get_axis motor_map_initial) axis = Some m →
        m = (-1)%Z ∨
        (∃ k, m = Z.of_nat k ∧ k < MOTORS ∧ motor_get_axis k = Z.of_nat axis)).
Proof.
  intros Hax Hlen.
  assert (Hgen : ∀ mm, length mm = AXES →
    (∃ k, k < MOTORS ∧ motor_get_axis k = Z.of_nat axis ∧
          (∀ k', k' < k → motor_get_axis k' ≠ Z.of_nat axis) ∧
          axis_get_motor (axis_map_motors motor_get_axis mm) axis = Some (Z.of_nat k))
    ∨ ((∀ m, m < MOTORS → motor_get_axis m ≠ Z.of_nat axis) ∧
       axis_get_motor (axis_map_motors motor_get_axis mm) axis = axis_get_motor mm axis)).
  { intros mm Hmm.
    destruct (first_motor_dec motor_get_axis axis MOTORS) as [Hno|(k & Hk & Hc & Hf)].
    - right. split; [done|]. by apply axis_map_motors_unconfigured.
    - left. exists k. split_and!; try done.
      apply axis_map_motors_configured; (done || lia). }
  split; [by apply Hgen|].
  intros m Hm.
  destruct (Hgen motor_map_initial) as [(k & Hk & Hc & _ & Hk')|[_ Hsame]].
  - unfold motor_map_initial. by rewrite length_replicate.
  - right. exists k. split; [congruence|done].
  - left. rewrite Hsame in Hm. unfold axis_get_motor, motor_map_initial in Hm.
    apply lookup_replicate in Hm as [-> _]. done.
Qed.

(** X4: [axis_map_motors] writes inside the array only, and running it a
    second time under the same motor configuration changes nothing. *)
Theorem axis_map_motors_idempotent motor_get_axis motor_map :
  length (axis_map_motors motor_get_axis motor_map) = length motor_map ∧
  (∀ i, AXES ≤ i →
        axis_map_motors motor_get_axis motor_map !! i = motor_map !! i) ∧
  axis_map_motors motor_get_axis (axis_map_motors motor_get_axis motor_map)
    = axis_map_motors motor_get_axis motor_map.
Proof.
  split; [apply axis_map_motors_length|]. split; [intros; by apply axis_map_motors_outside|].
  apply list_eq. intros i.
  destruct (decide (i < AXES)) as [Hi|Hi]; [|apply axis_map_motors_outside; lia].
  destruct (decide (i < length motor_map)) as [Hl|Hl].
  - destruct (first_motor_dec motor_get_axis i MOTORS) as [Hno|(k & Hk & Hc & Hf)].
    + by apply axis_map_motors_unconfigured.
    + rewrite !(axis_map_motors_configured _ _ i k);
        rewrite ?axis_map_motors_length; done.
  - rewrite !lookup_ge_None_2; rewrite ?axis_map_motors_length; (done || lia).
Qed.

(** X5: an axis no motor is configured for reads, after [axis_map_motors]
    from the initial map, a velocity, acceleration and jerk limit of zero and
    is not enabled, whatever the motors' limits and enable flags are; an axis
    some motor is configured for reads the limits of the first such motor,
    scaled, and is enabled exactly when that motor is and its scaled velocity
    limit is not zero. *)
Theorem axis_limits_follow_map motor_get_axis axes motor_is_enabled axis :
  axis < AXES →
  let mm := axis_map_motors motor_get_axis motor_map_initial in
  ((∀ m, m < MOTORS → motor_get_axis m ≠ Z.of_nat axis) →
   axis_get_velocity_max mm axes axis = Some f_zero ∧
   axis_get_accel_max mm axes axis = Some f_zero ∧
   axis_get_jerk_max mm axes axis = Some f_zero ∧
   axis_is_enabled motor_is_enabled mm axes axis = Some false) ∧
  (∀ k a,
     k < MOTORS → motor_get_axis k = Z.of_nat axis →
     (∀ k', k' < k → motor_get_axis k' ≠ Z.of_nat axis) →
     axes !! k = Some a →
     axis_get_velocity_max mm axes axis
       = Some (f_mul (velocity_max a) VELOCITY_MULTIPLIER) ∧
     axis_get_accel_max mm axes axis = Some (f_mul (accel_max a) ACCEL_MULTIPLIER) ∧
     axis_get_jerk_max mm axes axis = Some (f_mul (jerk_max a) JERK_MULTIPLIER) ∧
     axis_is_enabled motor_is_enabled mm axes axis
       = Some (motor_is_enabled (Z.of_nat k)
               && negb (fp_ZERO (f_mul (velocity_max a) VELOCITY_MULTIPLIER)))).
Proof.
  intros Hax mm. split.
  - intros Hno.
    assert (Hm : axis_get_motor mm axis = Some (-1)%Z).
    { unfold mm, axis_get_motor. rewrite axis_map_motors_unconfigured by done.
      by apply lookup_replicate_2. }
    unfold axis_get_velocity_max, axis_get_accel_max, axis_get_jerk_max, axis_is_enabled.
    rewrite Hm. done.
  - intros k a Hk Hc Hf Ha.
    assert (Hm : axis_get_motor mm axis = Some (Z.of_nat k)).
    { unfold mm, axis_get_motor. by apply axis_map_motors_configured. }
    assert (Hat : axes_at axes (Z.of_nat k) = Some a).
    { unfold axes_at. rewrite decide_True by lia. by rewrite Nat2Z.id. }
    unfold axis_get_velocity_max, axis_get_accel_max, axis_get_jerk_max, axis_is_enabled.
    rewrite Hm. simpl. rewrite !decide_False by lia. rewrite Hat. simpl.
    split_and!; try done.
    destruct (motor_is_enabled (Z.of_nat k)); [|done].
    unfold axis_get_velocity_max. rewrite Hm. simpl. rewrite decide_False by lia.
    rewrite Hat. done.
Qed.

(** X6: [set_velocity_max] fails exactly outside the array of motors; when
    it succeeds the motor reads the new value, its other two limits and all
    other motors read as before, and an axis mapped to that motor reads the
    new value scaled. *)
Theorem set_velocity_max_get motor value axes :
  (set_velocity_max motor value axes = None ↔
   ¬ (0 ≤ motor < Z.of_nat (length axes))%Z) ∧
  (∀ axes', set_velocity_max motor value axes = Some axes' →
     length axes' = length axes ∧
     get_velocity_max axes' motor = Some value ∧
     get_accel_max axes' motor = get_accel_max axes motor ∧
     get_jerk_max axes' motor = get_jerk_max axes motor ∧
     (∀ other, other ≠ motor → axes_at axes' other = axes_at axes other) ∧
     (∀ motor_map axis,
        axis_get_motor motor_map axis = Some motor →
        axis_get_velocity_max motor_map axes' axis
          = Some (f_mul value VELOCITY_MULTIPLIER))).
Proof.
  unfold set_velocity_max, axes_at. split.
  - case_decide as Hm.
    + destruct (axes !! Z.to_nat motor) as [a|] eqn:Ha; simpl.
      * apply lookup_lt_Some in Ha. split; [done|]. lia.
      * apply lookup_ge_None in Ha. split; [lia|done].
    + simpl. split; [lia|done].
  - intros axes' Hset. case_decide as Hm; [|done].
    destruct (axes !! Z.to_nat motor) as [a|] eqn:Ha; [|done]. simpl in Hset.
    injection Hset as <-. pose proof (lookup_lt_Some _ _ _ Ha) as Hlt.
    unfold get_velocity_max, get_accel_max, get_jerk_max, axes_at.
    rewrite !decide_True by done.
    rewrite list_lookup_insert_eq by done. rewrite Ha. simpl.
    split; [by rewrite length_insert|]. split_and!; try done.
    + intros other Hne. case_decide; [|done].
      apply list_lookup_insert_ne. lia.
    + intros motor_map axis Hax. unfold axis_get_velocity_max. rewrite Hax. simpl.
      rewrite decide_False by lia. unfold axes_at. rewrite decide_True by done.
      rewrite list_lookup_insert_eq by done. done.
Qed.

(** ** The sign of the vector length *)

Lemma iter_pos_keeps {A} (P : A → Prop) (f : A → A) p :
  (∀ x, P x → P (f x)) → ∀ x, P x → P (SpecFloat.iter_pos f p x).
Proof.
  intros Hf. induction p as [p IH|p IH|]; intros x Hx; simpl; auto.
Qed.

Lemma shr_1_nonneg mrs : (0 ≤ shr_m mrs)%Z → (0 ≤ shr_m (shr_1 mrs))%Z.
Proof.
  destruct mrs as [m r t]. simpl. destruct m as [|[p|p|]|[p|p|]]; simpl; lia.
Qed.

Lemma shr_fexp_nonneg m e l :
  (0 ≤ m)%Z → (0 ≤ shr_m (fst (shr_fexp prec32 emax32 m e l)))%Z.
Proof.
  intros Hm. unfold shr_fexp, shr.
  assert (H0 : (0 ≤ shr_m (shr_record_of_loc m l))%Z) by (by destruct l as [|[]]).
  destruct (fexp prec32 emax32 (Zdigits2 m + e) - e)%Z; simpl; try done.
  by apply (iter_pos_keeps (λ x, (0 ≤ shr_m x)%Z)); [apply shr_1_nonneg|].
Qed.

Lemma round_nearest_even_nonneg m l : (0 ≤ m)%Z → (0 ≤ round_nearest_even m l)%Z.
Proof.
  intros Hm. unfold round_nearest_even. destruct l as [|[]]; try done.
  - destruct (Z.even m); lia.
  - lia.
Qed.

Lemma binary_round_aux_nonneg m e l :
  (0 ≤ m)%Z → f_nonneg (binary_round_aux prec32 emax32 false m e l) = true.
Proof.
  intros Hm. unfold binary_round_aux.
  pose proof (shr_fexp_nonneg m e l Hm) as H1.
  destruct (shr_fexp prec32 emax32 m e l) as [mrs' e']. simpl in H1.
  pose proof (shr_fexp_nonneg _ e' loc_Exact
                (round_nearest_even_nonneg _ (loc_of_shr_record mrs') H1)) as H2.
  destruct (shr_fexp prec32 emax32 _ e' loc_Exact) as [mrs'' e'']. simpl in H2.
  destruct (shr_m mrs''); [done| |lia].
  by destruct (Z.leb e'' (emax32 - prec32)).
Qed.

Lemma binary_round_nonneg m e :
  f_nonneg (binary_round prec32 emax32 false m e) = true.
Proof.
  unfold binary_round. destruct (shl_align _ _ _) as [mz ez].
  by apply binary_round_aux_nonneg.
Qed.

Lemma f_nonneg_not_nan x : f_nonneg x = true → x ≠ S754_nan.
Proof. by intros Hx ->. Qed.

Lemma with_sign_not_nan s x : x ≠ S754_nan → with_sign s x ≠ S754_nan.
Proof. by destruct x. Qed.

Lemma f_sub_finite x y :
  f_finite x = true → f_finite y = true → f_sub x y ≠ S754_nan.
Proof.
  destruct x as [sx|sx| |sx mx ex], y as [sy|sy| |sy my ey]; intros Hx Hy; try done.
  - by destruct sx, sy.
  - unfold f_sub, SFsub.
    destruct (_ - _)%Z as [|p|p]; simpl; [done| |].
    + apply f_nonneg_not_nan, binary_round_nonneg.
    + rewrite binary_round_sign. apply with_sign_not_nan, f_nonneg_not_nan,
        binary_round_nonneg.
Qed.

Lemma square_nonneg x : x ≠ S754_nan → f_nonneg (square x) = true.
Proof.
  destruct x as [s|s| |s m e]; intros Hx; try done.
  - by destruct s.
  - by destruct s.
  - unfold square, f_mul, SFmul.
    replace (xorb s s) with false by (by destruct s).
    by apply binary_round_aux_nonneg.
Qed.

Lemma square_nan : square S754_nan = S754_nan.
Proof. reflexivity. Qed.

Lemma f_add_nonneg x y :
  f_nonneg x = true → f_nonneg y = true → f_nonneg (f_add x y) = true.
Proof.
  destruct x as [[]|[]| |[] mx ex], y as [[]|[]| |[] my ey]; intros Hx Hy; try done.
  unfold f_add, SFadd. simpl. apply binary_round_nonneg.
Qed.

Lemma f_add_nan_l y : f_add S754_nan y = S754_nan.
Proof. reflexivity. Qed.

Lemma f_add_nan_r x : f_add x S754_nan = S754_nan.
Proof. by destruct x as [[]|[]| |[] ? ?]. Qed.

Lemma f_sqrt_nonneg x : f_nonneg x = true → f_nonneg (f_sqrt x) = true.
Proof.
  destruct x as [[]|[]| |[] m e]; intros Hx; try done.
  unfold f_sqrt, SFsqrt, SFsqrt_core_binary.
  set (m' := match (e - 2 * _)%Z with Z0 => Z.pos m | Zpos _ => _ | Zneg _ => 0%Z end).
  assert (Hm' : (0 ≤ m')%Z).
  { subst m'. destruct (e - 2 * _)%Z; [lia| |lia]. apply Z.shiftl_nonneg. lia. }
  pose proof (Z.sqrtrem_spec m' Hm') as Hs.
  destruct (Z.sqrtrem m') as [q r].
  apply binary_round_aux_nonneg. lia.
Qed.

(** The length is built from six squares by five sums and a root: each is
    non-negative or NaN. *)
Lemma nonneg_or_nan_sum x y :
  (f_nonneg x = true ∨ x = S754_nan) → (f_nonneg y = true ∨ y = S754_nan) →
  f_nonneg (f_add x y) = true ∨ f_add x y = S754_nan.
Proof.
  intros [Hx| ->] [Hy| ->].
  - left. by apply f_add_nonneg.
  - right. apply f_add_nan_r.
  - by right.
  - by right.
Qed.

Lemma nonneg_or_nan_square x : f_nonneg (square x) = true ∨ square x = S754_nan.
Proof.
  destruct x as [s|s| |s m e]; [left|left|by right|left]; by apply square_nonneg.
Qed.

(** X7: [axis_get_vector_length] never returns a negative number, a
    negative zero or a negative infinity: the result is non-negative or NaN,
    and it is not NaN when the twelve components are finite. *)
Theorem vector_length_sign a b :
  (f_nonneg (axis_get_vector_length a b) = true
   ∨ axis_get_vector_length a b = S754_nan) ∧
  ((∀ axis, axis < AXES → f_finite (a axis) = true ∧ f_finite (b axis) = true) →
   f_nonneg (axis_get_vector_length a b) = true).
Proof.
  unfold axis_get_vector_length. split.
  - match goal with |- context [f_sqrt ?s] =>
      assert (Hs : f_nonneg s = true ∨ s = S754_nan)
        by (repeat apply nonneg_or_nan_sum; apply nonneg_or_nan_square);
      destruct Hs as [Hs| ->]; [left; by apply f_sqrt_nonneg|by right]
    end.
  - intros Hfin.
    assert (Hsq : ∀ axis, axis < AXES →
              f_nonneg (square (f_sub (a axis) (b axis))) = true).
    { intros axis Hax. destruct (Hfin axis Hax). by apply square_nonneg, f_sub_finite. }
    apply f_sqrt_nonneg.
    repeat apply f_add_nonneg; apply Hsq;
      unfold AXES, AXIS_X, AXIS_Y, AXIS_Z, AXIS_A, AXIS_B, AXIS_C; lia.
Qed.

(** ** One step of each queue operation, with the blocks it leaves *)

Lemma slots_ok_insert bf ri na ri' na' i b' :
  slots_ok bf ri na →
  i < length bf →
  (∀ j b, j < length bf → j ≠ i →
          slot_ok na (ring_off ri j) b → slot_ok na' (ring_off ri' j) b) →
  slot_ok na' (ring_off ri' i) b' →
  slots_ok (<[i := b']> bf) ri' na'.
Proof.
  intros Hs Hi Hmove Hnew j bj Hj.
  destruct (decide (i = j)) as [->|Hne].
  - rewrite list_lookup_insert_eq in Hj by done. by simplify_eq.
  - rewrite list_lookup_insert_ne in Hj by done.
    apply Hmove; [by eapply lookup_lt_Some | done | by apply Hs].
Qed.

Lemma set_buffer_state_same s b : buffer_state b = s → set_buffer_state s b = b.
Proof. destruct b. simpl. by intros ->. Qed.

Lemma get_write_step σ ri na nl :
  ring_inv σ ri na nl → slots_ok (mb_bf (mb σ)) ri na →
  na + nl < PLANNER_BUFFER_POOL_SIZE →
  ∃ b σ',
    mb_bf (mb σ) !! ring_idx ri (na + nl) = Some b ∧
    buffer_state b = MP_BUFFER_EMPTY ∧
    mp_get_write_buffer σ = Some (Some (ring_idx ri (na + nl)), σ') ∧
    σ' = with_mb (pool (buffers_available (mb σ) - 1) (Some (ring_idx ri (na + S nl)))
                       (mb_q (mb σ)) (mb_r (mb σ))
                       (<[ring_idx ri (na + nl) := loading_of b]> (mb_bf (mb σ)))) σ ∧
    ring_inv σ' ri na (S nl) ∧ slots_ok (mb_bf (mb σ')) ri na.
Proof.
  intros Hinv Hsl Hlt.
  destruct (get_write_ok σ ri na nl Hinv Hlt) as (b & σ' & Hb & He & Hg & Hσ' & Hinv').
  exists b, σ'. split_and!; try done.
  pose proof Hinv as []. subst σ'. simpl.
  eapply slots_ok_insert; eauto.
  - by eapply lookup_lt_Some.
  - simpl. rewrite ring_off_idx by lia. split; [lia|]. split; [done|lia].
Qed.

Lemma unget_step σ ri na nl :
  ring_inv σ ri na (S nl) → slots_ok (mb_bf (mb σ)) ri na →
  ∃ bj σ',
    mb_bf (mb σ) !! ring_idx ri (na + nl) = Some bj ∧
    buffer_state bj = MP_BUFFER_LOADING ∧
    mp_unget_write_buffer σ = Some ((), σ') ∧
    σ' = with_mb (pool (uint8 (buffers_available (mb σ) + 1))
                       (Some (ring_idx ri (na + nl))) (mb_q (mb σ)) (mb_r (mb σ))
                       (<[ring_idx ri (na + nl) := set_buffer_state MP_BUFFER_EMPTY bj]>
                          (mb_bf (mb σ)))) σ ∧
    ring_inv σ' ri na nl ∧ slots_ok (mb_bf (mb σ')) ri na.
Proof.
  intros Hinv Hsl. pose proof Hinv as [].
  destruct (unget_ok σ ri na nl Hinv) as (σ' & Hu & Hinv' & _).
  set (i := ring_idx ri (na + S nl)). set (j := ring_idx ri (na + nl)).
  assert (Hi : i < PLANNER_BUFFER_POOL_SIZE) by (apply ring_idx_lt; lia).
  assert (Hj : j < PLANNER_BUFFER_POOL_SIZE) by (apply ring_idx_lt; lia).
  destruct (ring_inv_block _ _ _ _ i Hinv Hi) as (b & Hb & _ & Hpv & _).
  destruct (ring_inv_block _ _ _ _ j Hinv Hj) as (bj & Hbj & _ & _ & Hstj).
  assert (Hpv' : pv b = Some j).
  { rewrite Hpv. f_equal. subst i j. replace (na + S nl) with (S (na + nl)) by lia.
    apply pred_idx; lia. }
  assert (Hl : buffer_state bj = MP_BUFFER_LOADING).
  { subst j. rewrite ring_off_idx in Hstj by lia.
    destruct (state_ok_cases _ _ _ _ Hstj) as [[]|[[]|[]]]; (lia || done). }
  pose proof (mp_unget_write_buffer_eq σ i b j bj inv_w0 Hb Hpv' Hbj) as Heq.
  exists bj, σ'. split_and!; try done; [congruence|].
  assert (σ' = with_mb (pool (uint8 (buffers_available (mb σ) + 1)) (Some j) (mb_q (mb σ))
                             (mb_r (mb σ))
                             (<[j := set_buffer_state MP_BUFFER_EMPTY bj]> (mb_bf (mb σ)))) σ)
    as -> by congruence.
  simpl. eapply slots_ok_insert; eauto; [lia|].
  pose proof (Hsl j bj Hbj) as [H1 H2]. subst j. rewrite ring_off_idx in * by lia.
  split; [lia|]. simpl. done.
Qed.

Lemma commit_step ty σ ri na nl :
  ring_inv σ ri na (S nl) → slots_ok (mb_bf (mb σ)) ri na →
  ∃ b σ',
    mb_bf (mb σ) !! ring_idx ri na = Some b ∧
    buffer_state b = MP_BUFFER_LOADING ∧
    mp_commit_write_buffer ty σ = Some ((), σ') ∧
    σ' = with_calls (calls σ ++ [st_request_exec_move])
           (with_mb (pool (buffers_available (mb σ)) (mb_w (mb σ))
                          (Some (ring_idx ri (S na))) (mb_r (mb σ))
                          (<[ring_idx ri na := queued_of ty b]> (mb_bf (mb σ)))) σ) ∧
    ring_inv σ' ri (S na) nl ∧ slots_ok (mb_bf (mb σ')) ri (S na).
Proof.
  intros Hinv Hsl. pose proof Hinv as [].
  destruct (commit_ok ty σ ri na nl Hinv) as (σ' & Hc & Hinv').
  set (i := ring_idx ri na).
  assert (Hi : i < PLANNER_BUFFER_POOL_SIZE) by (apply ring_idx_lt; lia).
  destruct (ring_inv_block _ _ _ _ i Hinv Hi) as (b & Hb & Hnx & _ & Hst).
  assert (Hl : buffer_state b = MP_BUFFER_LOADING).
  { subst i. rewrite ring_off_idx in Hst by lia.
    destruct (state_ok_cases _ _ _ _ Hst) as [[]|[[]|[]]]; (lia || done). }
  pose proof (mp_commit_write_buffer_eq ty σ i b inv_q0 Hb) as Heq.
  assert (Hnx' : nx b = Some (ring_idx ri (S na))).
  { rewrite Hnx. f_equal. subst i. apply bump_idx; lia. }
  rewrite Hnx' in Heq.
  exists b, σ'. split_and!; try done; [congruence|].
  assert (mb_bf (mb σ') = <[i := queued_of ty b]> (mb_bf (mb σ))) as ->
    by (rewrite Heq in Hc; by injection Hc as <-).
  eapply slots_ok_insert; eauto; [lia| |].
  - intros j bj Hj Hne [H1 H2]. rewrite inv_len0 in Hj.
    pose proof (other_offset ri na j inv_ri0 Hj Hne). split; [intros; apply H1; lia|].
    rewrite H2. lia.
  - subst i. rewrite ring_off_idx by lia. simpl. split; [done|]. split; [lia|done].
Qed.

Lemma get_run_step σ ri na nl :
  ring_inv σ ri na nl → slots_ok (mb_bf (mb σ)) ri na →
  ∃ b σ',
    mb_bf (mb σ) !! ri = Some b ∧
    mp_get_run_buffer σ = Some (if decide (0 < na) then Some ri else None, σ') ∧
    σ' = with_mb (pool (buffers_available (mb σ)) (mb_w (mb σ)) (mb_q (mb σ))
                       (mb_r (mb σ))
                       (if decide (0 < na)
                        then <[ri := set_buffer_state MP_BUFFER_RUNNING b]> (mb_bf (mb σ))
                        else mb_bf (mb σ))) σ ∧
    ring_inv σ' ri na nl ∧ slots_ok (mb_bf (mb σ')) ri na.
Proof.
  intros Hinv Hsl. pose proof Hinv as [].
  destruct (get_run_ok σ ri na nl Hinv) as (σ' & Hg & Hinv' & _ & Hsame).
  destruct (ring_inv_block _ _ _ _ ri Hinv) as (b & Hb & _ & _ & Hst); [done|].
  rewrite ring_off_self in Hst.
  exists b, σ'. split; [done|]. split; [done|].
  assert (Hσ' : σ' = with_mb (pool (buffers_available (mb σ)) (mb_w (mb σ)) (mb_q (mb σ))
                       (mb_r (mb σ))
                       (if decide (0 < na)
                        then <[ri := set_buffer_state MP_BUFFER_RUNNING b]> (mb_bf (mb σ))
                        else mb_bf (mb σ))) σ).
  { case_decide as Hna.
    - destruct (decide (buffer_state b = MP_BUFFER_RUNNING)) as [Hr|Hr].
      + rewrite (mp_get_run_buffer_running σ ri b inv_r0 Hb Hr) in Hg.
        injection Hg as <-. rewrite set_buffer_state_same by done.
        rewrite list_insert_id by done. by rewrite with_mb_same.
      + assert (Hqp : buffer_state b = MP_BUFFER_QUEUED ∨ buffer_state b = MP_BUFFER_PENDING).
        { destruct (state_ok_cases _ _ _ _ Hst) as [[_ [?|[?|?]]]|[[]|[]]];
            try lia; try done; auto. }
        rewrite (mp_get_run_buffer_fresh σ ri b inv_r0 Hb Hqp) in Hg. by injection Hg as <-.
    - rewrite Hsame by lia. by rewrite with_mb_same. }
  split; [done|]. split; [done|]. rewrite Hσ'. simpl.
  case_decide; [|done].
  eapply slots_ok_insert; eauto; [lia|].
  pose proof (Hsl ri b Hb) as [H1 H2]. rewrite ring_off_self in *. split; [lia|done].
Qed.

Lemma free_run_step σ ri na nl :
  ring_inv σ ri na nl → slots_ok (mb_bf (mb σ)) ri na →
  state_at σ (mb_r (mb σ)) = Some MP_BUFFER_RUNNING →
  ∃ na' b bj σ',
    na = S na' ∧
    mb_bf (mb σ) !! ri = Some b ∧
    <[ri := cleared_of b]> (mb_bf (mb σ)) !! _bump ri = Some bj ∧
    mp_free_run_buffer σ = Some (bool_decide (na' + nl = 0), σ') ∧
    σ' = with_mb (pool (uint8 (buffers_available (mb σ) + 1)) (mb_w (mb σ)) (mb_q (mb σ))
                       (Some (_bump ri))
                       (if decide (buffer_state bj = MP_BUFFER_QUEUED)
                        then <[_bump ri := set_buffer_state MP_BUFFER_PENDING bj]>
                               (<[ri := cleared_of b]> (mb_bf (mb σ)))
                        else <[ri := cleared_of b]> (mb_bf (mb σ)))) σ ∧
    ring_inv σ' (_bump ri) na' nl ∧ slots_ok (mb_bf (mb σ')) (_bump ri) na'.
Proof.
  intros Hinv Hsl Hrun. pose proof Hinv as [].
  destruct (free_run_ok σ ri na nl Hinv Hrun) as (na' & σ' & -> & Hf & Hinv' & _).
  destruct (ring_inv_block _ _ _ _ ri Hinv) as (b & Hb & Hnx & _ & _); [done|].
  assert (Hj : _bump ri < PLANNER_BUFFER_POOL_SIZE) by (apply bump_lt; lia).
  destruct (lookup_lt_is_Some_2 (<[ri := cleared_of b]> (mb_bf (mb σ))) (_bump ri))
    as [bj Hbj]; [rewrite length_insert; lia|].
  pose proof (mp_free_run_buffer_eq σ ri b (_bump ri) bj inv_r0 Hb Hnx Hbj) as Heq.
  exists na', b, bj, σ'. split_and!; try done; [congruence|].
  assert (mb_bf (mb σ') =
          if decide (buffer_state bj = MP_BUFFER_QUEUED)
          then <[_bump ri := set_buffer_state MP_BUFFER_PENDING bj]>
                 (<[ri := cleared_of b]> (mb_bf (mb σ)))
          else <[ri := cleared_of b]> (mb_bf (mb σ))) as ->
    by (rewrite Heq in Hf; by injection Hf as _ <-).
  assert (Hs1 : slots_ok (<[ri := cleared_of b]> (mb_bf (mb σ))) (_bump ri) na').
  { eapply slots_ok_insert; eauto; [lia| |].
    - intros j bk Hjl Hne [H1 H2]. rewrite inv_len0 in Hjl.
      pose proof (ring_off_bump ri j inv_ri0 Hjl Hne) as Hoff.
      split; [intros; apply H1; lia|]. rewrite H2. lia.
    - rewrite ring_off_bump_self by done. simpl. split; [lia|]. split; [done|lia]. }
  case_decide; [|done].
  eapply slots_ok_insert; eauto; [rewrite length_insert; lia|].
  pose proof (Hs1 _ bj Hbj) as [H1 H2]. rewrite ring_off_self in *. split; [lia|done].
Qed.

Lemma init_slots σ0 σ :
  0 < PLANNER_BUFFER_POOL_SIZE ≤ 255 →
  mp_init_buffers σ0 = Some ((), σ) →
  ring_inv σ 0 0 0 ∧ slots_ok (mb_bf (mb σ)) 0 0.
Proof.
  intros Hn Hi. destruct (init_ok σ0 Hn) as (σ1 & H1 & Hinv & _).
  assert (σ1 = σ) as -> by congruence. split; [done|].
  intros i b Hb. pose proof (inv_states _ _ _ _ Hinv i b Hb) as Hs.
  pose proof (inv_count _ _ _ _ Hinv) as Hc.
  unfold mp_init_buffers in Hi.
  split; [lia|]. split; [|lia]. intros Hnew. exfalso.
  revert Hi Hb Hnew. clear. intros Hi Hb Hnew.
  destruct σ0 as [m0 ? ? ? ? ?]. simpl in Hi.
  erewrite bind_Some in Hi by reflexivity. erewrite bind_Some in Hi by reflexivity.
  erewrite bind_Some in Hi by reflexivity. erewrite bind_Some in Hi by reflexivity.
  match type of Hi with bind (init_ring _ _ ?p) _ ?σ1 = _ =>
    destruct (init_ring_spec PLANNER_BUFFER_POOL_SIZE 0 p σ1) as (bf' & Heq & Hl & _ & Hin)
  end.
  { simpl. by rewrite length_replicate. }
  erewrite bind_Some in Hi by exact Heq. simpl in *.
  injection Hi as <-. simpl in Hb. rewrite length_replicate in Hl.
  assert (i < PLANNER_BUFFER_POOL_SIZE) by (rewrite <- Hl; by eapply lookup_lt_Some).
  rewrite (Hin i mpBuf_zero) in Hb; [|lia|by apply lookup_replicate_2].
  by simplify_eq.
Qed.

(** ** The queue is first in, first out *)

Lemma fifo_inv c l σ :
  0 < PLANNER_BUFFER_POOL_SIZE ≤ 255 →
  fifo c l σ →
  ∃ ri na, ring_inv σ ri na (length l) ∧ slots_ok (mb_bf (mb σ)) ri na ∧
           c = ring_idx ri <$> seq 0 na ∧ l = ring_idx ri <$> seq na (length l).
Proof.
  intros Hn Hf. induction Hf as
    [σ0 σ Hi | c l σ i σ' _ IH Hop | c l σ σ' _ IH Hop | c l i σ σ' _ IH Hop
    | c l i ty σ σ' _ IH Hop | c l σ p σ' _ IH Hop | c l σ e σ' _ IH Hst Hop].
  - exists 0, 0. destruct (init_slots _ _ Hn Hi). done.
  - destruct IH as (ri & na & Hinv & Hsl & Hc & Hl). exists ri, na.
    destruct (decide (na + length l < PLANNER_BUFFER_POOL_SIZE)) as [Hlt|Hge].
    + destruct (get_write_step _ _ _ _ Hinv Hsl Hlt) as (b & σ1 & _ & _ & H1 & _ & ? & ?).
      rewrite H1 in Hop. injection Hop as <- <-.
      rewrite length_app, Nat.add_1_r. split_and!; try done.
      rewrite seq_S, fmap_app. by rewrite <- Hl.
    + pose proof (inv_sum _ _ _ _ Hinv).
      rewrite (get_write_full _ _ _ _ Hinv) in Hop by lia. congruence.
  - destruct IH as (ri & na & Hinv & Hsl & Hc & Hl). exists ri, na.
    destruct (decide (na + length l < PLANNER_BUFFER_POOL_SIZE)) as [Hlt|Hge].
    + destruct (get_write_step _ _ _ _ Hinv Hsl Hlt) as (b & σ1 & _ & _ & H1 & _).
      congruence.
    + pose proof (inv_sum _ _ _ _ Hinv).
      rewrite (get_write_full _ _ _ _ Hinv) in Hop by lia.
      assert (σ' = σ) as -> by congruence. done.
  - destruct IH as (ri & na & Hinv & Hsl & Hc & Hl). exists ri, na.
    rewrite length_app, Nat.add_1_r in Hinv, Hl.
    destruct (unget_step _ _ _ _ Hinv Hsl) as (b & σ1 & _ & _ & H1 & _ & ? & ?).
    assert (σ1 = σ') as -> by congruence.
    rewrite seq_S, fmap_app in Hl. apply app_inj_tail in Hl as [Hl _]. done.
  - destruct IH as (ri & na & Hinv & Hsl & Hc & Hl). exists ri, (S na).
    change (length (i :: l)) with (S (length l)) in Hinv, Hl.
    destruct (commit_step ty _ _ _ _ Hinv Hsl) as (b & σ1 & _ & _ & H1 & _ & ? & ?).
    assert (σ1 = σ') as -> by congruence.
    rewrite <- cons_seq, fmap_cons in Hl. injection Hl as Hi Hl.
    split_and!; try done.
    rewrite seq_S, fmap_app. by rewrite <- Hc, Hi.
  - destruct IH as (ri & na & Hinv & Hsl & Hc & Hl). exists ri, na.
    destruct (get_run_step _ _ _ _ Hinv Hsl) as (b & σ1 & _ & H1 & _ & ? & ?).
    assert (σ1 = σ') as -> by congruence. done.
  - destruct IH as (ri & na & Hinv & Hsl & Hc & Hl).
    destruct (free_run_step _ _ _ _ Hinv Hsl Hst)
      as (na' & b & bj & σ1 & -> & _ & _ & H1 & _ & ? & ?).
    exists (_bump ri), na'. assert (σ1 = σ') as -> by congruence.
    pose proof (inv_sum _ _ _ _ Hinv). pose proof (inv_ri _ _ _ _ Hinv).
    split_and!; try done.
    + rewrite Hc, <- cons_seq, fmap_cons. cbn [tail].
      rewrite <- fmap_S_seq, <- list_fmap_compose.
      apply list_fmap_ext. intros k x Hx. apply lookup_seq in Hx as [-> ?]. simpl.
      symmetry. apply ring_idx_bump; lia.
    + rewrite Hl at 1. rewrite <- fmap_S_seq, <- list_fmap_compose.
      apply list_fmap_ext. intros k x Hx. apply lookup_seq in Hx as [-> ?]. simpl.
      symmetry. apply ring_idx_bump; lia.
Qed.

Lemma reachable_fifo o σ :
  reachable o σ → ∃ c l, fifo c l σ ∧ length l = o.
Proof.
  induction 1 as
    [σ0 σ Hi | o σ i σ' _ IH Hop | o σ σ' _ IH Hop | o σ σ' _ IH Hop
    | o ty σ σ' _ IH Hop | o σ p σ' _ IH Hop | o σ e σ' _ IH Hst Hop].
  - exists [], []. split; [by eapply fifo_init|done].
  - destruct IH as (c & l & Hf & <-). exists c, (l ++ [i]).
    split; [by eapply fifo_get_write|]. rewrite length_app. simpl. lia.
  - destruct IH as (c & l & Hf & <-). exists c, l.
    split; [by eapply fifo_get_write_none|done].
  - destruct IH as (c & l & Hf & Hl).
    destruct (decide (l = [])) as [->|Hne]; [done|].
    destruct (exists_last Hne) as (l' & i & ->).
    exists c, l'. split; [by eapply fifo_unget|].
    rewrite length_app in Hl. simpl in Hl. lia.
  - destruct IH as (c & l & Hf & Hl). destruct l as [|i l]; [done|].
    exists (c ++ [i]), l. split; [by eapply fifo_commit|]. simpl in Hl. lia.
  - destruct IH as (c & l & Hf & <-). exists c, l.
    split; [by eapply fifo_get_run|done].
  - destruct IH as (c & l & Hf & <-). exists (tail c), l.
    split; [by eapply fifo_free_run|done].
Qed.

Lemma reachable_slots o σ :
  0 < PLANNER_BUFFER_POOL_SIZE ≤ 255 →
  reachable o σ →
  ∃ ri na, ring_inv σ ri na o ∧ slots_ok (mb_bf (mb σ)) ri na.
Proof.
  intros Hn Hr. destruct (reachable_fifo _ _ Hr) as (c & l & Hf & <-).
  destruct (fifo_inv _ _ _ Hn Hf) as (ri & na & ? & ? & _). by exists ri, na.
Qed.

Lemma run_handle_op_fifo op c1 l1 σ1 c2 l2 σ2 :
  fifo c1 l1 σ1 → run_handle_op op (c1, l1, σ1) = Some (c2, l2, σ2) → fifo c2 l2 σ2.
Proof.
  intros Hf Hop. destruct op; simpl in Hop.
  - destruct (mp_get_write_buffer σ1) as [[[i|] σ']|] eqn:Hg; simplify_eq.
    + by eapply fifo_get_write.
    + by eapply fifo_get_write_none.
  - destruct l1 as [|x l1]; [done|].
    destruct (mp_unget_write_buffer σ1) as [[[] σ']|] eqn:Hg; simplify_eq.
    destruct (exists_last (l := x :: l1) ltac:(done)) as (l' & i & Heq).
    rewrite Heq in *. rewrite removelast_last. by eapply fifo_unget.
  - destruct l1 as [|i l1]; [done|].
    destruct (mp_commit_write_buffer ty σ1) as [[[] σ']|] eqn:Hg; simplify_eq.
    by eapply fifo_commit.
  - destruct (mp_get_run_buffer σ1) as [[p σ']|] eqn:Hg; simplify_eq.
    by eapply fifo_get_run.
  - case_decide; [|done].
    destruct (mp_free_run_buffer σ1) as [[e σ']|] eqn:Hg; simplify_eq.
    by eapply fifo_free_run.
Qed.

Lemma run_handles_fifo ops σ0 c l σ :
  run_handles ops σ0 = Some (c, l, σ) → fifo c l σ.
Proof.
  unfold run_handles. destruct (mp_init_buffers σ0) as [[[] σi]|] eqn:Hi; [|done].
  assert (Hc : ∀ c1 l1 σ1, Some ([], [], σi) = Some (c1, l1, σ1) → fifo c1 l1 σ1).
  { intros c1 l1 σ1 [= <- <- <-]. by eapply fifo_init. }
  revert Hc. generalize (Some (@nil nat, @nil nat, σi)). clear Hi.
  induction ops as [|op ops IH]; intros st Hc Hrun.
  - by apply Hc.
  - apply (IH (st ≫= run_handle_op op)); [|exact Hrun].
    intros c2 l2 σ2 Hop. destruct st as [[[c1 l1] σ1]|]; [|done].
    eapply run_handle_op_fifo; [by apply Hc | exact Hop].
Qed.

Lemma ring_idx_inj ri k k' :
  ri < PLANNER_BUFFER_POOL_SIZE → k < PLANNER_BUFFER_POOL_SIZE →
  k' < PLANNER_BUFFER_POOL_SIZE → ring_idx ri k = ring_idx ri k' → k = k'.
Proof.
  intros Hri Hk Hk' He. rewrite <- (ring_off_idx ri k) by done.
  rewrite He. by apply ring_off_idx.
Qed.

Lemma handles_elem ri from len i :
  ri < PLANNER_BUFFER_POOL_SIZE → i < PLANNER_BUFFER_POOL_SIZE →
  from + len ≤ PLANNER_BUFFER_POOL_SIZE →
  i ∈ (ring_idx ri <$> seq from len) ↔ from ≤ ring_off ri i < from + len.
Proof.
  intros Hri Hi Hle. rewrite list_elem_of_fmap. split.
  - intros (k & -> & Hk). apply elem_of_seq in Hk. rewrite ring_off_idx by lia. lia.
  - intros Hk. exists (ring_off ri i). split; [by rewrite ring_idx_off|].
    apply elem_of_seq. lia.
Qed.

Lemma handles_NoDup ri len :
  ri < PLANNER_BUFFER_POOL_SIZE → len ≤ PLANNER_BUFFER_POOL_SIZE →
  NoDup (ring_idx ri <$> seq 0 len).
Proof.
  intros Hri Hle. apply NoDup_fmap_2_strong; [|apply NoDup_seq].
  intros k k' Hk Hk' He. apply elem_of_seq in Hk, Hk'.
  eapply ring_idx_inj; eauto; lia.
Qed.

(** X8: the handles the operations returned tell what the pool holds.  With
    the committed handles [c] and the handed-out handles [l] kept in the
    order the calls gave them, no handle occurs twice, the blocks of [c] are
    exactly those in a committed state, the blocks of [l] exactly the
    Loading ones, and every pool reached by the operations has such lists. *)
Theorem fifo_tracks_states :
  0 < PLANNER_BUFFER_POOL_SIZE ≤ 255 →
  (∀ c l σ, fifo c l σ →
     NoDup (c ++ l) ∧
     length c + length l = count_in_use σ ∧
     (∀ i, i ∈ c ↔ ∃ s, state_at σ (Some i) = Some s ∧ committed s) ∧
     (∀ i, i ∈ l ↔ state_at σ (Some i) = Some MP_BUFFER_LOADING)) ∧
  (∀ o σ, reachable o σ → ∃ c l, fifo c l σ ∧ length l = o).
Proof.
  intros Hn. split; [|intros o σ Hr; by apply reachable_fifo].
  intros c l σ Hf.
  destruct (fifo_inv _ _ _ Hn Hf) as (ri & na & Hinv & _ & Hc & Hl).
  pose proof Hinv as [].
  assert (Hcl : c ++ l = ring_idx ri <$> seq 0 (na + length l)).
  { rewrite seq_app, fmap_app. simpl. by rewrite <- Hc, <- Hl. }
  split_and!.
  - rewrite Hcl. apply handles_NoDup; lia.
  - rewrite inv_count0. rewrite Hc at 1. rewrite length_fmap, length_seq. done.
  - intros i. unfold state_at, block_at. simpl. split.
    + rewrite Hc. intros Hi.
      assert (i < PLANNER_BUFFER_POOL_SIZE).
      { apply list_elem_of_fmap in Hi as (k & -> & Hk). apply elem_of_seq in Hk.
        apply ring_idx_lt; lia. }
      apply handles_elem in Hi; [|lia..].
      destruct (ring_inv_block _ _ _ _ i Hinv) as (b & Hb & _ & _ & Hst); [done|].
      rewrite Hb. simpl. exists (buffer_state b). split; [done|].
      destruct (state_ok_cases _ _ _ _ Hst) as [[]|[[]|[]]]; (lia || done).
    + intros (s & Hs & Hcm).
      destruct (mb_bf (mb σ) !! i) as [b|] eqn:Hb; [|done]. simpl in Hs. injection Hs as <-.
      assert (i < PLANNER_BUFFER_POOL_SIZE) by (rewrite <- inv_len0; by eapply lookup_lt_Some).
      rewrite Hc. apply handles_elem; [lia..|].
      pose proof (state_ok_inv_committed _ _ _ _ Hcm (inv_states0 _ _ Hb)). lia.
  - intros i. unfold state_at, block_at. simpl. split.
    + rewrite Hl. intros Hi.
      assert (i < PLANNER_BUFFER_POOL_SIZE).
      { apply list_elem_of_fmap in Hi as (k & -> & Hk). apply elem_of_seq in Hk.
        apply ring_idx_lt; lia. }
      apply handles_elem in Hi; [|lia..].
      destruct (ring_inv_block _ _ _ _ i Hinv) as (b & Hb & _ & _ & Hst); [done|].
      rewrite Hb. simpl. f_equal.
      destruct (state_ok_cases _ _ _ _ Hst) as [[]|[[]|[]]]; (lia || done).
    + intros Hs.
      destruct (mb_bf (mb σ) !! i) as [b|] eqn:Hb; [|done]. simpl in Hs. injection Hs as Hs.
      assert (i < PLANNER_BUFFER_POOL_SIZE) by (rewrite <- inv_len0; by eapply lookup_lt_Some).
      rewrite Hl. apply handles_elem; [lia..|].
      pose proof (inv_states0 _ _ Hb) as Hst. rewrite Hs in Hst.
      by apply state_ok_inv_loading in Hst.
Qed.

(** X9: the run buffer is the oldest committed block.  [mp_get_run_buffer]
    returns the handle that was committed first among those not freed, and
    nothing when none is committed. *)
Theorem run_buffer_is_oldest c l σ :
  0 < PLANNER_BUFFER_POOL_SIZE ≤ 255 →
  fifo c l σ →
  ∃ σ', mp_get_run_buffer σ = Some (head c, σ') ∧ fifo c l σ'.
Proof.
  intros Hn Hf.
  destruct (fifo_inv _ _ _ Hn Hf) as (ri & na & Hinv & Hsl & Hc & Hl).
  destruct (get_run_step _ _ _ _ Hinv Hsl) as (b & σ' & _ & Hg & _).
  exists σ'. pose proof (inv_ri _ _ _ _ Hinv).
  assert (head c = if decide (0 < na) then Some ri else None) as ->.
  { rewrite Hc. destruct na as [|na]; [done|].
    rewrite <- cons_seq, fmap_cons. cbn [head]. rewrite ring_idx_0 by done.
    by rewrite decide_True by lia. }
  split; [done|]. by eapply fifo_get_run.
Qed.

Lemma next_by_link_follows : follows_link next_by_link.
Proof.
  intros σ i b Hb. unfold next_by_link. by erewrite bind_Some by (by apply load_Some).
Qed.

Lemma last_buffer_loop_spec σ ri na nl fuel : ∀ k,
  follows_link mp_get_next_buffer →
  ring_inv σ ri na nl → slots_ok (mb_bf (mb σ)) ri na →
  k < na → na - 1 - k ≤ fuel →
  last_buffer_loop fuel (Some ri) (Some (ring_idx ri k)) σ
  = Some (Some (ring_idx ri (na - 1)), σ).
Proof.
  induction fuel as [|fuel IH]; intros k Hnext Hinv Hsl Hk Hfuel; pose proof Hinv as [].
  all: destruct (ring_inv_block _ _ _ _ (ring_idx ri k) Hinv) as (b & Hb & Hnx & _);
    [apply ring_idx_lt; lia|].
  all: rewrite bump_idx in Hnx by lia.
  all: assert (Hi1 : ring_idx ri (S k) < PLANNER_BUFFER_POOL_SIZE) by (apply ring_idx_lt; lia).
  all: destruct (ring_inv_block _ _ _ _ _ Hinv Hi1) as (n & Hn' & _).
  all: pose proof (Hsl _ _ Hn') as [_ Hnew].
  all: cbn [last_buffer_loop].
  all: erewrite bind_Some by (by apply load_Some).
  all: rewrite Hnx.
  all: case_decide as Hwrap.
  all: try (injection Hwrap as Hwrap; apply ring_idx_eq_start in Hwrap; [|lia..];
            replace (na - 1) with k by lia; done).
  all: erewrite bind_Some by (by apply load_Some).
  all: assert (S k < PLANNER_BUFFER_POOL_SIZE)
    by (destruct (decide (S k = PLANNER_BUFFER_POOL_SIZE)) as [He|]; [|lia];
        rewrite He, ring_idx_full in Hwrap by done; done).
  all: rewrite ring_off_idx in Hnew by lia.
  all: case_decide as Hoff.
  all: try (assert (¬ S k < na) by (rewrite <- Hnew, Hoff; done);
            replace (na - 1) with k by lia; done).
  all: assert (S k < na) by (apply Hnew; by destruct (move_state n)).
  - lia.
  - erewrite bind_Some by (by apply Hnext).
    rewrite Hnx. apply IH; (done || lia).
Qed.

(** ** Where the states can be *)

(** X11: only the block at the run cursor is Pending or Running; so at most
    one block of a reachable pool is Running, and it is the one
    [mp_free_run_buffer] frees. *)
Theorem run_cursor_only o σ i s :
  0 < PLANNER_BUFFER_POOL_SIZE ≤ 255 →
  reachable o σ →
  state_at σ (Some i) = Some s →
  s = MP_BUFFER_RUNNING ∨ s = MP_BUFFER_PENDING →
  mb_r (mb σ) = Some i.
Proof.
  intros Hn Hr Hs Hrp.
  destruct (reachable_slots _ _ Hn Hr) as (ri & na & Hinv & Hsl). pose proof Hinv as [].
  unfold state_at, block_at in Hs. simpl in Hs.
  destruct (mb_bf (mb σ) !! i) as [b|] eqn:Hb; [|done]. simpl in Hs. injection Hs as Hs.
  assert (Hi : i < PLANNER_BUFFER_POOL_SIZE) by (rewrite <- inv_len0; by eapply lookup_lt_Some).
  pose proof (inv_states0 _ _ Hb) as Hst. pose proof (Hsl _ _ Hb) as [Hq _].
  assert (Hk : ring_off ri i < na).
  { eapply state_ok_inv_committed; [|exact Hst]. rewrite Hs. unfold committed.
    destruct Hrp; auto. }
  destruct (decide (ring_off ri i = 0)) as [H0|H0].
  - rewrite inv_r0. f_equal. rewrite <- (ring_idx_off ri i), H0 by done.
    symmetry. by apply ring_idx_0.
  - rewrite Hq in Hs by lia. destruct Hrp; congruence.
Qed.

(** X13: the count of available buffers predicts [mp_get_write_buffer].
    In a reachable pool the call hands out a block exactly when
    [buffers_available] is positive, and returns nothing, leaving the pool as
    it was, exactly when it is zero. *)
Theorem available_iff_get_succeeds o σ :
  0 < PLANNER_BUFFER_POOL_SIZE ≤ 255 →
  reachable o σ →
  ((0 < buffers_available (mb σ))%Z ↔
     ∃ i σ', mp_get_write_buffer σ = Some (Some i, σ')) ∧
  (buffers_available (mb σ) = 0%Z ↔ mp_get_write_buffer σ = Some (None, σ)).
Proof.
  intros Hn Hr. destruct (reachable_inv _ _ Hn Hr) as (ri & na & Hinv).
  pose proof Hinv as [].
  destruct (decide (na + o < PLANNER_BUFFER_POOL_SIZE)) as [Hlt|Hge].
  - destruct (get_write_ok _ _ _ _ Hinv Hlt) as (b & σ' & _ & _ & Hg & _).
    split; split.
    + intros _. by eexists _, _.
    + intros _. lia.
    + lia.
    + congruence.
  - pose proof (get_write_full _ _ _ _ Hinv ltac:(lia)) as Hg.
    split; split.
    + lia.
    + intros (i & σ' & Hg'). congruence.
    + done.
    + intros _. lia.
Qed.

(** ** The planner between the calls of its interface *)

Lemma ring_inv_frame σ σ' ri na nl :
  mb σ' = mb σ → ring_inv σ ri na nl → ring_inv σ' ri na nl.
Proof. intros Hmb []. constructor; unfold count_in_use; rewrite ?Hmb; done. Qed.

Lemma state_ok_enqueue na k s : k ≠ na → state_ok na 0 k s → state_ok (S na) 0 k s.
Proof. intros. ring_arith. Qed.

Lemma enqueue_inv σ ri na b b' cs :
  ring_inv σ ri na 0 → slots_ok (mb_bf (mb σ)) ri na →
  na < PLANNER_BUFFER_POOL_SIZE →
  mb_bf (mb σ) !! ring_idx ri na = Some b →
  nx b' = nx b → pv b' = pv b →
  buffer_state b' = MP_BUFFER_QUEUED → move_state b' = MOVE_NEW →
  ring_inv (with_calls cs
              (with_mb (pool (uint8 (buffers_available (mb σ) - 1)) (nx b) (nx b)
                             (mb_r (mb σ)) (<[ring_idx ri na := b']> (mb_bf (mb σ)))) σ))
           ri (S na) 0 ∧
  slots_ok (<[ring_idx ri na := b']> (mb_bf (mb σ))) ri (S na).
Proof.
  intros Hinv Hsl Hlt Hb Hnx Hpv Hst Hms. pose proof Hinv as [].
  set (i := ring_idx ri na) in *.
  assert (Hi : i < PLANNER_BUFFER_POOL_SIZE) by (apply ring_idx_lt; lia).
  destruct (ring_inv_block _ _ _ _ i Hinv Hi) as (b0 & Hb0 & Hnxb & _ & Hstb).
  assert (b0 = b) as -> by congruence.
  assert (He : buffer_state b = MP_BUFFER_EMPTY).
  { subst i. rewrite ring_off_idx in Hstb by lia.
    destruct (state_ok_cases _ _ _ _ Hstb) as [[]|[[]|[]]]; (lia || done). }
  assert (Hnext : nx b = Some (ring_idx ri (S na))).
  { rewrite Hnxb. f_equal. subst i. apply bump_idx; lia. }
  split.
  - constructor; simpl; try done.
    + by rewrite length_insert.
    + lia.
    + rewrite Hnext. do 2 f_equal. lia.
    + eapply links_ok_insert; eauto.
    + eapply states_ok_insert; eauto.
      * lia.
      * intros k s Hk Hne. rewrite inv_len0 in Hk.
        apply state_ok_enqueue. by apply other_offset.
      * rewrite Hst. subst i. rewrite ring_off_idx by lia. apply state_ok_queued. lia.
    + rewrite inv_avail0. rewrite uint8_small by lia. lia.
    + unfold count_in_use in *. simpl.
      pose proof (count_insert _ _ _ b' Hb) as Hc.
      rewrite decide_False in Hc by (rewrite in_use_iff; rewrite He; auto).
      rewrite decide_True in Hc by (rewrite in_use_iff; rewrite Hst; congruence).
      lia.
  - eapply slots_ok_insert; eauto; [lia| |].
    + intros j bj Hj Hne [H1 H2]. rewrite inv_len0 in Hj.
      pose proof (other_offset ri na j inv_ri0 Hj Hne). split; [intros; apply H1; lia|].
      rewrite H2. lia.
    + subst i. rewrite ring_off_idx by lia. split; [done|]. split; [lia|done].
Qed.

Lemma mp_dwell_eq σ i b seconds :
  mb_w (mb σ) = Some i → mb_q (mb σ) = Some i →
  mb_bf (mb σ) !! i = Some b → buffer_state b = MP_BUFFER_EMPTY →
  mp_dwell seconds σ =
    Some (STAT_OK,
          with_calls (calls σ ++ [st_request_exec_move])
            (with_mb
               (pool (uint8 (buffers_available (mb σ) - 1)) (nx b) (nx b) (mb_r (mb σ))
                     (<[i := {| nx := nx b; pv := pv b;
                                bf_func := ptr_exec_dwell;
                                cm_func := cm_func mpBuf_zero;
                                buffer_state := MP_BUFFER_QUEUED;
                                move_type := MOVE_TYPE_DWELL;
                                move_state := MOVE_NEW;
                                value_vector := value_vector mpBuf_zero;
                                flag_vector := flag_vector mpBuf_zero;
                                gm_move_time := seconds |}]> (mb_bf (mb σ)))) σ)).
Proof.
  intros Hw Hq Hb He. unfold mp_dwell.
  assert (Hi : i < length (mb_bf (mb σ))) by (by eapply lookup_lt_Some).
  erewrite bind_Some by (by apply mp_get_write_buffer_empty).
  open_world σ.
  do 3 (run_update; rewrite ?list_insert_insert_eq).
  erewrite bind_Some.
  2:{ erewrite mp_commit_write_buffer_eq; simpl;
        [reflexivity|reflexivity|by apply list_lookup_insert_eq]. }
  rewrite list_insert_insert_eq. reflexivity.
Qed.

Lemma mp_dwell_full σ seconds :
  mp_get_write_buffer σ = Some (None, σ) →
  mp_dwell seconds σ =
    Some (cm_hard_alarm_ret STAT_BUFFER_FULL_FATAL,
          with_calls (calls σ ++ [cm_hard_alarm STAT_BUFFER_FULL_FATAL]) σ).
Proof. intros Hg. unfold mp_dwell. by erewrite bind_Some by exact Hg. Qed.

Lemma mp_queue_command_full σ cm_exec value flag :
  mp_get_write_buffer σ = Some (None, σ) →
  mp_queue_command cm_exec value flag σ =
    Some ((), with_calls (calls σ ++ [cm_hard_alarm STAT_BUFFER_FULL_FATAL]) σ).
Proof. intros Hg. unfold mp_queue_command. by erewrite bind_Some by exact Hg. Qed.

Lemma bind_None {A B} (m : M A) (k : A → M B) σ : m σ = None → bind m k σ = None.
Proof. unfold bind. by intros ->. Qed.

Lemma mp_init_buffers_eq σ :
  mp_init_buffers σ = Some ((), with_mb mb_fresh σ).
Proof.
  unfold mp_init_buffers. destruct σ as [m0 ? ? ? ? ?]. simpl.
  run1 ltac:(reflexivity). run1 ltac:(reflexivity). run1 ltac:(reflexivity).
  run1 ltac:(reflexivity).
  match goal with |- bind (init_ring _ _ ?p) _ ?σ1 = _ =>
    destruct (init_ring_spec PLANNER_BUFFER_POOL_SIZE 0 p σ1) as (bf' & Heq & Hl & _ & Hin)
  end.
  { simpl. by rewrite length_replicate. }
  erewrite bind_Some by exact Heq. simpl in *. rewrite length_replicate in Hl.
  unfold set_buffers_available, bind, get_mb, put_mb, with_mb, mb_fresh, pool. simpl.
  repeat f_equal. apply list_eq. intros j.
  destruct (decide (j < PLANNER_BUFFER_POOL_SIZE)) as [Hj|Hj].
  - rewrite (Hin j mpBuf_zero) by (lia || by apply lookup_replicate_2).
    rewrite list_lookup_fmap, lookup_seq_lt by done. done.
  - rewrite !lookup_ge_None_2; [done| |lia].
    rewrite length_fmap, length_seq. lia.
Qed.

Lemma fresh_inv σ cs :
  0 < PLANNER_BUFFER_POOL_SIZE ≤ 255 →
  ring_inv (with_calls cs (with_mb mb_fresh σ)) 0 0 0 ∧
  slots_ok (mb_bf mb_fresh) 0 0 ∧
  reachable 0 (with_calls cs (with_mb mb_fresh σ)).
Proof.
  intros Hn.
  assert (Hi : mp_init_buffers (with_calls cs σ)
               = Some ((), with_calls cs (with_mb mb_fresh σ)))
    by (rewrite mp_init_buffers_eq; by destruct σ).
  destruct (init_slots _ _ Hn Hi) as [Hinv Hsl]. split_and!; try done.
  by eapply reach_init.
Qed.

Lemma mp_flush_planner_eq σ :
  mp_flush_planner σ =
    Some ((), with_calls (calls σ ++ [cm_abort_arc; cm_set_motion_state_MOTION_STOP])
                (with_mb mb_fresh σ)).
Proof.
  unfold mp_flush_planner.
  erewrite bind_Some by reflexivity.
  erewrite bind_Some by apply mp_init_buffers_eq.
  destruct σ. unfold emit. simpl. by rewrite <- app_assoc.
Qed.

Lemma planner_init_eq σ :
  planner_init σ =
    Some ((), with_mb mb_fresh (with_mm_position (replicate AXES f_zero) (with_mr mr_zero σ))).
Proof.
  unfold planner_init.
  erewrite bind_Some by reflexivity.
  erewrite bind_Some by reflexivity.
  apply mp_init_buffers_eq.
Qed.

Lemma runtime_command_step σ ri na nl b f :
  ring_inv σ ri na nl → slots_ok (mb_bf (mb σ)) ri na →
  mb_bf (mb σ) !! ri = Some b → buffer_state b = MP_BUFFER_RUNNING →
  cm_func b = Some f →
  ∃ na' σ',
    na = S na' ∧
    mp_runtime_command (Some ri) σ = Some (STAT_OK, σ') ∧
    calls σ' = calls σ ++ call_cm_func f (value_vector b) (flag_vector b)
                 :: (if bool_decide (na' + nl = 0) then [cm_cycle_end] else []) ∧
    ring_inv σ' (_bump ri) na' nl ∧ slots_ok (mb_bf (mb σ')) (_bump ri) na' ∧
    mm_position σ' = mm_position σ ∧ mr σ' = mr σ.
Proof.
  intros Hinv Hsl Hb Hrun Hf. pose proof Hinv as [].
  set (σ1 := with_calls (calls σ ++ [call_cm_func f (value_vector b) (flag_vector b)]) σ).
  assert (Hinv1 : ring_inv σ1 ri na nl) by ((eapply ring_inv_frame; [|eassumption]; done)).
  assert (Hst1 : state_at σ1 (mb_r (mb σ1)) = Some MP_BUFFER_RUNNING).
  { unfold state_at, block_at. simpl. rewrite inv_r0. simpl. rewrite Hb. simpl. by f_equal. }
  destruct (free_run_step σ1 ri na nl Hinv1 Hsl Hst1)
    as (na' & b1 & bj & σ2 & -> & _ & _ & Hfree & Hσ2 & Hinv2 & Hsl2).
  assert (Hfirst : (let* b := load (Some ri) in
                    match cm_func b with
                    | Some f => emit (call_cm_func f (value_vector b) (flag_vector b))
                    | None => fault
                    end) σ = Some ((), σ1)).
  { erewrite bind_Some by (by apply load_Some). rewrite Hf. reflexivity. }
  assert (Hc2 : calls σ2 = calls σ1) by (by rewrite Hσ2).
  assert (Hmm2 : mm_position σ2 = mm_position σ ∧ mr σ2 = mr σ) by (by rewrite Hσ2).
  unfold mp_runtime_command. erewrite bind_Some by exact Hfirst.
  destruct (bool_decide (na' + nl = 0)) eqn:Hempty.
  - exists na', (with_calls (calls σ2 ++ [cm_cycle_end]) σ2). rewrite ?Hempty in *.
    split; [done|]. split.
    { erewrite bind_Some.
      2:{ erewrite bind_Some by exact Hfree. reflexivity. }
      reflexivity. }
    split; [simpl; rewrite Hc2; simpl; by rewrite <- app_assoc|].
    split; [(eapply ring_inv_frame; [|eassumption]; done)|]. done.
  - exists na', σ2. rewrite ?Hempty in *. split; [done|]. split.
    { erewrite bind_Some.
      2:{ erewrite bind_Some by exact Hfree. reflexivity. }
      reflexivity. }
    split; [by rewrite Hc2|]. done.
Qed.

Lemma api_inv σ :
  0 < PLANNER_BUFFER_POOL_SIZE ≤ 255 →
  api_reachable σ →
  ∃ ri na, ring_inv σ ri na 0 ∧ slots_ok (mb_bf (mb σ)) ri na.
Proof.
  intros Hn Ha. induction Ha as
    [σ0 σ Hi | σ σ' _ IH Hop | σ seconds st σ' _ IH Hop
    | σ cm_exec value flag σ' _ IH Hop | σ p σ' _ IH Hop | σ e σ' _ IH Hst Hop
    | σ st σ' _ IH Hst Hop | σ axis position σ' _ IH Hop
    | σ axis position σ' _ IH Hop | σ fuel σ' _ IH Hop].
  - rewrite planner_init_eq in Hi. injection Hi as <-. exists 0, 0.
    destruct (fresh_inv (with_mm_position (replicate AXES f_zero) (with_mr mr_zero σ0))
                        (calls σ0) Hn) as (Hinv & Hsl & _).
    split; [|done]. eapply ring_inv_frame; [|exact Hinv]. done.
  - rewrite mp_flush_planner_eq in Hop. injection Hop as <-. exists 0, 0.
    destruct (fresh_inv σ (calls σ ++ [cm_abort_arc; cm_set_motion_state_MOTION_STOP]) Hn)
      as (Hinv & Hsl & _). done.
  - destruct IH as (ri & na & Hinv & Hsl). pose proof Hinv as [].
    rewrite Nat.add_0_r in *.
    destruct (decide (na < PLANNER_BUFFER_POOL_SIZE)) as [Hlt|Hge].
    + destruct (ring_inv_block _ _ _ _ (ring_idx ri na) Hinv) as (b & Hb & _ & _ & Hstb);
        [apply ring_idx_lt; lia|].
      assert (He : buffer_state b = MP_BUFFER_EMPTY).
      { rewrite ring_off_idx in Hstb by lia.
        destruct (state_ok_cases _ _ _ _ Hstb) as [[]|[[]|[]]]; (lia || done). }
      rewrite (mp_dwell_eq σ _ b seconds inv_w0 inv_q0 Hb He) in Hop.
      injection Hop as _ <-. exists ri, (S na).
      by eapply enqueue_inv.
    + rewrite (mp_dwell_full σ seconds) in Hop
        by (eapply get_write_full; [exact Hinv|lia]).
      injection Hop as _ <-. exists ri, na. split; [|done].
      (eapply ring_inv_frame; [|eassumption]; done).
  - destruct IH as (ri & na & Hinv & Hsl). pose proof Hinv as [].
    rewrite Nat.add_0_r in *.
    destruct (decide (na < PLANNER_BUFFER_POOL_SIZE)) as [Hlt|Hge].
    + destruct (ring_inv_block _ _ _ _ (ring_idx ri na) Hinv) as (b & Hb & _ & _ & Hstb);
        [apply ring_idx_lt; lia|].
      assert (He : buffer_state b = MP_BUFFER_EMPTY).
      { rewrite ring_off_idx in Hstb by lia.
        destruct (state_ok_cases _ _ _ _ Hstb) as [[]|[[]|[]]]; (lia || done). }
      rewrite (mp_queue_command_eq σ _ b cm_exec value flag inv_w0 inv_q0 Hb He) in Hop.
      injection Hop as <-. exists ri, (S na).
      by eapply enqueue_inv.
    + rewrite (mp_queue_command_full σ cm_exec value flag) in Hop
        by (eapply get_write_full; [exact Hinv|lia]).
      injection Hop as <-. exists ri, na. split; [|done].
      (eapply ring_inv_frame; [|eassumption]; done).
  - destruct IH as (ri & na & Hinv & Hsl). exists ri, na.
    destruct (get_run_step _ _ _ _ Hinv Hsl) as (b & σ1 & _ & H1 & _ & ? & ?).
    assert (σ1 = σ') as -> by congruence. done.
  - destruct IH as (ri & na & Hinv & Hsl).
    destruct (free_run_step _ _ _ _ Hinv Hsl Hst)
      as (na' & b & bj & σ1 & -> & _ & _ & H1 & _ & ? & ?).
    exists (_bump ri), na'. assert (σ1 = σ') as -> by congruence. done.
  - destruct IH as (ri & na & Hinv & Hsl). pose proof Hinv as [].
    rewrite inv_r0 in Hop, Hst.
    unfold state_at, block_at in Hst. simpl in Hst.
    destruct (mb_bf (mb σ) !! ri) as [b|] eqn:Hb; [|done]. simpl in Hst.
    injection Hst as Hst.
    destruct (cm_func b) as [f|] eqn:Hf.
    + destruct (runtime_command_step σ ri na 0 b f Hinv Hsl Hb Hst Hf)
        as (na' & σ1 & -> & H1 & _ & ? & ? & _).
      exists (_bump ri), na'. assert (σ1 = σ') as -> by congruence. done.
    + unfold mp_runtime_command in Hop. rewrite bind_None in Hop; [done|].
      erewrite bind_Some by (by apply load_Some). by rewrite Hf.
  - destruct IH as (ri & na & Hinv & Hsl). exists ri, na.
    unfold mp_set_planner_position in Hop. case_decide; [|done]. injection Hop as <-.
    split; [|done]. (eapply ring_inv_frame; [|eassumption]; done).
  - destruct IH as (ri & na & Hinv & Hsl). exists ri, na.
    unfold mp_set_runtime_position in Hop. rewrite bind_get_world in Hop.
    case_decide; [|done].
    injection Hop as <-. split; [|done]. (eapply ring_inv_frame; [|eassumption]; done).
  - destruct IH as (ri & na & Hinv & Hsl). exists ri, na.
    unfold mp_set_steps_to_runtime_position in Hop. rewrite bind_get_world in Hop.
    apply for_loop_u8_set_steps_mb in Hop.
    rewrite <- Hop in Hsl. split; [|done].
    (eapply ring_inv_frame; [|eassumption]; done).
Qed.

(** X14: [mp_flush_planner] empties the queue whatever state the pool is
    in, even one with dangling cursors: it returns, every block is Empty and
    available, the pool is the one [mp_init_buffers] builds, the planner and
    runtime positions are as before, and the arc is aborted before and the
    motion stopped after. *)
Theorem flush_planner_resets σ :
  0 < PLANNER_BUFFER_POOL_SIZE ≤ 255 →
  ∃ σ',
    mp_flush_planner σ = Some ((), σ') ∧
    reachable 0 σ' ∧
    buffers_available (mb σ') = Z.of_nat PLANNER_BUFFER_POOL_SIZE ∧
    count_in_use σ' = 0 ∧
    (∀ σ0 σ1, mp_init_buffers σ0 = Some ((), σ1) → mb σ' = mb σ1) ∧
    mm_position σ' = mm_position σ ∧ mr σ' = mr σ ∧
    calls σ' = calls σ ++ [cm_abort_arc; cm_set_motion_state_MOTION_STOP].
Proof.
  intros Hn. eexists. split; [apply mp_flush_planner_eq|].
  destruct (fresh_inv σ (calls σ ++ [cm_abort_arc; cm_set_motion_state_MOTION_STOP]) Hn)
    as (Hinv & _ & Hr).
  split; [done|]. pose proof Hinv as [].
  split; [rewrite inv_avail0; f_equal; lia|]. split; [done|].
  split; [|done].
  intros σ0 σ1 Hi. rewrite mp_init_buffers_eq in Hi. by injection Hi as <-.
Qed.

(** X15: [planner_init] leaves a planner with nothing queued: both position
    vectors and the step registers are zero, every block is Empty and
    available, and no call is made. *)
Theorem planner_init_resets σ :
  0 < PLANNER_BUFFER_POOL_SIZE ≤ 255 →
  ∃ σ',
    planner_init σ = Some ((), σ') ∧
    api_reachable σ' ∧
    (∀ axis, axis < AXES →
       mm_position σ' !! axis = Some f_zero ∧
       mr_position (mr σ') !! axis = Some f_zero) ∧
    (∀ motor, motor < MOTORS →
       target_steps (mr σ') !! motor = Some f_zero ∧
       position_steps (mr σ') !! motor = Some f_zero ∧
       commanded_steps (mr σ') !! motor = Some f_zero ∧
       following_error (mr σ') !! motor = Some f_zero) ∧
    buffers_available (mb σ') = Z.of_nat PLANNER_BUFFER_POOL_SIZE ∧
    count_in_use σ' = 0 ∧
    (∃ σ'', mp_get_run_buffer σ' = Some (None, σ'')) ∧
    calls σ' = calls σ.
Proof.
  intros Hn. eexists. split; [apply planner_init_eq|].
  split; [eapply api_init; apply planner_init_eq|].
  destruct (fresh_inv (with_mm_position (replicate AXES f_zero) (with_mr mr_zero σ))
                      (calls σ) Hn) as (Hinv0 & _ & _).
  assert (Hinv : ring_inv (with_mb mb_fresh
                   (with_mm_position (replicate AXES f_zero) (with_mr mr_zero σ))) 0 0 0)
    by (eapply ring_inv_frame; [|exact Hinv0]; done).
  pose proof Hinv as [].
  split.
  { intros axis Ha. unfold AXES in *. simpl.
    repeat (destruct axis as [|axis]; [done|]). lia. }
  split; [intros motor Hm; simpl; by rewrite !lookup_replicate_2|].
  split; [rewrite inv_avail0; f_equal; lia|]. split; [done|].
  split; [|done].
  destruct (get_run_ok _ _ _ _ Hinv) as (σ'' & Hg & _). by exists σ''.
Qed.

(** X16: between the calls of the planner's interface no block is left
    Loading.  From [planner_init], through any sequence of flushes, dwells,
    commands, runs and position updates, the accounting holds, the write and
    queue cursors agree, no block is Loading, and [mp_dwell] and
    [mp_queue_command] always return. *)
Theorem api_no_loading σ :
  0 < PLANNER_BUFFER_POOL_SIZE ≤ 255 →
  api_reachable σ →
  (buffers_available (mb σ) + Z.of_nat (count_in_use σ))%Z
    = Z.of_nat PLANNER_BUFFER_POOL_SIZE ∧
  mb_w (mb σ) = mb_q (mb σ) ∧
  (∀ i, state_at σ (Some i) ≠ Some MP_BUFFER_LOADING) ∧
  (∀ seconds, ∃ st σ', mp_dwell seconds σ = Some (st, σ')) ∧
  (∀ cm_exec value flag, ∃ σ', mp_queue_command cm_exec value flag σ = Some ((), σ')).
Proof.
  intros Hn Ha. destruct (api_inv _ Hn Ha) as (ri & na & Hinv & Hsl).
  pose proof Hinv as []. split_and!.
  - rewrite inv_avail0, inv_count0. lia.
  - rewrite inv_w0, inv_q0. by rewrite Nat.add_0_r.
  - intros i Hs. unfold state_at, block_at in Hs. simpl in Hs.
    destruct (mb_bf (mb σ) !! i) as [b|] eqn:Hb; [|done]. simpl in Hs.
    injection Hs as Hs. pose proof (inv_states0 _ _ Hb) as Hst. rewrite Hs in Hst.
    apply state_ok_inv_loading in Hst. lia.
  - intros seconds. rewrite Nat.add_0_r in *.
    destruct (decide (na < PLANNER_BUFFER_POOL_SIZE)) as [Hlt|Hge].
    + destruct (ring_inv_block _ _ _ _ (ring_idx ri na) Hinv) as (b & Hb & _ & _ & Hstb);
        [apply ring_idx_lt; lia|].
      assert (He : buffer_state b = MP_BUFFER_EMPTY).
      { rewrite ring_off_idx in Hstb by lia.
        destruct (state_ok_cases _ _ _ _ Hstb) as [[]|[[]|[]]]; (lia || done). }
      rewrite (mp_dwell_eq σ _ b seconds inv_w0 inv_q0 Hb He). by eexists _, _.
    + rewrite (mp_dwell_full σ seconds) by (eapply get_write_full; [exact Hinv|lia]).
      by eexists _, _.
  - intros cm_exec value flag. rewrite Nat.add_0_r in *.
    destruct (decide (na < PLANNER_BUFFER_POOL_SIZE)) as [Hlt|Hge].
    + destruct (ring_inv_block _ _ _ _ (ring_idx ri na) Hinv) as (b & Hb & _ & _ & Hstb);
        [apply ring_idx_lt; lia|].
      assert (He : buffer_state b = MP_BUFFER_EMPTY).
      { rewrite ring_off_idx in Hstb by lia.
        destruct (state_ok_cases _ _ _ _ Hstb) as [[]|[[]|[]]]; (lia || done). }
      rewrite (mp_queue_command_eq σ _ b cm_exec value flag inv_w0 inv_q0 Hb He).
      by eexists.
    + rewrite (mp_queue_command_full σ cm_exec value flag)
        by (eapply get_write_full; [exact Hinv|lia]).
      by eexists.
Qed.

(** What [mp_get_last_buffer] returns in a pool laid out as the ring
    invariant says. *)
Lemma last_buffer_at σ ri na :
  follows_link mp_get_next_buffer →
  ring_inv σ ri na 0 → slots_ok (mb_bf (mb σ)) ri na →
  ∃ σ',
    mp_get_last_buffer PLANNER_BUFFER_POOL_SIZE σ
      = Some (if decide (0 < na) then Some (ring_idx ri (na - 1)) else None, σ') ∧
    mp_get_run_buffer σ = Some (if decide (0 < na) then Some ri else None, σ') ∧
    ring_inv σ' ri na 0.
Proof.
  intros Hnext Hinv Hsl.
  destruct (get_run_step _ _ _ _ Hinv Hsl) as (b & σ' & _ & Hg & _ & Hinv' & Hsl').
  exists σ'. split; [|done].
  unfold mp_get_last_buffer. erewrite bind_Some by exact Hg.
  pose proof (inv_ri _ _ _ _ Hinv). pose proof (inv_sum _ _ _ _ Hinv).
  destruct na as [|na].
  - rewrite !decide_False by lia. clear. by destruct PLANNER_BUFFER_POOL_SIZE.
  - rewrite !decide_True by lia.
    rewrite <- (ring_idx_0 ri) at 2 by done.
    by rewrite (last_buffer_loop_spec σ' ri (S na) 0) by (done || lia).
Qed.

(** X10: with [mp_get_next_buffer] following the forward link, between the
    calls of the planner's interface [mp_get_last_buffer] returns the end of
    the queue: nothing when no block is in use, and otherwise the committed
    block whose forward link is the queue cursor, where the next command
    will go.  Right after a dwell or a command is queued it is the block
    just queued.  The walk along the ring ends within the pool size, and the
    state it leaves is the one [mp_get_run_buffer] leaves. *)
Theorem last_buffer_is_newest σ :
  0 < PLANNER_BUFFER_POOL_SIZE ≤ 255 →
  follows_link mp_get_next_buffer →
  api_reachable σ →
  (∃ p r σ',
     mp_get_last_buffer PLANNER_BUFFER_POOL_SIZE σ = Some (p, σ') ∧
     mp_get_run_buffer σ = Some (r, σ') ∧
     (count_in_use σ = 0 → p = None ∧ r = None) ∧
     (0 < count_in_use σ →
      ∃ i b, p = Some i ∧ block_at σ' (Some i) = Some b ∧
             committed (buffer_state b) ∧ nx b = mb_q (mb σ))) ∧
  (∀ i, mb_q (mb σ) = Some i → (0 < buffers_available (mb σ))%Z →
     (∀ seconds st σ1,
        mp_dwell seconds σ = Some (st, σ1) →
        ∃ σ2, mp_get_last_buffer PLANNER_BUFFER_POOL_SIZE σ1 = Some (Some i, σ2)) ∧
     (∀ cm_exec value flag σ1,
        mp_queue_command cm_exec value flag σ = Some ((), σ1) →
        ∃ σ2, mp_get_last_buffer PLANNER_BUFFER_POOL_SIZE σ1 = Some (Some i, σ2))).
Proof.
  intros Hn Hnext Ha. destruct (api_inv _ Hn Ha) as (ri & na & Hinv & Hsl).
  pose proof Hinv as []. rewrite Nat.add_0_r in *. split.
  - destruct (last_buffer_at σ ri na Hnext Hinv Hsl) as (σ' & Hl & Hg & Hinv').
    eexists _, _, σ'. split; [exact Hl|]. split; [exact Hg|]. split.
    + intros H0. rewrite !decide_False by lia. done.
    + intros Hpos. rewrite decide_True by lia.
      assert (Hi : ring_idx ri (na - 1) < PLANNER_BUFFER_POOL_SIZE)
        by (apply ring_idx_lt; lia).
      destruct (ring_inv_block _ _ _ _ _ Hinv' Hi) as (b & Hb & Hnx & _ & Hst).
      exists (ring_idx ri (na - 1)), b. split; [done|]. split; [exact Hb|]. split.
      * rewrite ring_off_idx in Hst by lia.
        destruct (state_ok_cases _ _ _ _ Hst) as [[]|[[]|[]]]; (lia || done).
      * rewrite Hnx, inv_q0. f_equal. rewrite bump_idx by lia. f_equal. lia.
  - intros i Hq Hav. assert (i = ring_idx ri na) as -> by congruence.
    assert (Hlt : na < PLANNER_BUFFER_POOL_SIZE) by lia.
    destruct (ring_inv_block _ _ _ _ (ring_idx ri na) Hinv) as (b & Hb & _ & _ & Hstb);
      [apply ring_idx_lt; lia|].
    assert (He : buffer_state b = MP_BUFFER_EMPTY).
    { rewrite ring_off_idx in Hstb by lia.
      destruct (state_ok_cases _ _ _ _ Hstb) as [[]|[[]|[]]]; (lia || done). }
    split.
    + intros seconds st σ1 Hd.
      pose proof (mp_dwell_eq σ _ b seconds inv_w0 inv_q0 Hb He) as Heq.
      match type of Heq with context [<[_ := ?x]> _] => set (bnew := x) in * end.
      destruct (enqueue_inv σ ri na b bnew (calls σ ++ [st_request_exec_move])
                  Hinv Hsl Hlt Hb eq_refl eq_refl eq_refl eq_refl) as [Hinv1 Hsl1].
      rewrite Heq in Hd. injection Hd as _ <-.
      destruct (last_buffer_at _ ri (S na) Hnext Hinv1 Hsl1) as (σ2 & Hl & _).
      exists σ2. rewrite Hl. rewrite decide_True by lia.
      by replace (S na - 1) with na by lia.
    + intros cm_exec value flag σ1 Hc.
      pose proof (mp_queue_command_eq σ _ b cm_exec value flag inv_w0 inv_q0 Hb He) as Heq.
      match type of Heq with context [<[_ := ?x]> _] => set (bnew := x) in * end.
      destruct (enqueue_inv σ ri na b bnew (calls σ ++ [st_request_exec_move])
                  Hinv Hsl Hlt Hb eq_refl eq_refl eq_refl eq_refl) as [Hinv1 Hsl1].
      rewrite Heq in Hc. injection Hc as <-.
      destruct (last_buffer_at _ ri (S na) Hnext Hinv1 Hsl1) as (σ2 & Hl & _).
      exists σ2. rewrite Hl. rewrite decide_True by lia.
      by replace (S na - 1) with na by lia.
Qed.

(** X12: between the calls of the planner's interface the move state tells
    the committed blocks from the others: a block is [MOVE_NEW] exactly when
    it is Queued, Pending or Running, and [MOVE_OFF] exactly when it is
    Empty. *)
Theorem move_state_marks_committed σ i b :
  0 < PLANNER_BUFFER_POOL_SIZE ≤ 255 →
  api_reachable σ →
  block_at σ (Some i) = Some b →
  (move_state b = MOVE_NEW ↔ committed (buffer_state b)) ∧
  (move_state b = MOVE_OFF ↔ buffer_state b = MP_BUFFER_EMPTY).
Proof.
  intros Hn Ha Hb. simpl in Hb.
  destruct (api_inv _ Hn Ha) as (ri & na & Hinv & Hsl). pose proof Hinv as [].
  pose proof (inv_states0 _ _ Hb) as Hst. pose proof (Hsl _ _ Hb) as [_ Hnew].
  destruct (state_ok_cases _ _ _ _ Hst) as [[Hk Hc]|[[Hk Hs]|[Hk Hs]]].
  - assert (Hm : move_state b = MOVE_NEW) by (apply Hnew; lia).
    split; [done|]. rewrite Hm. split; [done|].
    intros He. rewrite He in Hc. destruct Hc as [?|[?|?]]; done.
  - lia.
  - assert (Hm : move_state b = MOVE_OFF)
      by (destruct (move_state b); [done|]; assert (ring_off ri i < na) by (by apply Hnew); lia).
    rewrite Hm, Hs. unfold committed. split; split; try done.
    intros [?|[?|?]]; done.
Qed.

(** X17: a dwell queued on a planner with room.  [mp_dwell] returns
    [STAT_OK]; the block at the queue cursor is Queued as a dwell with the
    dwell callback and the time asked for; one buffer less is available, the
    run cursor is where it was, and the stepper is asked once to execute a
    move. *)
Theorem dwell_queues_block σ seconds :
  0 < PLANNER_BUFFER_POOL_SIZE ≤ 255 →
  api_reachable σ →
  (0 < buffers_available (mb σ))%Z →
  ∃ i σ' b',
    mb_q (mb σ) = Some i ∧
    mp_dwell seconds σ = Some (STAT_OK, σ') ∧
    api_reachable σ' ∧
    block_at σ' (Some i) = Some b' ∧
    buffer_state b' = MP_BUFFER_QUEUED ∧
    move_type b' = MOVE_TYPE_DWELL ∧
    bf_func b' = ptr_exec_dwell ∧
    gm_move_time b' = seconds ∧
    buffers_available (mb σ') = (buffers_available (mb σ) - 1)%Z ∧
    count_in_use σ' = S (count_in_use σ) ∧
    mb_r (mb σ') = mb_r (mb σ) ∧
    (∀ j, j ≠ i → block_at σ' (Some j) = block_at σ (Some j)) ∧
    calls σ' = calls σ ++ [st_request_exec_move].
Proof.
  intros Hn Ha Hav. destruct (api_inv _ Hn Ha) as (ri & na & Hinv & Hsl).
  pose proof Hinv as []. rewrite Nat.add_0_r in *.
  assert (Hlt : na < PLANNER_BUFFER_POOL_SIZE) by lia.
  destruct (ring_inv_block _ _ _ _ (ring_idx ri na) Hinv) as (b & Hb & _ & _ & Hstb);
    [apply ring_idx_lt; lia|].
  assert (He : buffer_state b = MP_BUFFER_EMPTY).
  { rewrite ring_off_idx in Hstb by lia.
    destruct (state_ok_cases _ _ _ _ Hstb) as [[]|[[]|[]]]; (lia || done). }
  pose proof (mp_dwell_eq σ _ b seconds inv_w0 inv_q0 Hb He) as Hd.
  match type of Hd with context [<[_ := ?x]> _] => set (bnew := x) in * end.
  destruct (enqueue_inv σ ri na b bnew (calls σ ++ [st_request_exec_move])
              Hinv Hsl Hlt Hb eq_refl eq_refl eq_refl eq_refl) as [Hinv' _].
  pose proof Hinv' as [].
  eexists _, _, bnew. split; [exact inv_q0|]. split; [exact Hd|].
  split; [by eapply api_dwell|].
  split; [simpl; apply list_lookup_insert_eq; by eapply lookup_lt_Some|].
  do 4 (split; [done|]).
  split; [simpl in *; lia|]. split; [lia|].
  split; [done|]. split; [|done].
  intros j Hj. simpl. by rewrite list_lookup_insert_ne.
Qed.



(** ** The producer and the consumer keep apart *)






(** ** Copying a block *)

(** X21: [mp_copy_buffer] preserves links.  Copying block [j] into another
    block [i] gives [i] every field of [j] but the two links, which stay
    those of [i]; so a well-linked ring stays well linked; the source, the
    other blocks, the cursors and the count of available buffers are as
    before. *)
Theorem copy_buffer_keeps_links σ i j b s :
  i ≠ j →
  block_at σ (Some i) = Some b →
  block_at σ (Some j) = Some s →
  ∃ σ' b',
    mp_copy_buffer (Some i) (Some j) σ = Some ((), σ') ∧
    block_at σ' (Some i) = Some b' ∧
    nx b' = nx b ∧ pv b' = pv b ∧
    set_pv (pv s) (set_nx (nx s) b') = s ∧
    (∀ k, k ≠ i → block_at σ' (Some k) = block_at σ (Some k)) ∧
    (links_ok (mb_bf (mb σ)) → links_ok (mb_bf (mb σ'))) ∧
    mb_w (mb σ') = mb_w (mb σ) ∧ mb_q (mb σ') = mb_q (mb σ) ∧
    mb_r (mb σ') = mb_r (mb σ) ∧
    buffers_available (mb σ') = buffers_available (mb σ) ∧
    calls σ' = calls σ.
Proof.
  intros Hne Hb Hs. simpl in Hb, Hs.
  assert (Hi : i < length (mb_bf (mb σ))) by (by eapply lookup_lt_Some).
  assert (Heq : mp_copy_buffer (Some i) (Some j) σ =
                Some ((), with_mb (pool (buffers_available (mb σ)) (mb_w (mb σ))
                                        (mb_q (mb σ)) (mb_r (mb σ))
                                        (<[i := set_pv (pv b) (set_nx (nx b) s)]>
                                           (mb_bf (mb σ)))) σ)).
  { unfold mp_copy_buffer. open_world σ.
    run_load. run_load.
    erewrite bind_Some by (by apply store_Some). simpl.
    run_update. rewrite list_insert_insert_eq.
    erewrite update_Some by lookup_tac. simpl.
    by rewrite list_insert_insert_eq. }
  eexists _, _. split; [exact Heq|]. simpl.
  split; [by apply list_lookup_insert_eq|].
  split; [done|]. split; [done|]. split; [by destruct s|].
  split; [intros k Hk; by rewrite list_lookup_insert_ne|].
  split; [|done].
  intros Hl. eapply links_ok_insert; eauto.
Qed.

(** ** Positions *)

(** X22: setting one axis of the runtime position and then the steps.  With
    at most 255 motors, after [mp_set_runtime_position] on one of the six
    axes and [mp_set_steps_to_runtime_position] the axis holds the new
    position and the others what they held, every motor's encoder register
    holds its component of the inverse kinematics of the updated position,
    and the planner position and the queue are untouched.
    [mp_set_planner_position] takes its axis as a [uint8_t]: it writes the
    entry at the argument modulo 256 when that is one of the six axes,
    leaving the runtime position, the steps and the queue untouched, and
    writes out of bounds otherwise, as [mp_set_runtime_position] does. *)
Theorem runtime_position_to_steps σ axis position fuel :
  MOTORS ≤ 255 → MOTORS ≤ fuel →
  axis < AXES →
  length (mr_position (mr σ)) = AXES →
  length (mm_position σ) = AXES →
  ∃ σ1 σ2,
    mp_set_runtime_position axis position σ = Some ((), σ1) ∧
    mp_set_steps_to_runtime_position fuel σ1 = Some ((), σ2) ∧
    mr_position (mr σ2) !! axis = Some position ∧
    (∀ a, a ≠ axis → mr_position (mr σ2) !! a = mr_position (mr σ) !! a) ∧
    (∀ motor, motor < MOTORS →
       encoder_register (calls σ2) motor
       = Some (ik_kinematics (<[axis := position]> (mr_position (mr σ))) motor)) ∧
    mm_position σ2 = mm_position σ ∧ mb σ2 = mb σ ∧
    (∀ a p, a mod 256 < AXES →
       ∃ σ3, mp_set_planner_position a p σ2 = Some ((), σ3) ∧
             mm_position σ3 !! (a mod 256) = Some p ∧
             (∀ a', a' ≠ a mod 256 → mm_position σ3 !! a' = mm_position σ2 !! a') ∧
             mr σ3 = mr σ2 ∧ mb σ3 = mb σ2 ∧ calls σ3 = calls σ2) ∧
    (∀ a p, AXES ≤ a mod 256 →
       mp_set_planner_position a p σ2 = None ∧
       mp_set_runtime_position a p σ2 = None).
Proof.
  intros Hm Hfuel Ha Hlen Hlenm.
  assert (Hax : axis mod 256 = axis) by (apply Nat.mod_small; unfold AXES in Ha; lia).
  eexists _, _. split.
  { unfold mp_set_runtime_position. rewrite bind_get_world, Hax.
    rewrite decide_True by lia. reflexivity. }
  split.
  { unfold mp_set_steps_to_runtime_position. rewrite bind_get_world.
    rewrite (for_loop_u8_eq MOTORS) by lia. apply set_steps_loop. }
  simpl.
  split; [apply list_lookup_insert_eq; lia|].
  split; [intros a Hne; by apply list_lookup_insert_ne|].
  split; [intros motor Hlt; by rewrite encoder_register_last by lia|].
  split; [done|]. split; [done|]. split.
  - intros a p Hin. eexists. split.
    { unfold mp_set_planner_position. simpl. rewrite decide_True by lia. reflexivity. }
    simpl. split; [apply list_lookup_insert_eq; lia|].
    split; [intros a' Hne; by apply list_lookup_insert_ne|]. done.
  - intros a p Hout. split.
    + unfold mp_set_planner_position. simpl. by rewrite decide_False by lia.
    + unfold mp_set_runtime_position. rewrite bind_get_world. simpl.
      rewrite length_insert. by rewrite decide_False by lia.
Qed.

(** ** Outside the preconditions *)

Lemma count_insert_idle (bf : list mpBuf_t) i b b' :
  bf !! i = Some b → buffer_state b = MP_BUFFER_EMPTY →
  buffer_state b' = MP_BUFFER_EMPTY →
  length (filter in_use (<[i := b']> bf)) = length (filter in_use bf).
Proof.
  intros Hb He He'. pose proof (count_insert _ _ _ b' Hb) as Hc.
  rewrite decide_False in Hc by (rewrite in_use_iff; rewrite He; auto).
  rewrite decide_False in Hc by (rewrite in_use_iff; rewrite He'; auto).
  lia.
Qed.

(** X23: the queue operations do not check their preconditions.  On an
    idle pool, where no write buffer is outstanding and no block is Running,
    [mp_commit_write_buffer], [mp_unget_write_buffer] and
    [mp_free_run_buffer] all return, and each leaves the count of available
    buffers and the blocks in use adding up to one more than the pool
    holds. *)
Theorem preconditions_are_needed σ ty :
  0 < PLANNER_BUFFER_POOL_SIZE < 255 →
  reachable 0 σ →
  count_in_use σ = 0 →
  (∃ σ', mp_commit_write_buffer ty σ = Some ((), σ') ∧
         count_in_use σ' = 1 ∧
         buffers_available (mb σ') = Z.of_nat PLANNER_BUFFER_POOL_SIZE) ∧
  (∃ σ', mp_unget_write_buffer σ = Some ((), σ') ∧
         count_in_use σ' = 0 ∧
         buffers_available (mb σ') = (Z.of_nat PLANNER_BUFFER_POOL_SIZE + 1)%Z) ∧
  (∃ e σ', mp_free_run_buffer σ = Some (e, σ') ∧
           count_in_use σ' = 0 ∧
           buffers_available (mb σ') = (Z.of_nat PLANNER_BUFFER_POOL_SIZE + 1)%Z).
Proof.
  intros Hn Hr Hidle.
  destruct (reachable_inv _ _ ltac:(lia) Hr) as (ri & na & Hinv). pose proof Hinv as [].
  assert (na = 0) as -> by lia. simpl in *. rewrite ring_idx_0 in * by done.
  assert (Hempty : ∀ i b, mb_bf (mb σ) !! i = Some b → buffer_state b = MP_BUFFER_EMPTY).
  { intros i b Hb. pose proof (inv_states0 _ _ Hb) as Hst.
    destruct (state_ok_cases _ _ _ _ Hst) as [[]|[[]|[]]]; (lia || done). }
  destruct (ring_inv_block _ _ _ _ ri Hinv) as (b & Hb & Hnx & Hpv & _); [done|].
  pose proof (Hempty _ _ Hb) as He.
  assert (Hav : uint8 (buffers_available (mb σ) + 1)
                = (Z.of_nat PLANNER_BUFFER_POOL_SIZE + 1)%Z).
  { rewrite inv_avail0. rewrite uint8_small by lia. lia. }
  split_and!.
  - eexists. split; [by eapply mp_commit_write_buffer_eq|]. simpl. split.
    + unfold count_in_use in *. simpl.
      pose proof (count_insert _ _ _ (queued_of ty b) Hb) as Hc.
      rewrite decide_False in Hc by (rewrite in_use_iff; rewrite He; auto).
      rewrite decide_True in Hc by (rewrite in_use_iff; simpl; congruence).
      lia.
    + rewrite inv_avail0. f_equal. lia.
  - destruct (ring_inv_block _ _ _ _ (ring_pred ri) Hinv) as (bj & Hbj & _);
      [unfold ring_pred; case_decide; lia|].
    eexists. split; [by eapply mp_unget_write_buffer_eq|]. simpl. split; [|done].
    unfold count_in_use in *. simpl. rewrite <- Hidle.
    eapply count_insert_idle; [exact Hbj|by eapply Hempty|done].
  - assert (Hj : _bump ri < PLANNER_BUFFER_POOL_SIZE) by (apply bump_lt; lia).
    destruct (lookup_lt_is_Some_2 (<[ri := cleared_of b]> (mb_bf (mb σ))) (_bump ri))
      as [bj Hbj]; [rewrite length_insert; lia|].
    assert (Hej : buffer_state bj = MP_BUFFER_EMPTY).
    { destruct (decide (ri = _bump ri)) as [Heq|Hne].
      - rewrite <- Heq, list_lookup_insert_eq in Hbj by lia. by injection Hbj as <-.
      - rewrite list_lookup_insert_ne in Hbj by done. by eapply Hempty. }
    eexists _, _. split; [by eapply mp_free_run_buffer_eq|]. simpl.
    rewrite decide_False by (rewrite Hej; done). split; [|done].
    unfold count_in_use in *. simpl. rewrite <- Hidle.
    eapply count_insert_idle; [exact Hb|done|done].
Qed.

End Firmware.

(** * Concrete runs *)

(** A pool of four blocks after [demo_ops]: two blocks are Loading. *)
Lemma pool_accounting_witness :
  ∃ o σ,
    run_ops 4 demo_ops world_blank = Some (o, σ) ∧
    count_in_use σ = 2 ∧
    (buffers_available (mb σ) + Z.of_nat (count_in_use σ))%Z = 4%Z.
Proof.
  eexists _, _. split; [vm_compute; reflexivity|]. split; [vm_compute; reflexivity|].
  apply (pool_accounting 4 2); [lia|].
  apply (run_ops_reachable 4 demo_ops world_blank). vm_compute. reflexivity.
Defined.

(** A fresh pool of four blocks: the first get hands out block 0, four gets
    hand out blocks 0 to 3 and the fifth returns nothing. *)
Lemma get_write_buffer_spec_witness :
  ∃ σ1 σ2 σ3,
    mp_init_buffers 4 world_blank = Some ((), σ1) ∧
    mp_get_write_buffer σ1 = Some (Some 0, σ2) ∧
    buffers_available (mb σ2) = 3%Z ∧
    mb_w (mb σ2) = Some 1 ∧
    state_at σ2 (Some 0) = Some MP_BUFFER_LOADING ∧
    get_writes 4 σ1 = Some ([Some 0; Some 1; Some 2; Some 3], σ3) ∧
    mp_get_write_buffer σ3 = Some (None, σ3).
Proof.
  destruct (get_write_buffer_spec 4) as [Hone Hall].
  destruct (Hall ltac:(lia) world_blank) as (σ1 & σ3 & Hi & Hg & _ & _ & _ & Hfull).
  pose proof Hi as Hi'. vm_compute in Hi'. injection Hi' as Hσ1.
  destruct (mb_bf (mb σ1) !! 0) as [b|] eqn:Hb; [|by subst σ1].
  assert (Hw : mb_w (mb σ1) = Some 0) by (by subst σ1).
  pose proof (Hone σ1 0 b Hw Hb) as Hget.
  assert (He : buffer_state b = MP_BUFFER_EMPTY) by (subst σ1; by injection Hb as <-).
  rewrite decide_True in Hget by done. destruct Hget as [Hget _].
  exists σ1. eexists. exists σ3. split; [exact Hi|]. split; [exact Hget|].
  split; [by subst σ1|]. split; [subst σ1; by injection Hb as <-|].
  split; [subst σ1; reflexivity|]. split; [exact Hg|exact Hfull].
Defined.

(** Two dwells queued, the first running: freeing it returns false and the
    second becomes Pending.  One dwell queued and running: freeing it returns
    true and leaves the pool empty. *)
Lemma free_run_buffer_spec_witness :
  (∃ o σ σ',
     run_ops 4 ops_two_running world_blank = Some (o, σ) ∧
     mp_free_run_buffer σ = Some (false, σ') ∧
     mb_r (mb σ') = Some 1 ∧
     state_at σ' (Some 0) = Some MP_BUFFER_EMPTY ∧
     state_at σ' (Some 1) = Some MP_BUFFER_PENDING ∧
     buffers_available (mb σ') = 3%Z) ∧
  (∃ o σ σ',
     run_ops 4 ops_one_running world_blank = Some (o, σ) ∧
     mp_free_run_buffer σ = Some (true, σ') ∧
     mb_w (mb σ') = mb_r (mb σ') ∧
     count_in_use σ' = 0 ∧
     buffers_available (mb σ') = 4%Z).
Proof.
  destruct (free_run_buffer_spec 4) as [Hstep Hreach].
  specialize (Hreach ltac:(lia)).
  split.
  - eexists _, _, _. split; [vm_compute; reflexivity|].
    match goal with |- mp_free_run_buffer ?σ = _ ∧ _ =>
      destruct (Hreach 0 σ) as (e & σ' & Hf & Hav & He & Hwr & Hcnt & Hq);
        [ apply (run_ops_reachable 4 ops_two_running world_blank); vm_compute; reflexivity
        | vm_compute; reflexivity | ]
    end.
    edestruct Hq as [-> Hp]; [vm_compute; reflexivity | vm_compute; reflexivity |].
    pose proof Hf as Hf'. vm_compute in Hf'. injection Hf' as Hσ'.
    split; [rewrite Hf; subst σ'; reflexivity|].
    subst σ'. repeat split.
  - eexists _, _, _. split; [vm_compute; reflexivity|].
    match goal with |- mp_free_run_buffer ?σ = _ ∧ _ =>
      destruct (Hreach 0 σ) as (e & σ' & Hf & Hav & He & Hwr & Hcnt & Hq);
        [ apply (run_ops_reachable 4 ops_one_running world_blank); vm_compute; reflexivity
        | vm_compute; reflexivity | ]
    end.
    pose proof Hf as Hf'. vm_compute in Hf'. injection Hf' as Hσe Hσ'.
    split; [rewrite Hf; subst σ' e; reflexivity|].
    subst σ'. repeat split.
Defined.

(** A queued dwell: the first call returns block 0 and makes it Running, the
    second returns block 0 again and changes nothing. *)
Lemma get_run_buffer_spec_witness :
  ∃ o σ σ1,
    run_ops 4 ops_one_queued world_blank = Some (o, σ) ∧
    state_at σ (Some 0) = Some MP_BUFFER_QUEUED ∧
    mp_get_run_buffer σ = Some (Some 0, σ1) ∧
    state_at σ1 (Some 0) = Some MP_BUFFER_RUNNING ∧
    mp_get_run_buffer σ1 = Some (Some 0, σ1).
Proof.
  eexists _, _, _. split; [vm_compute; reflexivity|].
  split; [vm_compute; reflexivity|].
  match goal with |- mp_get_run_buffer ?σ = _ ∧ _ =>
    edestruct (get_run_buffer_spec σ 0) as (Hq & _ & _ & Htwice);
      [vm_compute; reflexivity | vm_compute; reflexivity |]
  end.
  specialize (Hq ltac:(left; reflexivity)).
  destruct (Htwice _ _ Hq ltac:(done)) as (_ & Hrun & Hagain).
  split; [exact Hq|]. split; [exact Hrun|exact Hagain].
Defined.

(** A fresh pool of four blocks: a get followed by an unget restores the
    write cursor, the block and the counter, and three gets are undone by
    three ungets. *)
Lemma unget_write_buffer_spec_witness :
  ∃ σ σ1 σ2 σ3 σ4,
    mp_init_buffers 4 world_blank = Some ((), σ) ∧
    mp_get_write_buffer σ = Some (Some 0, σ1) ∧
    mp_unget_write_buffer σ1 = Some ((), σ2) ∧
    mb_w (mb σ2) = Some 0 ∧
    state_at σ2 (Some 0) = Some MP_BUFFER_EMPTY ∧
    buffers_available (mb σ2) = 4%Z ∧
    get_writes 3 σ = Some ([Some 0; Some 1; Some 2], σ3) ∧
    unget_writes 3 σ3 = Some ((), σ4) ∧
    mb_w (mb σ4) = Some 0 ∧
    buffers_available (mb σ4) = 4%Z ∧
    (∀ p, state_at σ4 p = state_at σ p).
Proof.
  destruct (unget_write_buffer_spec 4) as (Hstep & Hround & Hlifo).
  specialize (Hlifo ltac:(lia)).
  evar (σ : world).
  assert (Hi : mp_init_buffers 4 world_blank = Some ((), σ))
    by (subst σ; vm_compute; reflexivity).
  edestruct (Hround σ 0) as (σ1 & σ2 & Hg & Hu & Hw & Hs & Ha);
    [reflexivity | reflexivity | reflexivity | reflexivity | simpl; lia
    | intros bj [= <-]; reflexivity | simpl; lia | ].
  evar (σ3 : world).
  assert (Hg3 : get_writes 3 σ = Some ([Some 0; Some 1; Some 2], σ3))
    by (subst σ σ3; vm_compute; reflexivity).
  destruct (Hlifo 0 σ 3 [Some 0; Some 1; Some 2] σ3) as (σ4 & Hu3 & Hw3 & Ha3 & Hs3);
    [ apply (reach_init 4 world_blank); exact Hi
    | exact Hg3
    | repeat (apply Forall_cons_2; [by eexists|]); apply Forall_nil_2 | ].
  exists σ, σ1, σ2, σ3, σ4.
  split; [exact Hi|]. split; [exact Hg|]. split; [exact Hu|]. split; [exact Hw|].
  split; [exact Hs|]. split; [exact Ha|]. split; [exact Hg3|].
  split; [exact Hu3|]. split; [exact Hw3|]. split; [exact Ha3|exact Hs3].
Defined.

(** A command queued on a fresh pool of four blocks with the values 1 to 6
    and the flags 1, 0, 1, 0, 1, 0; then the caller's memory is overwritten
    with nines, the consumer takes the block to run, and the callback still
    gets the values and flags of the time of queueing. *)
Lemma queue_command_copies_witness :
  ∃ σ0 σ1 σ2 σ3,
    mp_init_buffers 4 (with_ram demo_ram world_blank) = Some ((), σ0) ∧
    mp_queue_command (λ s, s) 7 0 8 σ0 = Some ((), σ1) ∧
    mp_get_run_buffer (with_ram (λ _, f_of_Z 9) σ1) = Some (Some 0, σ2) ∧
    state_at σ2 (Some 0) = Some MP_BUFFER_RUNNING ∧
    mp_runtime_command (Some 0) σ2 = Some (STAT_OK, σ3) ∧
    calls σ3 =
      [st_request_exec_move;
       call_cm_func 7
         [f_of_Z 1; f_of_Z 2; f_of_Z 3; f_of_Z 4; f_of_Z 5; f_of_Z 6]
         [f_of_Z 1; f_of_Z 0; f_of_Z 1; f_of_Z 0; f_of_Z 1; f_of_Z 0];
       cm_cycle_end].
Proof.
  destruct (queue_command_copies 4 (λ s, s)) as [Hcopy Hidle].
  evar (σ0 : world).
  assert (Hi : mp_init_buffers 4 (with_ram demo_ram world_blank) = Some ((), σ0))
    by (subst σ0; vm_compute; reflexivity).
  destruct (Hidle ltac:(lia) σ0) as (i & b & Hw0 & Hq0 & Hb0 & He0);
    [by apply (reach_init 4 (with_ram demo_ram world_blank)) | by subst σ0 |].
  assert (i = 0) as -> by (subst σ0; by injection Hw0).
  destruct (Hcopy σ0 0 b 7 0 8 Hw0 Hq0 Hb0 He0)
    as (σ1 & bq & Hq & Hb & Hst & _ & _ & _ & _ & _ & Hrun).
  pose proof Hq as Hq'. vm_compute in Hq'. injection Hq' as Hσ1.
  assert (Hnx : nx bq = Some 1) by (subst σ1; by injection Hb as <-).
  destruct (Hrun (with_ram (λ _, f_of_Z 9) σ1) MP_BUFFER_QUEUED 1)
    as (σ2 & σ3 & rest & Hg & Hst2 & _ & Hr & Hc);
    [ by left
    | rewrite set_buffer_state_same by exact Hst; exact Hb
    | by subst σ1 | exact Hnx | subst σ1; simpl; lia | ].
  exists σ0, σ1, σ2, σ3. split; [exact Hi|]. split; [exact Hq|]. split; [exact Hg|].
  split; [exact Hst2|]. split; [exact Hr|].
  pose proof Hg as Hg'. rewrite <- Hσ1 in Hg'. vm_compute in Hg'. injection Hg' as Hσ2.
  pose proof Hr as Hr'. rewrite <- Hσ2 in Hr'. vm_compute in Hr'.
  injection Hr' as Hσ3. rewrite <- Hσ3. reflexivity.
Defined.

(** Every block of a pool of four handed out: the next command and the next
    dwell raise the alarm and leave the pool alone. *)
Lemma buffer_full_is_fatal_witness :
  ∃ o σ,
    run_ops 4 ops_all_loading world_blank = Some (o, σ) ∧
    mp_get_write_buffer σ = Some (None, σ) ∧
    mp_queue_command (λ s, s) 7 100 200 σ =
      Some ((), with_calls [cm_hard_alarm STAT_BUFFER_FULL_FATAL] σ) ∧
    mp_dwell (λ s, s) (f_of_Z 2) σ =
      Some (STAT_BUFFER_FULL_FATAL, with_calls [cm_hard_alarm STAT_BUFFER_FULL_FATAL] σ).
Proof.
  eexists _, _. split; [vm_compute; reflexivity|].
  match goal with |- mp_get_write_buffer ?σ = _ ∧ _ =>
    assert (Hg : mp_get_write_buffer σ = Some (None, σ)) by (vm_compute; reflexivity);
    destruct (buffer_full_is_fatal (λ s, s) σ σ Hg) as (_ & Hq & Hd & _)
  end.
  split; [exact Hg|]. split; [exact (Hq 7 100 200)|exact (Hd (f_of_Z 2))].
Defined.

(** Four motors with leftovers in every register: the loop ends within four
    rounds, and afterwards the step registers and the encoders hold the
    kinematics' steps and the errors and corrections are zero. *)
Lemma set_steps_to_runtime_position_spec_witness :
  ∃ σ',
    mp_set_steps_to_runtime_position 4 demo_ik 4 world_dirty = Some ((), σ') ∧
    target_steps (mr σ') = [f_of_Z 10; f_of_Z 20; f_of_Z 30; f_of_Z 40] ∧
    encoder_register (calls σ') 0 = Some (f_of_Z 10) ∧
    (∀ motor, motor < 4 →
       following_error (mr σ') !! motor = Some f_zero ∧
       corrected_steps σ' !! motor = Some 0%Z).
Proof.
  destruct (set_steps_to_runtime_position_spec 4 demo_ik world_dirty 4)
    as (σ' & Hrun & _ & Hm); try reflexivity; try lia.
  exists σ'. split; [exact Hrun|].
  pose proof Hrun as Hrun'. vm_compute in Hrun'. injection Hrun' as Hσ'.
  split; [by subst σ'|].
  split; [by destruct (Hm 0 ltac:(lia)) as (_ & _ & _ & He & _)|].
  intros motor Hlt. destruct (Hm motor Hlt) as (_ & _ & _ & _ & Hf & Hc). by split.
Defined.

(** The length from the point one on the X axis to itself is [+0]. *)
Lemma vector_length_spec_witness :
  axis_get_vector_length (along_x f_one) (along_x f_one) = f_zero.
Proof.
  destruct vector_length_spec as (_ & Hself & _ & _).
  apply Hself. intros [|axis] _; reflexivity.
Defined.

(** C9 as the spec states it fails on the code.  On the X axis, with
    [a = 1 + 2^-23], [c = 2^-24] and [b = 0], the length from [a] to [b] is
    [1 + 2^-23] while the lengths from [a] to [c] and from [c] to [b] add up
    to [1]: the triangle inequality is lost to rounding.  With [a = 3 * 2^62],
    [b = - a] and [c = 0] it is lost to overflow: the length from [a] to [b]
    is infinite, the other two are [3 * 2^62] each.  And the length from a
    vector with an infinite component to itself is NaN, not zero. *)
Lemma vector_length_not_a_metric :
  f_le (axis_get_vector_length (along_x f_one_ulp) (along_x f_zero))
       (f_add (axis_get_vector_length (along_x f_one_ulp) (along_x f_half_ulp))
              (axis_get_vector_length (along_x f_half_ulp) (along_x f_zero)))
    = false ∧
  axis_get_vector_length (along_x f_one_ulp) (along_x f_zero) = f_one_ulp ∧
  f_add (axis_get_vector_length (along_x f_one_ulp) (along_x f_half_ulp))
        (axis_get_vector_length (along_x f_half_ulp) (along_x f_zero)) = f_one ∧
  f_le (axis_get_vector_length (along_x f_big) (along_x (SFopp f_big)))
       (f_add (axis_get_vector_length (along_x f_big) (along_x f_zero))
              (axis_get_vector_length (along_x f_zero) (along_x (SFopp f_big))))
    = false ∧
  axis_get_vector_length (along_x f_big) (along_x (SFopp f_big)) = S754_infinity false ∧
  axis_get_vector_length (along_x f_big) (along_x f_zero) = f_big ∧
  f_eq (axis_get_vector_length (along_x (S754_infinity false))
                               (along_x (S754_infinity false))) f_zero
    = false.
Proof. repeat split; vm_compute; reflexivity. Qed.

(** Four motors.  Motor 0 is first configured for X, then for Y: after the
    second run of the map, X still reads motor 0, its limits and its enabled
    flag are unchanged, and Y reads motor 0 as well. *)
Lemma axis_map_motors_never_unmaps_witness :
  let stale := axis_map_motors 4 cfg_motor0_on_y
                 (axis_map_motors 4 cfg_motor0_on_x motor_map_initial) in
  stale = [0; 0; -1; -1; -1; -1]%Z ∧
  axis_get_motor stale AXIS_X = Some 0%Z ∧
  axis_get_motor (axis_map_motors 4 cfg_motor0_on_y motor_map_initial) AXIS_X
    = Some (-1)%Z.
Proof.
  destruct (axis_map_motors_never_unmaps 4 f_one f_one f_one (λ _, false)
              cfg_motor0_on_y motor_map_initial AXIS_X) as (_ & _ & Hinit & Hstale).
  { intros [|motor] _; done. }
  split; [reflexivity|]. split.
  - apply (Hstale cfg_motor0_on_x 0); [unfold AXES, AXIS_X; lia|lia|reflexivity|].
    intros m' Hm'. lia.
  - apply Hinit. unfold AXES, AXIS_X. lia.
Defined.

(** ** Concrete runs of the further properties *)

(** Axis 2 is Z and back; -3 is no axis. *)
Lemma axis_get_id_of_char_witness :
  axis_get_id (axis_get_char 2) = 2%Z ∧
  axis_get_char (-3) = "?"%char ∧ axis_get_id (axis_get_char (-3)) = (-1)%Z.
Proof.
  split.
  - apply (axis_get_id_of_char 2). unfold AXES. lia.
  - apply (axis_get_id_of_char (-3)). unfold AXES. lia.
Defined.

(** A lower-case x is axis 0, whose letter is the upper-case X. *)
Lemma axis_get_id_cases_witness :
  axis_get_id "x"%char = axis_get_id "X"%char ∧
  axis_get_char (axis_get_id "x"%char) = "X"%char.
Proof.
  destruct (axis_get_id_cases "x"%char ltac:(vm_compute; lia))
    as (Hup & _ & _ & _ & Hback & _).
  split; [exact Hup|]. apply Hback. vm_compute. split; [discriminate|reflexivity].
Defined.

(** Four motors, motor 0 on X: X maps to motor 0, Y keeps its [-1]. *)
Lemma axis_map_motors_first_match_witness :
  axis_get_motor (axis_map_motors 4 cfg_motor0_on_x motor_map_initial) AXIS_X = Some 0%Z ∧
  axis_get_motor (axis_map_motors 4 cfg_motor0_on_x motor_map_initial) AXIS_Y
    = Some (-1)%Z.
Proof.
  split.
  - destruct (axis_map_motors_first_match 4 cfg_motor0_on_x motor_map_initial AXIS_X)
      as [[(k & Hk & Hcfg & _ & Hm)|[Hnone _]] _];
      [unfold AXES, AXIS_X; lia | reflexivity | |].
    + destruct k as [|k]; [exact Hm|]. by destruct k.
    + by destruct (Hnone 0 ltac:(lia)).
  - destruct (axis_map_motors_first_match 4 cfg_motor0_on_x motor_map_initial AXIS_Y)
      as [[(k & Hk & Hcfg & _ & Hm)|[_ Hkeep]] _];
      [unfold AXES, AXIS_Y; lia | reflexivity | |].
    + destruct k as [|k]; [done|]. by destruct k.
    + exact Hkeep.
Defined.

(** A map of eight entries: the last two are not written, and a second run
    changes nothing. *)
Lemma axis_map_motors_idempotent_witness :
  axis_map_motors 4 cfg_motor0_on_x (replicate 8 5%Z) !! 7 = Some 5%Z ∧
  axis_map_motors 4 cfg_motor0_on_x
    (axis_map_motors 4 cfg_motor0_on_x (replicate 8 5%Z))
  = axis_map_motors 4 cfg_motor0_on_x (replicate 8 5%Z).
Proof.
  destruct (axis_map_motors_idempotent 4 cfg_motor0_on_x (replicate 8 5%Z))
    as (_ & Hout & Hidem).
  split; [|exact Hidem]. rewrite Hout; [reflexivity|]. unfold AXES. lia.
Defined.

(** Motor 0 on X with a velocity limit of 10: X reads 10 scaled and is
    enabled; Y, which no motor is configured for, reads zero and is not. *)
Lemma axis_limits_follow_map_witness :
  let mm := axis_map_motors 4 cfg_motor0_on_x motor_map_initial in
  axis_get_velocity_max (f_of_Z 1000) mm demo_axes AXIS_X
    = Some (f_mul (f_of_Z 10) (f_of_Z 1000)) ∧
  axis_is_enabled (f_of_Z 1000) (λ x, f_eq x f_zero) (λ _, true) mm demo_axes AXIS_X
    = Some true ∧
  axis_get_velocity_max (f_of_Z 1000) mm demo_axes AXIS_Y = Some f_zero ∧
  axis_is_enabled (f_of_Z 1000) (λ x, f_eq x f_zero) (λ _, true) mm demo_axes AXIS_Y
    = Some false.
Proof.
  intros mm.
  destruct (axis_limits_follow_map 4 (f_of_Z 1000) (f_of_Z 1000) (f_of_Z 1000)
              (λ x, f_eq x f_zero) cfg_motor0_on_x demo_axes (λ _, true) AXIS_X)
    as [_ Hx]; [unfold AXES, AXIS_X; lia|].
  destruct (axis_limits_follow_map 4 (f_of_Z 1000) (f_of_Z 1000) (f_of_Z 1000)
              (λ x, f_eq x f_zero) cfg_motor0_on_x demo_axes (λ _, true) AXIS_Y)
    as [Hy _]; [unfold AXES, AXIS_Y; lia|].
  destruct (Hx 0 _ ltac:(lia) eq_refl ltac:(intros; lia) eq_refl) as (Hv & _ & _ & He).
  destruct Hy as (Hv0 & _ & _ & He0); [intros [|[|m]] _; done|].
  split; [exact Hv|]. split; [exact He|]. split; [exact Hv0|exact He0].
Defined.

(** Motor 1 given a velocity limit of 1: it reads 1, motor 0 reads what it
    did, and there is no motor 2 to set. *)
Lemma set_velocity_max_get_witness :
  ∃ axes',
    set_velocity_max 1 f_one demo_axes = Some axes' ∧
    get_velocity_max axes' 1 = Some f_one ∧
    get_accel_max axes' 1 = Some (f_of_Z 50) ∧
    axes_at axes' 0 = axes_at demo_axes 0 ∧
    set_velocity_max 2 f_one demo_axes = None.
Proof.
  destruct (set_velocity_max_get (f_of_Z 1000) 1 f_one demo_axes) as [_ Hset].
  destruct (set_velocity_max_get (f_of_Z 1000) 2 f_one demo_axes) as [Hnone _].
  eexists. split; [reflexivity|].
  edestruct Hset as (_ & Hv & Ha & _ & Hother & _); [reflexivity|].
  split; [exact Hv|]. split; [exact Ha|]. split; [by apply Hother|].
  apply Hnone. simpl. lia.
Defined.

(** One along X against the origin: the length is not negative. *)
Lemma vector_length_sign_witness :
  f_nonneg (axis_get_vector_length (along_x f_one) (along_x f_zero)) = true.
Proof.
  apply (vector_length_sign (along_x f_one) (along_x f_zero)).
  intros [|axis] _; by split.
Defined.

(** A pool of four blocks after [demo_ops]: nothing is committed, blocks 1
    and 2 are handed out. *)
Lemma fifo_tracks_states_witness :
  ∃ σ,
    run_handles 4 demo_ops world_blank = Some ([], [1; 2], σ) ∧
    NoDup [1; 2] ∧
    count_in_use σ = 2 ∧
    state_at σ (Some 2) = Some MP_BUFFER_LOADING.
Proof.
  destruct (fifo_tracks_states 4 ltac:(lia)) as [Htrack _].
  evar (σ : world).
  assert (Hrun : run_handles 4 demo_ops world_blank = Some ([], [1; 2], σ))
    by (subst σ; vm_compute; reflexivity).
  destruct (Htrack [] [1; 2] σ) as (Hnd & Hcount & _ & Hl);
    [by apply (run_handles_fifo 4 demo_ops world_blank)|].
  exists σ. split; [exact Hrun|]. split; [exact Hnd|]. split; [by rewrite <- Hcount|].
  apply Hl. apply list_elem_of_further, list_elem_of_here.
Defined.

(** Two dwells committed: the run buffer is block 0, the first committed. *)
Lemma run_buffer_is_oldest_witness :
  ∃ σ σ',
    run_handles 4 ops_two_running world_blank = Some ([0; 1], [], σ) ∧
    mp_get_run_buffer σ = Some (Some 0, σ').
Proof.
  evar (σ : world).
  assert (Hrun : run_handles 4 ops_two_running world_blank = Some ([0; 1], [], σ))
    by (subst σ; vm_compute; reflexivity).
  destruct (run_buffer_is_oldest 4 [0; 1] [] σ) as (σ' & Hg & _);
    [lia | by apply (run_handles_fifo 4 ops_two_running world_blank) |].
  exists σ, σ'. split; [exact Hrun|exact Hg].
Defined.

(** A command and then a dwell queued on a fresh planner of four blocks: the
    last buffer is block 1, the dwell just queued. *)
Lemma last_buffer_is_newest_witness :
  ∃ σ0 σ1 σ2 σ3,
    planner_init 4 4 world_blank = Some ((), σ0) ∧
    mp_queue_command (λ s, s) 7 0 8 σ0 = Some ((), σ1) ∧
    mp_dwell (λ s, s) f_one σ1 = Some (STAT_OK, σ2) ∧
    mp_get_last_buffer next_by_link 4 σ2 = Some (Some 1, σ3).
Proof.
  evar (σ0 : world). evar (σ1 : world). evar (σ2 : world).
  assert (H0 : planner_init 4 4 world_blank = Some ((), σ0))
    by (subst σ0; vm_compute; reflexivity).
  assert (H1 : mp_queue_command (λ s, s) 7 0 8 σ0 = Some ((), σ1))
    by (subst σ0 σ1; vm_compute; reflexivity).
  assert (H2 : mp_dwell (λ s, s) f_one σ1 = Some (STAT_OK, σ2))
    by (subst σ1 σ2; vm_compute; reflexivity).
  destruct (last_buffer_is_newest 4 4 demo_ik (λ s, s) next_by_link σ1 ltac:(lia))
    as [_ Hnew];
    [ apply next_by_link_follows
    | eapply api_queue_command; [|exact H1]; eapply api_init; exact H0 | ].
  destruct (Hnew 1) as [Hdwell _];
    [subst σ1; reflexivity | subst σ1; vm_compute; reflexivity |].
  destruct (Hdwell f_one STAT_OK σ2 H2) as (σ3 & Hl).
  exists σ0, σ1, σ2, σ3. split; [exact H0|]. split; [exact H1|]. split; [exact H2|exact Hl].
Defined.

(** Two dwells committed, the first running: the Running block is at the run
    cursor. *)
Lemma run_cursor_only_witness :
  ∃ o σ,
    run_ops 4 ops_two_running world_blank = Some (o, σ) ∧
    state_at σ (Some 0) = Some MP_BUFFER_RUNNING ∧
    mb_r (mb σ) = Some 0.
Proof.
  eexists _, _. split; [vm_compute; reflexivity|]. split; [vm_compute; reflexivity|].
  apply (run_cursor_only 4 0 _ 0 MP_BUFFER_RUNNING);
    [ lia
    | apply (run_ops_reachable 4 ops_two_running world_blank); vm_compute; reflexivity
    | vm_compute; reflexivity
    | by left ].
Defined.

(** A command and then a dwell queued on a fresh planner of four blocks: the
    dwell's block, Queued, is [MOVE_NEW]; block 2, Empty, is [MOVE_OFF]. *)
Lemma move_state_marks_committed_witness :
  ∃ σ0 σ1 σ b1 b2,
    planner_init 4 4 world_blank = Some ((), σ0) ∧
    mp_queue_command (λ s, s) 7 0 8 σ0 = Some ((), σ1) ∧
    mp_dwell (λ s, s) f_one σ1 = Some (STAT_OK, σ) ∧
    block_at σ (Some 1) = Some b1 ∧ block_at σ (Some 2) = Some b2 ∧
    buffer_state b1 = MP_BUFFER_QUEUED ∧ move_state b1 = MOVE_NEW ∧
    buffer_state b2 = MP_BUFFER_EMPTY ∧ move_state b2 = MOVE_OFF.
Proof.
  evar (σ0 : world). evar (σ1 : world). evar (σ : world).
  evar (b1 : mpBuf_t). evar (b2 : mpBuf_t).
  assert (H0 : planner_init 4 4 world_blank = Some ((), σ0))
    by (subst σ0; vm_compute; reflexivity).
  assert (Hq : mp_queue_command (λ s, s) 7 0 8 σ0 = Some ((), σ1))
    by (subst σ0 σ1; vm_compute; reflexivity).
  assert (Hd : mp_dwell (λ s, s) f_one σ1 = Some (STAT_OK, σ))
    by (subst σ1 σ; vm_compute; reflexivity).
  assert (H1 : block_at σ (Some 1) = Some b1) by (subst σ b1; vm_compute; reflexivity).
  assert (H2 : block_at σ (Some 2) = Some b2) by (subst σ b2; vm_compute; reflexivity).
  assert (Ha : api_reachable 4 4 demo_ik (λ s, s) σ).
  { eapply api_dwell; [|exact Hd]. eapply api_queue_command; [|exact Hq].
    eapply api_init. exact H0. }
  destruct (move_state_marks_committed 4 4 demo_ik (λ s, s) σ 1 b1 ltac:(lia) Ha H1)
    as [Hnew _].
  destruct (move_state_marks_committed 4 4 demo_ik (λ s, s) σ 2 b2 ltac:(lia) Ha H2)
    as [_ Hoff].
  exists σ0, σ1, σ, b1, b2. split; [exact H0|]. split; [exact Hq|]. split; [exact Hd|].
  split; [exact H1|]. split; [exact H2|].
  split; [by subst b1|]. split; [apply Hnew; subst b1; by left|].
  split; [by subst b2|]. apply Hoff. by subst b2.
Defined.

(** Every block handed out: none is available and the next get returns
    nothing. *)
Lemma available_iff_get_succeeds_witness :
  ∃ o σ,
    run_ops 4 ops_all_loading world_blank = Some (o, σ) ∧
    buffers_available (mb σ) = 0%Z ∧
    mp_get_write_buffer σ = Some (None, σ).
Proof.
  eexists _, _. split; [vm_compute; reflexivity|]. split; [vm_compute; reflexivity|].
  apply (available_iff_get_succeeds 4 4);
    [ lia
    | apply (run_ops_reachable 4 ops_all_loading world_blank); vm_compute; reflexivity
    | vm_compute; reflexivity ].
Defined.

(** A flush of a world whose pool was never initialised. *)
Lemma flush_planner_resets_witness :
  ∃ σ',
    mp_flush_planner 4 world_blank = Some ((), σ') ∧
    buffers_available (mb σ') = 4%Z ∧
    count_in_use σ' = 0 ∧
    calls σ' = [cm_abort_arc; cm_set_motion_state_MOTION_STOP].
Proof.
  destruct (flush_planner_resets 4 world_blank ltac:(lia))
    as (σ' & Hf & _ & Hav & Hcnt & _ & _ & _ & Hcalls).
  exists σ'. split; [exact Hf|]. split; [exact Hav|]. split; [exact Hcnt|exact Hcalls].
Defined.

(** [planner_init] on a machine of four motors with leftovers in its
    registers. *)
Lemma planner_init_resets_witness :
  ∃ σ',
    planner_init 4 4 world_dirty = Some ((), σ') ∧
    mr_position (mr σ') !! AXIS_Y = Some f_zero ∧
    target_steps (mr σ') !! 3 = Some f_zero ∧
    buffers_available (mb σ') = 4%Z ∧
    calls σ' = calls world_dirty.
Proof.
  destruct (planner_init_resets 4 4 demo_ik (λ s, s) world_dirty ltac:(lia))
    as (σ' & Hi & _ & Hpos & Hsteps & Hav & _ & _ & Hcalls).
  exists σ'. split; [exact Hi|].
  split; [apply Hpos; unfold AXES, AXIS_Y; lia|].
  split; [apply (Hsteps 3); lia|]. split; [exact Hav|exact Hcalls].
Defined.

(** After [planner_init] and one queued command: three buffers are
    available, one is in use, none is Loading. *)
Lemma api_no_loading_witness :
  ∃ σ0 σ,
    planner_init 4 4 world_blank = Some ((), σ0) ∧
    mp_queue_command (λ s, s) 7 0 8 σ0 = Some ((), σ) ∧
    (buffers_available (mb σ) + Z.of_nat (count_in_use σ))%Z = 4%Z ∧
    mb_w (mb σ) = mb_q (mb σ) ∧
    state_at σ (Some 0) ≠ Some MP_BUFFER_LOADING.
Proof.
  evar (σ0 : world). evar (σ : world).
  assert (H0 : planner_init 4 4 world_blank = Some ((), σ0))
    by (subst σ0; vm_compute; reflexivity).
  assert (H1 : mp_queue_command (λ s, s) 7 0 8 σ0 = Some ((), σ))
    by (subst σ0 σ; vm_compute; reflexivity).
  destruct (api_no_loading 4 4 demo_ik (λ s, s) σ ltac:(lia)) as (Hacc & Hwq & Hnl & _).
  { eapply api_queue_command; [|exact H1]. eapply api_init. exact H0. }
  exists σ0, σ. split; [exact H0|]. split; [exact H1|].
  split; [exact Hacc|]. split; [exact Hwq|apply Hnl].
Defined.

(** A dwell of one second on a fresh planner of four blocks. *)
Lemma dwell_queues_block_witness :
  ∃ σ0 σ' b',
    planner_init 4 4 world_blank = Some ((), σ0) ∧
    mp_dwell (λ s, s) f_one σ0 = Some (STAT_OK, σ') ∧
    block_at σ' (Some 0) = Some b' ∧
    buffer_state b' = MP_BUFFER_QUEUED ∧
    gm_move_time b' = f_one ∧
    buffers_available (mb σ') = 3%Z.
Proof.
  evar (σ0 : world).
  assert (H0 : planner_init 4 4 world_blank = Some ((), σ0))
    by (subst σ0; vm_compute; reflexivity).
  destruct (dwell_queues_block 4 4 demo_ik (λ s, s) σ0 f_one ltac:(lia))
    as (i & σ' & b' & Hq & Hd & _ & Hb & Hst & _ & _ & Ht & Hav & _);
    [eapply api_init; exact H0 | subst σ0; vm_compute; reflexivity |].
  assert (i = 0) as -> by (subst σ0; by injection Hq as <-).
  exists σ0, σ', b'. split; [exact H0|]. split; [exact Hd|]. split; [exact Hb|].
  split; [exact Hst|]. split; [exact Ht|]. rewrite Hav. by subst σ0.
Defined.




(** One dwell queued in block 0, copied into block 1: block 1 is a Queued
    dwell with its own links, and the ring is still well linked. *)
Lemma copy_buffer_keeps_links_witness :
  ∃ o σ σ' b',
    run_ops 4 ops_one_queued world_blank = Some (o, σ) ∧
    mp_copy_buffer (Some 1) (Some 0) σ = Some ((), σ') ∧
    block_at σ' (Some 1) = Some b' ∧
    nx b' = Some 2 ∧ pv b' = Some 0 ∧
    buffer_state b' = MP_BUFFER_QUEUED ∧
    links_ok 4 (mb_bf (mb σ')).
Proof.
  evar (σ : world). evar (b : mpBuf_t). evar (s : mpBuf_t).
  assert (Hrun : run_ops 4 ops_one_queued world_blank = Some (0, σ))
    by (subst σ; vm_compute; reflexivity).
  assert (Hb : block_at σ (Some 1) = Some b) by (subst σ b; vm_compute; reflexivity).
  assert (Hs : block_at σ (Some 0) = Some s) by (subst σ s; vm_compute; reflexivity).
  destruct (copy_buffer_keeps_links 4 σ 1 0 b s ltac:(lia) Hb Hs)
    as (σ' & b' & Hc & Hb' & Hnx & Hpv & Hrest & _ & Hlinks & _).
  exists 0, σ, σ', b'. split; [exact Hrun|]. split; [exact Hc|]. split; [exact Hb'|].
  split; [rewrite Hnx; by subst b|]. split; [rewrite Hpv; by subst b|].
  split.
  { assert (buffer_state (set_pv (pv s) (set_nx (nx s) b')) = MP_BUFFER_QUEUED) as Hq
      by (rewrite Hrest; by subst s).
    exact Hq. }
  apply Hlinks.
  destruct (reachable_inv 4 0 σ ltac:(lia)) as (ri & na & Hinv);
    [by apply (run_ops_reachable 4 ops_one_queued world_blank)|].
  exact (inv_links _ _ _ _ _ Hinv).
Defined.

(** The runtime position of X set to 1 on a machine of four motors whose
    inverse kinematics is the identity: motor 0 is at 1, motor 1 where Y
    was.  The planner position set with axis 258 lands on axis 2, and with
    axis 7 it is written out of bounds. *)
Lemma runtime_position_to_steps_witness :
  ∃ σ1 σ2 σ3,
    mp_set_runtime_position AXIS_X f_one world_dirty = Some ((), σ1) ∧
    mp_set_steps_to_runtime_position 4 demo_ik 4 σ1 = Some ((), σ2) ∧
    mr_position (mr σ2) !! AXIS_X = Some f_one ∧
    encoder_register (calls σ2) 0 = Some f_one ∧
    encoder_register (calls σ2) 1 = Some (f_of_Z 20) ∧
    mm_position σ2 = mm_position world_dirty ∧
    mp_set_planner_position 258 f_one σ2 = Some ((), σ3) ∧
    mm_position σ3 !! AXIS_Z = Some f_one ∧
    mp_set_planner_position 7 f_one σ2 = None.
Proof.
  destruct (runtime_position_to_steps 4 demo_ik world_dirty AXIS_X f_one 4)
    as (σ1 & σ2 & H1 & H2 & Hpos & _ & Henc & Hmm & _ & Hin & Hout);
    [lia | lia | unfold AXES, AXIS_X; lia | reflexivity | reflexivity |].
  destruct (Hin 258 f_one) as (σ3 & H3 & Hz & _); [vm_compute; lia|].
  destruct (Hout 7 f_one) as [H7 _]; [vm_compute; lia|].
  exists σ1, σ2, σ3. split; [exact H1|]. split; [exact H2|]. split; [exact Hpos|].
  split; [by rewrite (Henc 0) by lia|]. split; [by rewrite (Henc 1) by lia|].
  split; [exact Hmm|]. split; [exact H3|]. split; [exact Hz|exact H7].
Defined.

(** A fresh pool of four blocks: a commit with no write buffer taken leaves
    one block in use and four counted available; a free with nothing Running
    leaves five counted available. *)
Lemma preconditions_are_needed_witness :
  ∃ σ σ1 e σ2,
    mp_init_buffers 4 world_blank = Some ((), σ) ∧
    mp_commit_write_buffer MOVE_TYPE_DWELL σ = Some ((), σ1) ∧
    count_in_use σ1 = 1 ∧ buffers_available (mb σ1) = 4%Z ∧
    mp_free_run_buffer σ = Some (e, σ2) ∧
    count_in_use σ2 = 0 ∧ buffers_available (mb σ2) = 5%Z.
Proof.
  evar (σ : world).
  assert (Hi : mp_init_buffers 4 world_blank = Some ((), σ))
    by (subst σ; vm_compute; reflexivity).
  destruct (preconditions_are_needed 4 σ MOVE_TYPE_DWELL ltac:(lia))
    as ((σ1 & Hc & Hc1 & Ha1) & _ & (e & σ2 & Hf & Hc2 & Ha2));
    [by apply (reach_init 4 world_blank) | by subst σ |].
  exists σ, σ1, e, σ2. split; [exact Hi|]. split; [exact Hc|]. split; [exact Hc1|].
  split; [exact Ha1|]. split; [exact Hf|]. split; [exact Hc2|exact Ha2].
Defined.
